(** * featureflow: a shallow embedding of the extraction runtime

    The development follows the Python sources module by module:
    [data.py] (key builders, the in-memory and file-system databases),
    [lmdbstore.py] (the LMDB database), [extractor.py] (nodes, the work
    queue, the graph scheduler and dead-node pruning), [feature.py]
    (features and their compilation into a graph) and [model.py]
    (processing a document and rolling it back). *)

From Stdlib Require Import String Ascii.
From stdpp Require Import base decidable option list gmap strings.

Local Open Scope string_scope.
Local Open Scope list_scope.

(** ** Exceptions and results

    Python exceptions that the modelled code raises or catches.  A call
    either returns a value or raises. *)

Inductive exn : Type :=
  | TypeError
  | KeyError
  | ValueError
  | AttributeError
  | IOError
  | NotEnoughData
  | InvalidProcessMethod
  | NoPersistenceSettingsError
  | NotComputable (key : string)
  | UserError (msg : string).

#[global] Instance exn_eq_dec : EqDecision exn.
Proof. solve_decision. Defined.

Inductive result (A : Type) : Type :=
  | Ok (a : A)
  | Raise (e : exn).
Arguments Ok {A} a.
Arguments Raise {A} e.

(** ** data.py: StringDelimitedKeyBuilder *)

Module KeyBuilder.

(** [str.join]: the parts separated by [sep]. *)
Definition join (sep : string) (parts : list string) : string :=
  String.concat sep parts.

(** [str.split(sep)] for a non-empty separator, scanning left to right.
    [skip] counts the characters of a separator occurrence that are
    still to be passed over; the head of the result is the field being
    read. *)
Fixpoint split_go (sep : string) (skip : nat) (s : string) : list string :=
  match s with
  | EmptyString => [EmptyString]
  | String c s' =>
      match skip with
      | S k => split_go sep k s'
      | O =>
          if String.prefix sep s
          then EmptyString :: split_go sep (String.length sep - 1) s'
          else match split_go sep 0 s' with
               | h :: t => String c h :: t
               | [] => [String c EmptyString]
               end
      end
  end.

(** [str.split] raises [ValueError] on an empty separator. *)
Definition split (sep : string) (s : string) : result (list string) :=
  match sep with
  | EmptyString => Raise ValueError
  | _ => Ok (split_go sep 0 s)
  end.

Record StringDelimitedKeyBuilder := { _seperator : string }.

(** [StringDelimitedKeyBuilder(seperator=':')] *)
Definition default : StringDelimitedKeyBuilder := {| _seperator := ":" |}.

(** [build] on the argument list: the parts (already strings, so [str] is the
    identity) joined by the separator.  Nothing is checked. *)
Definition build (kb : StringDelimitedKeyBuilder) (args : list string)
  : result string :=
  Ok (join (_seperator kb) args).

Definition decompose (kb : StringDelimitedKeyBuilder) (composed : string)
  : result (list string) :=
  split (_seperator kb) composed.

(** [sep in s] *)
Fixpoint contains (sep : string) (s : string) : bool :=
  String.prefix sep s ||
  match s with
  | EmptyString => false
  | String _ s' => contains sep s'
  end.

(** The number of occurrences of the character [c] in [s]. *)
Fixpoint occurrences (c : ascii) (s : string) : nat :=
  match s with
  | EmptyString => 0
  | String d s' => (if Ascii.eqb c d then 1 else 0) + occurrences c s'
  end.

(** [decompose(build(a, b, c))] *)
Definition roundtrip (kb : StringDelimitedKeyBuilder) (parts : list string)
  : result (list string) :=
  match build kb parts with
  | Ok k => decompose kb k
  | Raise e => Raise e
  end.

End KeyBuilder.

(** The bytes a writer has been given, in order. *)
Definition written (chunks : list string) : string :=
  foldl append "" chunks.

(** The body of [iter_ids], the same for the in-memory and the
    file-system database: the document id is the first of the three
    fields of a key, and an id is yielded when it is met first.  The
    result is what the generator yields and the exception, if any, that
    ends it; unpacking anything but three fields is a [ValueError]. *)
Fixpoint iter_ids_loop (kb : KeyBuilder.StringDelimitedKeyBuilder)
  (seen : gset string) (keys : list string) : list string * option exn :=
  match keys with
  | [] => ([], None)
  | key :: keys' =>
      match KeyBuilder.decompose kb key with
      | Ok [_id; _; _] =>
          if decide (_id ∈ seen) then iter_ids_loop kb seen keys'
          else
            let r := iter_ids_loop kb ({[_id]} ∪ seen) keys' in
            (_id :: r.1, r.2)
      | Ok _ => ([], Some ValueError)
      | Raise e => ([], Some e)
      end
  end.

(** ** data.py: InMemoryDatabase

    The dictionary maps a key either to the [StringIO] object handed out
    by [write_stream] (shared with the writer, hence a reference into the
    table of buffers) or, once that stream was closed, to the string read
    back from it. *)

Module InMemoryDatabase.

Inductive value : Type :=
  | Sio (ref : nat)
  | Str (s : string).

(** A [StringIO] whose [close] was replaced by [hijacked_close], which
    remembers the key the stream was opened for. *)
Record StringIO := {
  buf : string;
  closed : bool;
  hijacked_key : string;
}.

Record t := {
  sios : gmap nat StringIO;
  next_ref : nat;
  _dict : gmap string value;
}.

Definition empty : t := {| sios := ∅; next_ref := 0; _dict := ∅ |}.

(** [write_stream(key, content_type)]: a fresh [StringIO] is stored
    under [key] at once and returned. *)
Definition write_stream (key content_type : string) (db : t) : nat * t :=
  let r := next_ref db in
  (r, {| sios := <[r := {| buf := ""; closed := false;
                          hijacked_key := key |}]> (sios db);
         next_ref := S r;
         _dict := <[key := Sio r]> (_dict db) |}).

(** [sio.write(data)] *)
Definition write (r : nat) (data : string) (db : t) : result t :=
  match sios db !! r with
  | Some s =>
      if closed s then Raise ValueError
      else Ok {| sios := <[r := {| buf := buf s +:+ data;
                                   closed := false;
                                   hijacked_key := hijacked_key s |}]>
                           (sios db);
                 next_ref := next_ref db;
                 _dict := _dict db |}
  | None => Raise ValueError
  end.

(** [sio.close()], that is [hijacked_close]: rewind, store what was
    written under the key, then really close. *)
Definition close (r : nat) (db : t) : result t :=
  match sios db !! r with
  | Some s =>
      if closed s then Raise ValueError
      else Ok {| sios := <[r := {| buf := buf s; closed := true;
                                   hijacked_key := hijacked_key s |}]>
                           (sios db);
                 next_ref := next_ref db;
                 _dict := <[hijacked_key s := Str (buf s)]> (_dict db) |}
  | None => Raise ValueError
  end.

(** Successive [sio.write] calls. *)
Fixpoint writes (r : nat) (chunks : list string) (db : t) : result t :=
  match chunks with
  | [] => Ok db
  | d :: chunks' =>
      match write r d db with
      | Ok db' => writes r chunks' db'
      | Raise e => Raise e
      end
  end.

(** [read_stream(key)]: [IOWithLength(self._dict[key])].  A missing key
    is a [KeyError]; for a key still bound to an open [StringIO],
    [len(content)] fails with [AttributeError], the old-style class
    having no [__len__]. *)
Definition read_stream (key : string) (db : t) : result string :=
  match _dict db !! key with
  | None => Raise KeyError
  | Some (Sio _) => Raise AttributeError
  | Some (Str s) => Ok s
  end.

(** [size(key)]: [len(self._dict[key])] *)
Definition size (key : string) (db : t) : result nat :=
  match _dict db !! key with
  | None => Raise KeyError
  | Some (Sio _) => Raise AttributeError
  | Some (Str s) => Ok (String.length s)
  end.

(** [key in db] *)
Definition contains (key : string) (db : t) : bool :=
  bool_decide (is_Some (_dict db !! key)).

(** [del db[key]] *)
Definition delitem (key : string) (db : t) : result t :=
  match _dict db !! key with
  | None => Raise KeyError
  | Some _ => Ok {| sios := sios db; next_ref := next_ref db;
                    _dict := delete key (_dict db) |}
  end.

(** [self._dict.iterkeys()], in the order of the table. *)
Definition keys (db : t) : list string := (map_to_list (_dict db)).*1.

(** [iter_ids()], the database having been built with the key builder
    [kb]. *)
Definition iter_ids (kb : KeyBuilder.StringDelimitedKeyBuilder) (db : t)
  : list string * option exn :=
  iter_ids_loop kb ∅ (keys db).

End InMemoryDatabase.

(** ** data.py: FileSystemDatabase

    The directory is a map from file name to content.  [open(path, 'wb')]
    creates or truncates the file at once; the handle buffers what is
    written and [close] flushes it. *)

Module FileSystemDatabase.

Record handle := { h_path : string; h_pending : string }.

Record t := { files : gmap string string }.

Definition empty : t := {| files := ∅ |}.

Definition write_stream (key content_type : string) (db : t) : handle * t :=
  ({| h_path := key; h_pending := "" |},
   {| files := <[key := ""]> (files db) |}).

Definition write (data : string) (h : handle) : handle :=
  {| h_path := h_path h; h_pending := h_pending h +:+ data |}.

Definition close (h : handle) (db : t) : t :=
  {| files := <[h_path h := h_pending h]> (files db) |}.

(** [read_stream]: an [IOError] of [open] becomes a [KeyError]. *)
Definition read_stream (key : string) (db : t) : result string :=
  match files db !! key with
  | None => Raise KeyError
  | Some s => Ok s
  end.

(** [os.path.exists] *)
Definition contains (key : string) (db : t) : bool :=
  bool_decide (is_Some (files db !! key)).

(** [os.remove] raises [OSError] on a missing file; the callers only
    distinguish success from failure. *)
Definition delitem (key : string) (db : t) : result t :=
  match files db !! key with
  | None => Raise IOError
  | Some _ => Ok {| files := delete key (files db) |}
  end.

(** [size(key)]: the [OSError] of [os.stat] becomes a [KeyError]. *)
Definition size (key : string) (db : t) : result nat :=
  match files db !! key with
  | None => Raise KeyError
  | Some s => Ok (String.length s)
  end.

(** [os.listdir(self._path)] *)
Definition listdir (db : t) : list string := (map_to_list (files db)).*1.

Definition iter_ids (kb : KeyBuilder.StringDelimitedKeyBuilder) (db : t)
  : list string * option exn :=
  iter_ids_loop kb ∅ (listdir db).

End FileSystemDatabase.

(** ** lmdbstore.py: LmdbDatabase

    The environment holds one named sub-database per feature; [dbs] is the
    table of the handles opened so far (a handle is identified with the
    name of its sub-database). *)

Module LmdbDatabase.

Record t := {
  key_builder : KeyBuilder.StringDelimitedKeyBuilder;
  dbs : gset string;
  env : gmap string (gmap string string);
}.

Definition empty (kb : KeyBuilder.StringDelimitedKeyBuilder) : t :=
  {| key_builder := kb; dbs := ∅; env := ∅ |}.

(** [_id, feature, version = self.key_builder.decompose(key)] followed
    by [build(_id, version)]: unpacking anything but three fields is a
    [ValueError]. *)
Definition versioned (db : t) (key : string) : result (string * string) :=
  match KeyBuilder.decompose (key_builder db) key with
  | Ok [_id; feature; version] =>
      match KeyBuilder.build (key_builder db) [_id; version] with
      | Ok vk => Ok (vk, feature)
      | Raise e => Raise e
      end
  | Ok _ => Raise ValueError
  | Raise e => Raise e
  end.

(** [_get_db]: the handle is opened (and the sub-database created) when
    it is not in the table yet. *)
Definition _get_db (key : string) (db : t) : result (string * string * t) :=
  match versioned db key with
  | Ok (vk, feature) =>
      if decide (feature ∈ dbs db) then Ok (vk, feature, db)
      else Ok (vk, feature,
               {| key_builder := key_builder db;
                  dbs := {[feature]} ∪ dbs db;
                  env := match env db !! feature with
                         | Some _ => env db
                         | None => <[feature := ∅]> (env db)
                         end |})
  | Raise e => Raise e
  end.

(** [_get_read_db]: an unknown handle is a [KeyError]. *)
Definition _get_read_db (key : string) (db : t) : result (string * string) :=
  match versioned db key with
  | Ok (vk, feature) =>
      if decide (feature ∈ dbs db) then Ok (vk, feature)
      else Raise KeyError
  | Raise e => Raise e
  end.

(** [txn.get(_id, db=db)] *)
Definition txn_get (vk feature : string) (db : t) : option string :=
  env db !! feature ≫= λ sub, sub !! vk.

(** [txn.put(_id, value, db=db)] *)
Definition txn_put (vk feature value : string) (db : t) : t :=
  {| key_builder := key_builder db;
     dbs := dbs db;
     env := <[feature := <[vk := value]> (default ∅ (env db !! feature))]>
              (env db) |}.

(** The [WriteStream] object: the key and a [BytesIO] buffer. *)
Record WriteStream := { ws_key : string; ws_buf : string }.

Definition write_stream (key content_type : string) (db : t)
  : WriteStream * t :=
  ({| ws_key := key; ws_buf := "" |}, db).

Definition write (data : string) (ws : WriteStream) : WriteStream :=
  {| ws_key := ws_key ws; ws_buf := ws_buf ws +:+ data |}.

Definition close (ws : WriteStream) (db : t) : result t :=
  match _get_db (ws_key ws) db with
  | Ok (vk, feature, db') => Ok (txn_put vk feature (ws_buf ws) db')
  | Raise e => Raise e
  end.

Definition read_stream (key : string) (db : t) : result string :=
  match _get_read_db key db with
  | Ok (vk, feature) =>
      match txn_get vk feature db with
      | None => Raise KeyError
      | Some buf => Ok buf
      end
  | Raise e => Raise e
  end.

(** [key in db]: only the [KeyError] of [_get_read_db] is caught. *)
Definition contains (key : string) (db : t) : result bool :=
  match _get_read_db key db with
  | Ok (vk, feature) => Ok (bool_decide (is_Some (txn_get vk feature db)))
  | Raise KeyError => Ok false
  | Raise e => Raise e
  end.

(** [size(key)] *)
Definition size (key : string) (db : t) : result nat :=
  match _get_read_db key db with
  | Ok (vk, feature) =>
      match txn_get vk feature db with
      | None => Raise KeyError
      | Some buf => Ok (String.length buf)
      end
  | Raise e => Raise e
  end.

(** [txn.delete(_id, db=db)]: deleting a key that is not there does
    nothing. *)
Definition txn_delete (vk feature : string) (db : t) : t :=
  {| key_builder := key_builder db;
     dbs := dbs db;
     env := alter (delete vk) feature (env db) |}.

(** [del db[key]]: the [KeyError] of [_get_read_db] is caught and the
    call returns. *)
Definition delitem (key : string) (db : t) : result t :=
  match _get_read_db key db with
  | Ok (vk, feature) => Ok (txn_delete vk feature db)
  | Raise KeyError => Ok db
  | Raise e => Raise e
  end.

End LmdbDatabase.

(** ** lmdbstore.py: ReadStream

    The stream over the bytes that [LmdbDatabase.read_stream] found: the
    buffer and a position, which [seek] may set to any integer. *)

Module ReadStream.

Record t := { buf : string; pos : Z }.

(** [ReadStream(buf)] *)
Definition init (b : string) : t := {| buf := b; pos := 0 |}.

Definition tell (self : t) : Z := pos self.

(** [os.SEEK_SET], [os.SEEK_CUR] and [os.SEEK_END] *)
Definition SEEK_SET : Z := 0.
Definition SEEK_CUR : Z := 1.
Definition SEEK_END : Z := 2.

Definition seek (p : Z) (whence : Z) (self : t) : result t :=
  if decide (whence = SEEK_SET) then
    Ok {| buf := buf self; pos := p |}
  else if decide (whence = SEEK_END) then
    Ok {| buf := buf self;
          pos := Z.max 0 (Z.of_nat (String.length (buf self)) + p) |}
  else if decide (whence = SEEK_CUR) then
    Ok {| buf := buf self; pos := pos self + p |}
  else Raise IOError.

(** [read(nbytes)], [nbytes] being [None] or a count that is not
    negative.  [buffer(self.buf, self.pos, nbytes)] refuses a negative
    offset with a [ValueError] and is cut at the end of the buffer. *)
Definition read (nbytes : option nat) (self : t) : result (string * t) :=
  let n := default (String.length (buf self)) nbytes in
  if decide (pos self < 0)%Z then Raise ValueError
  else
    let v := String.substring (Z.to_nat (pos self)) n (buf self) in
    Ok (v, {| buf := buf self;
              pos := pos self + Z.of_nat (String.length v) |}).

End ReadStream.

(** ** extractor.py: nodes, the work queue and the graph

    Node objects live in a heap indexed by their identity ([id(node)]).
    The run mutates nodes, the work queue, the databases and the graph
    dictionary, so the methods are written in a state monad whose
    computations either return, raise a Python exception, or are
    [Undefined] (the loop budget ran out or a reference dangles). *)

Module Extractor.

(** Node identities are natural numbers. *)
Abbreviation node_id := nat (only parsing).

(** [id(pusher)]: the pusher is a node or [None]. *)
Definition pusher := option node_id.

(** The [_cache] slot: [None] or the pending datum. *)
Definition Cache := option string.

(** The methods a [Node] subclass may override.  [_process] and
    [_last_chunk] are generators: the items they yield ([None] is a
    possible item) and the exception, if any, that ends the iteration.  [generator] records
    [inspect.isgeneratorfunction(self._process)], [aggregator] the
    [Aggregator] mixin and [version] the [version] property. *)
Record NodeClass := {
  version : string;
  content_type : string;
  generator : bool;
  aggregator : bool;
  _enqueue : string → pusher → Cache → result Cache;
  _dequeue : Cache → result (string * Cache);
  _first_chunk : string → result string;
  _process : string → list (option string) * option exn;
  _last_chunk : Cache → list (option string) * option exn;
  _finalize : pusher → Cache → result Cache;
}.

(** The methods of [Node] itself. *)
Definition Node_enqueue (data : string) (p : pusher) (c : Cache)
  : result Cache := Ok (Some data).

Definition Node_dequeue (c : Cache) : result (string * Cache) :=
  match c with
  | None => Raise NotEnoughData
  | Some v => Ok (v, None)
  end.

Definition BaseNode (name : string) : NodeClass :=
  {| version := name;
     content_type := "";
     generator := true;
     aggregator := false;
     _enqueue := Node_enqueue;
     _dequeue := Node_dequeue;
     _first_chunk := λ data, Ok data;
     _process := λ data, ([Some data], None);
     _last_chunk := λ _, ([], None);
     _finalize := λ _ c, Ok c |}.

(** Modelled from the spec: [DataWriter] ([datawriter.py] is not part of
    the sources).  A leaf node bound to a database and to the key built
    from the document id, the feature name and the feature version.  It
    opens [write_stream] lazily on the first chunk, writes every chunk,
    and closes the stream on finalize.  [_finalize] runs once for every
    upstream that ends and once more when the node itself finishes; the
    stream is closed by the first of these calls that finds it open. *)
Record DataWriter := {
  w_database : nat;
  w_key : string;
  w_content_type : string;
  w_stream : option nat;
  w_closed : bool;
}.

Inductive Kind : Type :=
  | UserNode (cls : NodeClass)
  | WriterNode (w : DataWriter).

Record Node := {
  kind : Kind;
  _needs : list node_id;
  _listeners : list node_id;
  _cache : Cache;
  first_chunk_replaced : bool;
  _finalized_dependencies : gset pusher;
  _enqueued_dependencies : gset pusher;
}.

Definition dependency_count (n : Node) : nat := length (_needs n).

Definition is_root (n : Node) : bool :=
  bool_decide (_needs n = []).

Definition is_leaf (n : Node) : bool :=
  bool_decide (_listeners n = []).

(** The [_finalized] property. *)
Definition _finalized (n : Node) : bool :=
  bool_decide (dependency_count n ≤ size (_finalized_dependencies n))%nat
  && bool_decide (dependency_count n ≤ size (_enqueued_dependencies n))%nat.

(** The name of the method an envelope asks the subscribers to call. *)
Inductive Fname : Type := f_process | f_finish.

(** An envelope [(id(self), fname, kwargs)]: the pusher in [kwargs] is
    the node [env_key] itself; a [_finish] envelope carries no data. *)
Record Envelope := {
  env_key : node_id;
  env_fname : Fname;
  env_data : option string;
}.

(** What the run leaves in its trace: the calls of node methods, and the
    exceptions that left a method called on a subscriber by the drain
    loop or the generator of a root node. *)
Inductive Event : Type :=
  | Invoked (n : node_id) (f : Fname) (data : option string) (p : pusher)
  | SubscriberRaised (n : node_id) (e : exn)
  | RootRaised (n : node_id) (e : exn).

Record State := {
  heap : gmap node_id Node;
  next_node : node_id;
  graph : list (string * node_id);
  queue : list Envelope;
  world : gmap nat InMemoryDatabase.t;
  trace : list Event;
}.

Inductive outcome (A : Type) : Type :=
  | Done (a : A) (st : State)
  | Raised (e : exn) (st : State)
  | Undefined (st : State).
Arguments Done {A} a st.
Arguments Raised {A} e st.
Arguments Undefined {A} st.

Definition M (A : Type) : Type := State → outcome A.

Definition ret {A} (a : A) : M A := λ st, Done a st.

Definition bind {A B} (m : M A) (k : A → M B) : M B :=
  λ st, match m st with
        | Done a st' => k a st'
        | Raised e st' => Raised e st'
        | Undefined st' => Undefined st'
        end.

Definition raise {A} (e : exn) : M A := λ st, Raised e st.

Definition undefined {A} : M A := λ st, Undefined st.

(** [try: m except exc: h] *)
Definition try_except {A} (m : M A) (exc : exn) (h : M A) : M A :=
  λ st, match m st with
        | Raised e st' => if decide (e = exc) then h st' else Raised e st'
        | r => r
        end.

Definition get : M State := λ st, Done st st.

Definition modify (f : State → State) : M unit := λ st, Done tt (f st).

Definition lift {A} (r : result A) : M A :=
  match r with
  | Ok a => ret a
  | Raise e => raise e
  end.

Declare Scope monad_scope.
Delimit Scope monad_scope with M.
Notation "x <- m ;; k" := (bind m (λ x, k))
  (at level 100, m at next level, right associativity) : monad_scope.
Notation "m ;; k" := (bind m (λ _, k))
  (at level 100, right associativity) : monad_scope.
Local Open Scope monad_scope.

Definition out_state {A} (r : outcome A) : State :=
  match r with
  | Done _ st | Raised _ st | Undefined st => st
  end.

(** *** State access *)

Definition set_heap (h : gmap node_id Node) (st : State) : State :=
  {| heap := h; next_node := next_node st; graph := graph st;
     queue := queue st; world := world st; trace := trace st |}.

Definition set_queue (q : list Envelope) (st : State) : State :=
  {| heap := heap st; next_node := next_node st; graph := graph st;
     queue := q; world := world st; trace := trace st |}.

Definition set_graph (g : list (string * node_id)) (st : State) : State :=
  {| heap := heap st; next_node := next_node st; graph := g;
     queue := queue st; world := world st; trace := trace st |}.

Definition set_world (w : gmap nat InMemoryDatabase.t) (st : State)
  : State :=
  {| heap := heap st; next_node := next_node st; graph := graph st;
     queue := queue st; world := w; trace := trace st |}.

Definition record (ev : Event) : M unit :=
  modify (λ st,
    {| heap := heap st; next_node := next_node st; graph := graph st;
       queue := queue st; world := world st;
       trace := trace st ++ [ev] |}).

Definition get_node (n : node_id) : M Node :=
  st <- get ;;
  match heap st !! n with
  | Some node => ret node
  | None => undefined
  end.

Definition update_node (n : node_id) (f : Node → Node) : M unit :=
  modify (λ st, set_heap (alter f n (heap st)) st).

Definition set_cache (c : Cache) (n : Node) : Node :=
  {| kind := kind n; _needs := _needs n; _listeners := _listeners n;
     _cache := c; first_chunk_replaced := first_chunk_replaced n;
     _finalized_dependencies := _finalized_dependencies n;
     _enqueued_dependencies := _enqueued_dependencies n |}.

Definition set_listeners (l : list node_id) (n : Node) : Node :=
  {| kind := kind n; _needs := _needs n; _listeners := l;
     _cache := _cache n; first_chunk_replaced := first_chunk_replaced n;
     _finalized_dependencies := _finalized_dependencies n;
     _enqueued_dependencies := _enqueued_dependencies n |}.

Definition replace_first_chunk (n : Node) : Node :=
  {| kind := kind n; _needs := _needs n; _listeners := _listeners n;
     _cache := _cache n; first_chunk_replaced := true;
     _finalized_dependencies := _finalized_dependencies n;
     _enqueued_dependencies := _enqueued_dependencies n |}.

Definition add_finalized (p : pusher) (n : Node) : Node :=
  {| kind := kind n; _needs := _needs n; _listeners := _listeners n;
     _cache := _cache n; first_chunk_replaced := first_chunk_replaced n;
     _finalized_dependencies := {[p]} ∪ _finalized_dependencies n;
     _enqueued_dependencies := _enqueued_dependencies n |}.

Definition add_enqueued (p : pusher) (n : Node) : Node :=
  {| kind := kind n; _needs := _needs n; _listeners := _listeners n;
     _cache := _cache n; first_chunk_replaced := first_chunk_replaced n;
     _finalized_dependencies := _finalized_dependencies n;
     _enqueued_dependencies := {[p]} ∪ _enqueued_dependencies n |}.

Definition set_stream (r : option nat) (closed : bool) (n : Node) : Node :=
  match kind n with
  | WriterNode w =>
      {| kind := WriterNode {| w_database := w_database w;
                               w_key := w_key w;
                               w_content_type := w_content_type w;
                               w_stream := r;
                               w_closed := closed |};
         _needs := _needs n; _listeners := _listeners n;
         _cache := _cache n;
         first_chunk_replaced := first_chunk_replaced n;
         _finalized_dependencies := _finalized_dependencies n;
         _enqueued_dependencies := _enqueued_dependencies n |}
  | UserNode _ => n
  end.

(** *** The work queue: a [deque] *)

(** [queue.appendleft(x)] *)
Definition appendleft {A} (x : A) (q : list A) : list A :=
  x :: q.

(** [queue.extendleft(xs)]: the items are added to the left one by one. *)
Definition extendleft {A} (xs : list A) (q : list A) : list A :=
  foldl (λ q x, appendleft x q) q xs.

(** [queue.pop()]: the rightmost element. *)
Fixpoint pop {A} (q : list A) : option (A * list A) :=
  match q with
  | [] => None
  | [x] => Some (x, [])
  | y :: q' =>
      match pop q' with
      | Some (x, rest) => Some (x, y :: rest)
      | None => None
      end
  end.

(** [Node._push] *)
Definition _push (self : node_id) (data : option string) : M unit :=
  modify (λ st,
    set_queue (appendleft {| env_key := self; env_fname := f_process;
                             env_data := data |} (queue st)) st).

(** *** Node methods *)

(** [self._enqueue(data, pusher)] *)
Definition do_enqueue (self : node_id) (data : string) (p : pusher)
  : M unit :=
  node <- get_node self ;;
  c <- lift (match kind node with
             | UserNode cls => _enqueue cls data p (_cache node)
             | WriterNode _ => Node_enqueue data p (_cache node)
             end) ;;
  update_node self (set_cache c).

(** [self._dequeue()]; the [Aggregator] mixin refuses until the node is
    finalized. *)
Definition do_dequeue (self : node_id) : M string :=
  node <- get_node self ;;
  r <- lift (match kind node with
             | UserNode cls =>
                 if aggregator cls && negb (_finalized node)
                 then Raise NotEnoughData
                 else _dequeue cls (_cache node)
             | WriterNode _ => Node_dequeue (_cache node)
             end) ;;
  update_node self (set_cache r.2) ;;
  ret r.1.

(** [self._first_chunk(inp)], the identity once it has been replaced. *)
Definition do_first_chunk (self : node_id) (inp : string) : M string :=
  node <- get_node self ;;
  if first_chunk_replaced node then ret inp
  else match kind node with
       | UserNode cls => lift (_first_chunk cls inp)
       | WriterNode _ => ret inp
       end.

(** The database a writer is bound to. *)
Definition get_database (d : nat) : M InMemoryDatabase.t :=
  st <- get ;;
  match world st !! d with
  | Some db => ret db
  | None => undefined
  end.

Definition put_database (d : nat) (db : InMemoryDatabase.t) : M unit :=
  modify (λ st, set_world (<[d := db]> (world st)) st).

(** Modelled from the spec: the three things a [DataWriter] does with
    its database.  Opening registers the stream under the key. *)
Definition writer_open (self : node_id) (w : DataWriter) : M nat :=
  db <- get_database (w_database w) ;;
  let '(r, db') :=
    InMemoryDatabase.write_stream (w_key w) (w_content_type w) db in
  put_database (w_database w) db' ;;
  update_node self (set_stream (Some r) false) ;;
  ret r.

Definition writer_write (w : DataWriter) (r : nat) (data : string) : M unit :=
  db <- get_database (w_database w) ;;
  db' <- lift (InMemoryDatabase.write r data db) ;;
  put_database (w_database w) db'.

Definition writer_close (self : node_id) (w : DataWriter) (r : nat)
  : M unit :=
  db <- get_database (w_database w) ;;
  db' <- lift (InMemoryDatabase.close r db) ;;
  put_database (w_database w) db' ;;
  update_node self (set_stream (Some r) true).

(** [self._process(inp)]: the items to push and the exception that ends
    the iteration.  The writer opens its stream on the first chunk and
    writes the chunk; it yields nothing. *)
Definition do_process (self : node_id) (inp : string)
  : M (list (option string) * option exn) :=
  node <- get_node self ;;
  match kind node with
  | UserNode cls => ret (_process cls inp)
  | WriterNode w =>
      r <- match w_stream w with
           | Some r => ret r
           | None => writer_open self w
           end ;;
      writer_write w r inp ;;
      ret ([], None)
  end.

(** [self._last_chunk()] *)
Definition do_last_chunk (self : node_id) : M (list (option string) * option exn) :=
  node <- get_node self ;;
  match kind node with
  | UserNode cls => ret (_last_chunk cls (_cache node))
  | WriterNode _ => ret ([], None)
  end.

(** [self._finalize(pusher)]; the writer closes its stream. *)
Definition do_finalize (self : node_id) (p : pusher) : M unit :=
  node <- get_node self ;;
  match kind node with
  | UserNode cls =>
      c <- lift (_finalize cls p (_cache node)) ;;
      update_node self (set_cache c)
  | WriterNode w =>
      match w_stream w with
      | Some r =>
          if w_closed w then ret tt else writer_close self w r
      | None => ret tt
      end
  end.

(** [pusher in self._needs] *)
Definition in_needs (p : pusher) (node : Node) : bool :=
  match p with
  | Some u => bool_decide (u ∈ _needs node)
  | None => false
  end.

(** The envelope that tells the subscribers to call [_finish]. *)
Definition push_finish (self : node_id) : M unit :=
  modify (λ st,
    set_queue (appendleft {| env_key := self; env_fname := f_finish;
                             env_data := None |} (queue st)) st).

(** [Node._finish(pusher, queue)].  A node is truthy, [None] is not. *)
Definition _finish (self : node_id) (p : pusher) : M unit :=
  do_finalize self p ;;
  node <- get_node self ;;
  (if in_needs p node then update_node self (add_finalized p)
   else ret tt) ;;
  match p with
  | Some _ => ret tt
  | None => push_finish self
  end.

(** *** [Node.process] as a generator

    The first part of the body, up to the iteration over
    [self._process(inp)]: [None] when [NotEnoughData] was caught before
    the iteration started. *)
Definition begin (self : node_id) (data : option string) (p : pusher)
  : M (option (list (option string) * option exn)) :=
  match data with
  | Some d =>
      update_node self (add_enqueued p) ;;
      do_enqueue self d p
  | None => ret tt
  end ;;
  try_except
    (inp <- do_dequeue self ;;
     inp <- do_first_chunk self inp ;;
     update_node self replace_first_chunk ;;
     out <- do_process self inp ;;
     ret (Some out))
    NotEnoughData
    (ret None).

(** The last statements of the body, after the last chunks. *)
Definition conclude (self : node_id) : M unit :=
  _finish self None ;;
  _push self None.

(** [self.is_root or self._finalized] *)
Definition root_or_finalized (self : node_id) : M bool :=
  node <- get_node self ;;
  ret (is_root node || _finalized node).

(** Where a suspended generator stands: not started, inside the
    iteration over [_process], at the [yield None] of the handler,
    inside the iteration over [_last_chunk], or at the final
    [yield None]. *)
Inductive Generator : Type :=
  | GStart (data : option string) (p : pusher)
  | GEmit (rest : list (option string)) (err : option exn)
  | GHandled
  | GLast (rest : list (option string)) (err : option exn)
  | GEnd
  | GExhausted.

(** One call of [next]: the generator yields and suspends, or stops. *)
Inductive Step : Type :=
  | Yield (g : Generator)
  | StopIteration.

(** The iteration over [_last_chunk()] and what follows it. *)
Definition step_last (self : node_id) (rest : list (option string))
  (err : option exn) : M Step :=
  match rest with
  | chunk :: rest' => _push self chunk ;; ret (Yield (GLast rest' err))
  | [] =>
      match err with
      | Some e => raise e
      | None => conclude self ;; ret (Yield GEnd)
      end
  end.

(** The statement [if self.is_root or self._finalized: ...]. *)
Definition step_tail (self : node_id) : M Step :=
  b <- root_or_finalized self ;;
  if b : bool then
    out <- do_last_chunk self ;;
    step_last self out.1 out.2
  else ret StopIteration.

(** The iteration over [self._process(inp)], inside the [try]. *)
Definition step_emit (self : node_id) (rest : list (option string))
  (err : option exn) : M Step :=
  match rest with
  | d :: rest' => _push self d ;; ret (Yield (GEmit rest' err))
  | [] =>
      match err with
      | Some NotEnoughData => ret (Yield GHandled)
      | Some e => raise e
      | None => step_tail self
      end
  end.

Definition next (self : node_id) (g : Generator) : M Step :=
  match g with
  | GStart data p =>
      out <- begin self data p ;;
      match out with
      | Some (ds, err) => step_emit self ds err
      | None => ret (Yield GHandled)
      end
  | GEmit rest err => step_emit self rest err
  | GHandled => step_tail self
  | GLast rest err => step_last self rest err
  | GEnd => ret StopIteration
  | GExhausted => ret StopIteration
  end.

(** The list comprehension over the call: the generator is run to its end.
    The four loops below are the body of [process] without its
    suspension points. *)
Fixpoint run_last (self : node_id) (rest : list (option string)) (err : option exn)
  : M unit :=
  match rest with
  | chunk :: rest' => _push self chunk ;; run_last self rest' err
  | [] =>
      match err with
      | Some e => raise e
      | None => conclude self
      end
  end.

Definition run_tail (self : node_id) : M unit :=
  b <- root_or_finalized self ;;
  if b : bool then
    out <- do_last_chunk self ;;
    run_last self out.1 out.2
  else ret tt.

Fixpoint run_emit (self : node_id) (rest : list (option string)) (err : option exn)
  : M unit :=
  match rest with
  | d :: rest' => _push self d ;; run_emit self rest' err
  | [] =>
      match err with
      | Some NotEnoughData => run_tail self
      | Some e => raise e
      | None => run_tail self
      end
  end.

(** [list(self.process(data, pusher, queue))] *)
Definition process (self : node_id) (data : option string) (p : pusher)
  : M unit :=
  out <- begin self data p ;;
  match out with
  | Some (ds, err) => run_emit self ds err
  | None => run_tail self
  end.

(** *** What a node records about its upstreams

    A node hears of a pusher in two ways: [process] is called with a
    chunk of data, or [_finish] is called.  [receive] is what the two
    calls do to the dependency sets. *)

Inductive Signal : Type :=
  | Chunk (p : pusher)
  | Finished (p : pusher).

#[global] Instance Signal_eq_dec : EqDecision Signal.
Proof. solve_decision. Defined.

Definition receive (node : Node) (s : Signal) : Node :=
  match s with
  | Chunk p => add_enqueued p node
  | Finished p => if in_needs p node then add_finalized p node else node
  end.

Definition receive_all (node : Node) (sigs : list Signal) : Node :=
  foldl receive node sigs.

(** How often the upstream [u] delivered a chunk, and how often it
    signalled the end of its stream. *)
Definition chunks_from (u : node_id) (sigs : list Signal) : nat :=
  length (filter (λ s, s = Chunk (Some u)) sigs).

Definition finishes_from (u : node_id) (sigs : list Signal) : nat :=
  length (filter (λ s, s = Finished (Some u)) sigs).

(** A node as [Node.__init__] leaves it. *)
Definition fresh_node (k : Kind) (needs : list node_id) : Node :=
  {| kind := k; _needs := needs; _listeners := []; _cache := None;
     first_chunk_replaced := false;
     _finalized_dependencies := ∅; _enqueued_dependencies := ∅ |}.

(** *** Graph: a dictionary from keys to nodes

    The dictionary is an association list with one entry per key;
    iteration follows the list. *)

Fixpoint graph_get (k : string) (g : list (string * node_id))
  : option node_id :=
  match g with
  | [] => None
  | (k', n) :: g' => if decide (k' = k) then Some n else graph_get k g'
  end.

(** [graph[k] = n] *)
Fixpoint graph_set (k : string) (n : node_id) (g : list (string * node_id))
  : list (string * node_id) :=
  match g with
  | [] => [(k, n)]
  | (k', n') :: g' =>
      if decide (k' = k) then (k, n) :: g' else (k', n') :: graph_set k n g'
  end.

Definition graph_remove (k : string) (g : list (string * node_id))
  : list (string * node_id) :=
  filter (λ kn, kn.1 ≠ k) g.

(** [del self[k]] *)
Definition graph_del (k : string) : M unit :=
  st <- get ;;
  match graph_get k (graph st) with
  | None => raise KeyError
  | Some _ => modify (set_graph (graph_remove k (graph st)))
  end.

Definition node_has (P : Node → bool) (st : State) (n : node_id) : bool :=
  match heap st !! n with
  | Some node => P node
  | None => false
  end.

(** [Graph.roots] *)
Definition roots (st : State) : list (string * node_id) :=
  filter (λ kn, node_has is_root st kn.2 = true) (graph st).

(** [Graph.leaves] *)
Definition leaves (st : State) : list (string * node_id) :=
  filter (λ kn, node_has is_leaf st kn.2 = true) (graph st).

(** [Graph.subscriptions]: the nodes of the graph listening to [key], a
    node once for every occurrence of [key] in its [_needs]. *)
Definition subscriptions (st : State) (key : node_id) : list node_id :=
  flat_map
    (λ kn : string * node_id,
       match heap st !! kn.2 with
       | Some node =>
           flat_map (λ u, if decide (u = key) then [kn.2] else [])
                    (_needs node)
       | None => []
       end)
    (graph st).

(** [list.remove(x)]: the first occurrence, a [ValueError] without one. *)
Fixpoint list_remove (x : node_id) (l : list node_id)
  : option (list node_id) :=
  match l with
  | [] => None
  | y :: l' =>
      if decide (y = x) then Some l'
      else match list_remove x l' with
           | Some r => Some (y :: r)
           | None => None
           end
  end.

(** [e._listeners.remove(self)] *)
Definition remove_listener (self e : node_id) : M unit :=
  up <- get_node e ;;
  match list_remove self (_listeners up) with
  | Some l => update_node e (set_listeners l)
  | None => raise ValueError
  end.

(** [Node.disconnect] *)
Fixpoint disconnect_from (self : node_id) (needs : list node_id) : M unit :=
  match needs with
  | [] => ret tt
  | e :: needs' => remove_listener self e ;; disconnect_from self needs'
  end.

Definition disconnect (self : node_id) : M unit :=
  node <- get_node self ;;
  disconnect_from self (_needs node).

(** [mapping = dict((self[f.key], f) for f in features)], a feature
    being given by its key and its [store] flag. *)
Fixpoint build_mapping (g : list (string * node_id))
  (features : list (string * bool)) (acc : gmap node_id (string * bool))
  : result (gmap node_id (string * bool)) :=
  match features with
  | [] => Ok acc
  | f :: features' =>
      match graph_get f.1 g with
      | Some n => build_mapping g features' (<[n := f]> acc)
      | None => Raise KeyError
      end
  end.

(** The [while nodes:] loop of [remove_dead_nodes]. *)
Fixpoint remove_dead_loop (fuel : nat)
  (mapping : gmap node_id (string * bool)) (nodes : list node_id)
  : M unit :=
  match fuel with
  | O => undefined
  | S fuel' =>
      match pop nodes with
      | None => ret tt
      | Some (extractor, nodes') =>
          node <- get_node extractor ;;
          let nodes'' := extendleft (_needs node) nodes' in
          match mapping !! extractor with
          | None => remove_dead_loop fuel' mapping nodes''
          | Some feature =>
              (if is_leaf node && negb feature.2
               then disconnect extractor ;; graph_del feature.1
               else ret tt) ;;
              remove_dead_loop fuel' mapping nodes''
          end
      end
  end.

(** [Graph.remove_dead_nodes(features)] *)
Definition remove_dead_nodes (fuel : nat) (features : list (string * bool))
  : M unit :=
  st <- get ;;
  mapping <- lift (build_mapping (graph st) features ∅) ;;
  remove_dead_loop fuel mapping (leaves st).*2.

(** *** The scheduler *)

(** An exception leaving a method of a node is noted in the trace. *)
Definition observe {A} (ev : exn → Event) (m : M A) : M A :=
  λ st, match m st with
        | Raised e st' =>
            Raised e
              {| heap := heap st'; next_node := next_node st';
                 graph := graph st'; queue := queue st';
                 world := world st';
                 trace := trace st' ++ [ev e] |}
        | r => r
        end.

(** The body of [for subscriber in subscriptions[key]]: the method
    named by the envelope is called with the envelope's arguments and
    its result is iterated over; a [TypeError] skips the subscriber.
    [_finish] returns [None], which is not iterable. *)
Definition deliver (subscriber : node_id) (env : Envelope) : M unit :=
  record (Invoked subscriber (env_fname env) (env_data env)
                  (Some (env_key env))) ;;
  try_except
    match env_fname env with
    | f_process =>
        observe (SubscriberRaised subscriber)
          (process subscriber (env_data env) (Some (env_key env)))
    | f_finish =>
        observe (SubscriberRaised subscriber)
          (_finish subscriber (Some (env_key env))) ;;
        raise TypeError
    end
    TypeError
    (ret tt).

Fixpoint deliver_all (subscribers : list node_id) (env : Envelope)
  : M unit :=
  match subscribers with
  | [] => ret tt
  | s :: subscribers' => deliver s env ;; deliver_all subscribers' env
  end.

(** [while queue: ...] *)
Fixpoint drain (fuel : nat) (subs : node_id → list node_id) : M unit :=
  match fuel with
  | O => undefined
  | S fuel' =>
      st <- get ;;
      match pop (queue st) with
      | None => ret tt
      | Some (env, rest) =>
          modify (set_queue rest) ;;
          deliver_all (subs (env_key env)) env ;;
          drain fuel' subs
      end
  end.

(** One step of [izip_longest]: every generator that is not exhausted
    yet is advanced once, in order.  The flag tells whether one of them
    yielded. *)
Fixpoint advance (gens : list (node_id * Generator))
  : M (list (node_id * Generator) * bool) :=
  match gens with
  | [] => ret ([], false)
  | (n, GExhausted) :: gens' =>
      r <- advance gens' ;;
      ret ((n, GExhausted) :: r.1, r.2)
  | (n, g) :: gens' =>
      s <- observe (RootRaised n) (next n g) ;;
      r <- advance gens' ;;
      match s with
      | Yield g' => ret ((n, g') :: r.1, true)
      | StopIteration => ret ((n, GExhausted) :: r.1, r.2)
      end
  end.

(** The loop over [izip_longest] of the generators, draining the queue after every step. *)
Fixpoint rounds (fuel : nat) (subs : node_id → list node_id)
  (gens : list (node_id * Generator)) : M unit :=
  match fuel with
  | O => undefined
  | S fuel' =>
      r <- advance gens ;;
      if r.2 : bool
      then drain fuel' subs ;; rounds fuel' subs r.1
      else ret tt
  end.

(** The generators of the root nodes, in the order of [graph_args]. *)
Fixpoint start_generators (kwargs : gmap string string)
  (rs : list (string * node_id)) : M (list (node_id * Generator)) :=
  match rs with
  | [] => ret []
  | (k, n) :: rs' =>
      match kwargs !! k with
      | Some v =>
          record (Invoked n f_process (Some v) None) ;;
          gens <- start_generators kwargs rs' ;;
          ret ((n, GStart (Some v) None) :: gens)
      | None => start_generators kwargs rs'
      end
  end.

(** [Graph.process(kwargs)].  Entering and leaving the nodes around the
    run does nothing for a [Node]. *)
Definition Graph_process (fuel : nat) (kwargs : gmap string string)
  : M unit :=
  st <- get ;;
  let rs := roots st in
  let intersection := filter (λ kn, is_Some (kwargs !! kn.1)) rs in
  if decide (length intersection < length rs)%nat then raise KeyError
  else
    let subs := subscriptions st in
    modify (set_queue []) ;;
    gens <- start_generators kwargs intersection ;;
    rounds fuel subs gens.

(** *** Graphs as the constructors build them

    [Node.__init__] appends the new node to the listeners of each of its
    needs, once per occurrence, so a node is created after its needs;
    [_build_extractor] registers every node it creates in the graph. *)

(** [l.count(x)] *)
Definition occ (x : node_id) (l : list node_id) : nat :=
  length (filter (λ y, y = x) l).

Definition listener_ok (st : State) (e : node_id) (up : Node) (y : node_id)
  : bool :=
  bool_decide (e < y)%nat &&
  bool_decide (y ∈ (graph st).*2) &&
  match heap st !! y with
  | Some ny => bool_decide (occ y (_listeners up) ≤ occ e (_needs ny))%nat
  | None => false
  end.

Definition well_formed (st : State) : bool :=
  bool_decide (NoDup (graph st).*1) &&
  bool_decide (NoDup (graph st).*2) &&
  forallb (λ n, bool_decide (n < next_node st)%nat &&
                bool_decide (is_Some (heap st !! n))) (graph st).*2 &&
  forallb (λ eu : node_id * Node,
             forallb (listener_ok st eu.1 eu.2) (_listeners eu.2))
          (map_to_list (heap st)).

(** [y] listens to [x]. *)
Definition listens (st : State) (x y : node_id) : Prop :=
  ∃ up, heap st !! x = Some up ∧ y ∈ _listeners up.

(** The node backs an unstored feature, and so does every node that
    depends on it, directly or not: it has no stored dependent. *)
Definition doomed (st : State) (mapping : gmap node_id (string * bool))
    (n : node_id) : Prop :=
  ∀ y, rtc (listens st) n y → ∃ k, mapping !! y = Some (k, false).

(** The calls of node methods in a trace. *)
Definition invoked (n : node_id) (l : list Event) : Prop :=
  ∃ f d p, Invoked n f d p ∈ l.

(** *** Reading a trace

    The event says that the exception [e] left a node and is not one the
    scheduler catches: any exception of a root generator, and any
    exception but [TypeError] of a method called on a subscriber. *)
Definition escapes (ev : Event) (e : exn) : Prop :=
  match ev with
  | RootRaised _ e' => e' = e
  | SubscriberRaised _ e' => e' = e ∧ e ≠ TypeError
  | Invoked _ _ _ _ => False
  end.

(** *** Looking for a listener

    [Node.find_listener(predicate)]: the loop over the listeners returns
    in its first iteration, with the first listener when it satisfies
    the predicate and with the answer of that listener otherwise; a node
    without listeners answers [None].  The recursion follows the
    listeners, so it is bounded by [fuel]: the outer [None] says that the
    budget ran out or that a reference dangles. *)
Fixpoint find_listener (fuel : nat) (st : State) (predicate : node_id → bool)
  (self : node_id) : option (option node_id) :=
  match fuel with
  | O => None
  | S fuel' =>
      match heap st !! self with
      | None => None
      | Some node =>
          match _listeners node with
          | [] => Some None
          | l :: _ =>
              if predicate l then Some (Some l)
              else find_listener fuel' st predicate l
          end
      end
  end.

End Extractor.

(** ** Persistence settings

    An id provider is an object with a [new_id] method taking the keyword
    arguments of [process]; it is asked once per run. *)

Record IdProvider := { new_id : gmap string string → result string }.

(** [UserSpecifiedIdProvider(key)]: [kwargs[key]] *)
Definition UserSpecifiedIdProvider (key : string) : IdProvider :=
  {| new_id := λ kwargs,
       match kwargs !! key with
       | Some v => Ok v
       | None => Raise KeyError
       end |}.

(** [StaticIdProvider(key)] *)
Definition StaticIdProvider (key : string) : IdProvider :=
  {| new_id := λ _, Ok key |}.

(** The database is named by its index in the world of databases. *)
Record PersistenceSettings := {
  id_provider : IdProvider;
  key_builder : KeyBuilder.StringDelimitedKeyBuilder;
  database : nat;
}.

(** ** feature.py *)

Module Feature.
Import Extractor.
Local Open Scope monad_scope.

(** A decoder turns the stored bytes into a value. *)
Definition Decoder := string → result string.

(** A feature declaration.  [needs] are the features it depends on. *)
#[warnings="-register-all"]
Inductive Feature : Type :=
  mkFeature (key : string) (extractor : NodeClass) (needs : list Feature)
            (store : bool) (encoder : NodeClass) (decoder : Decoder)
            (persistence : option PersistenceSettings).

Definition key (f : Feature) : string :=
  let 'mkFeature k _ _ _ _ _ _ := f in k.
Definition extractor (f : Feature) : NodeClass :=
  let 'mkFeature _ e _ _ _ _ _ := f in e.
Definition needs (f : Feature) : list Feature :=
  let 'mkFeature _ _ n _ _ _ _ := f in n.
Definition store (f : Feature) : bool :=
  let 'mkFeature _ _ _ s _ _ _ := f in s.
Definition encoder (f : Feature) : NodeClass :=
  let 'mkFeature _ _ _ _ e _ _ := f in e.
Definition decoder (f : Feature) : Decoder :=
  let 'mkFeature _ _ _ _ _ d _ := f in d.
Definition persistence (f : Feature) : option PersistenceSettings :=
  let 'mkFeature _ _ _ _ _ _ p := f in p.

(** The feature and the features it depends on, directly or not. *)
Fixpoint closure (f : Feature) : list Feature :=
  match f with
  | mkFeature _ _ needs _ _ _ _ => f :: flat_map closure needs
  end.

(** The [version] property: the version of the extractor. *)
Definition feature_version (f : Feature) : string :=
  Extractor.version (extractor f).

(** [(self.persistence or persistence)] *)
Definition effective (f : Feature) (p : PersistenceSettings)
  : PersistenceSettings :=
  default p (persistence f).

(** [Feature.database(persistence)] *)
Definition feature_database (f : Feature) (p : PersistenceSettings) : nat :=
  database (effective f p).

(** [Feature.keybuilder(persistence)] *)
Definition keybuilder (f : Feature) (p : PersistenceSettings)
  : KeyBuilder.StringDelimitedKeyBuilder :=
  key_builder (effective f p).

(** The key of the feature for a document. *)
Definition feature_key (f : Feature) (_id : string)
  (p : PersistenceSettings) : string :=
  KeyBuilder.join (KeyBuilder._seperator (keybuilder f p))
                  [_id; key f; feature_version f].

Definition is_root (f : Feature) : bool :=
  bool_decide (needs f = []).

(** [Feature._can_compute] *)
Fixpoint _can_compute (f : Feature) : bool :=
  match f with
  | mkFeature _ _ needs store _ _ _ =>
      if store then true
      else if bool_decide (needs = []) then false
      else forallb _can_compute needs
  end.

(** [Feature.reader(_id, key, persistence)] *)
Definition reader (f : Feature) (_id : string) (k : string)
  (p : PersistenceSettings) : M string :=
  key <- lift (KeyBuilder.build (keybuilder f p)
                 [_id; k; feature_version f]) ;;
  db <- get_database (feature_database f p) ;;
  lift (InMemoryDatabase.read_stream key db).

(** [Feature._stored(_id, persistence)] *)
Definition _stored (f : Feature) (_id : string) (p : PersistenceSettings)
  : M bool :=
  key <- lift (KeyBuilder.build (keybuilder f p)
                 [_id; key f; feature_version f]) ;;
  db <- get_database (feature_database f p) ;;
  ret (InMemoryDatabase.contains key db).

(** [Feature.__call__(_id, decoder, persistence)].  What follows the
    [_can_compute] test builds and runs the partial graph; it needs the
    decoder node and the capturing writer, which are not part of the
    sources, and is the parameter [compute]. *)
Definition __call__ (f : Feature) (_id : string) (dec : option Decoder)
  (p : PersistenceSettings) (compute : M string) : M string :=
  let dec := default (decoder f) dec in
  try_except
    (raw <- reader f _id (key f) p ;;
     lift (dec raw))
    KeyError
    (if negb (_can_compute f) then raise (NotComputable (key f))
     else compute).

(** [Node.__init__]: the [_process] method must be a generator; the new
    node registers itself with its upstream nodes. *)
Fixpoint add_listeners (self : node_id) (needs : list node_id) : M unit :=
  match needs with
  | [] => ret tt
  | n :: needs' =>
      update_node n (λ up, set_listeners (_listeners up ++ [self]) up) ;;
      add_listeners self needs'
  end.

Definition new_node (k : Kind) (needs : list node_id) : M node_id :=
  match k with
  | UserNode cls =>
      if generator cls then ret tt else raise InvalidProcessMethod
  | WriterNode _ => ret tt
  end ;;
  st <- get ;;
  let self := next_node st in
  modify (λ st,
    {| heap := <[self := fresh_node k needs]> (heap st);
       next_node := S self; graph := graph st; queue := queue st;
       world := world st; trace := trace st |}) ;;
  add_listeners self needs ;;
  ret self.

(** [graph[k] = n] *)
Definition register (k : string) (n : node_id) : M unit :=
  modify (λ st, set_graph (graph_set k n (graph st)) st).

(** The encoder and the writer appended to a stored feature. *)
Definition build_writer (f : Feature) (_id : string)
  (p : PersistenceSettings) (e : node_id) : M unit :=
  enc <- new_node (UserNode (encoder f)) [e] ;;
  register (key f +:+ "_encoder") enc ;;
  dw <- new_node
          (WriterNode {| w_database := feature_database f p;
                         w_key := feature_key f _id p;
                         w_content_type :=
                           Extractor.content_type (encoder f);
                         w_stream := None;
                         w_closed := false |})
          [enc] ;;
  register (key f +:+ "_writer") dw.

(** [Feature._build_extractor(_id, graph, persistence)], with
    [Feature._depends_on] as its inner loop. *)
Fixpoint _build_extractor (f : Feature) (_id : string)
  (p : PersistenceSettings) {struct f} : M node_id :=
  st <- get ;;
  match graph_get (key f) (graph st) with
  | Some n => ret n
  | None =>
      needs <-
        (fix _depends_on (fs : list Feature) : M (list node_id) :=
           match fs with
           | [] => ret []
           | f' :: fs' =>
               st <- get ;;
               e <- match graph_get (key f') (graph st) with
                    | Some n => ret n
                    | None => _build_extractor f' _id p
                    end ;;
               rest <- _depends_on fs' ;;
               ret (e :: rest)
           end)
          (match f with mkFeature _ _ needs _ _ _ _ => needs end) ;;
      e <- new_node (UserNode (extractor f)) needs ;;
      register (key f) e ;;
      (if store f then build_writer f _id p e else ret tt) ;;
      ret e
  end.

End Feature.

(** ** model.py *)

Module BaseModel.
Import Extractor Feature.
Local Open Scope monad_scope.

(** A model class: its features and the persistence settings it was
    mixed with, if any. *)
Record Model := {
  features : list Feature;
  settings : option PersistenceSettings;
}.

(** The features of the model and everything they depend on. *)
Definition all_features (cls : Model) : list Feature :=
  flat_map closure (features cls).

(** [_ensure_persistence_settings] *)
Definition _ensure_persistence_settings (cls : Model)
  : M PersistenceSettings :=
  match settings cls with
  | Some p => ret p
  | None => raise NoPersistenceSettingsError
  end.

(** [BaseModel._build_extractor(_id)]: a new graph with every feature. *)
Fixpoint build_features (fs : list Feature) (_id : string)
  (p : PersistenceSettings) : M unit :=
  match fs with
  | [] => ret tt
  | f :: fs' => _build_extractor f _id p ;; build_features fs' _id p
  end.

Definition _build_extractor (cls : Model) (_id : string)
  (p : PersistenceSettings) : M unit :=
  modify (set_graph []) ;;
  build_features (features cls) _id p.

(** [del cls.database[key]] inside [try: ... except: pass] *)
Definition delete_quietly (d : nat) (key : string) : M unit :=
  st <- get ;;
  match world st !! d with
  | Some db =>
      match InMemoryDatabase.delitem key db with
      | Ok db' => put_database d db'
      | Raise _ => ret tt
      end
  | None => undefined
  end.

(** [BaseModel._rollback(_id)]: the key builder and the database are
    those of the class. *)
Fixpoint rollback_features (fs : list Feature) (_id : string)
  (p : PersistenceSettings) : M unit :=
  match fs with
  | [] => ret tt
  | f :: fs' =>
      (if store f then
         key <- lift (KeyBuilder.build (key_builder p)
                        [_id; key f; feature_version f]) ;;
         delete_quietly (database p) key
       else ret tt) ;;
      rollback_features fs' _id p
  end.

Definition _rollback (cls : Model) (_id : string) (p : PersistenceSettings)
  : M unit :=
  rollback_features (features cls) _id p.

(** [BaseModel.process(kwargs)] *)
Definition process (fuel : nat) (cls : Model) (kwargs : gmap string string)
  : M string :=
  p <- _ensure_persistence_settings cls ;;
  _id <- lift (new_id (id_provider p) kwargs) ;;
  _build_extractor cls _id p ;;
  remove_dead_nodes fuel (map (λ f, (key f, store f)) (features cls)) ;;
  λ st, match Graph_process fuel kwargs st with
        | Done _ st' => Done _id st'
        | Raised e st' =>
            match _rollback cls _id p st' with
            | Done _ st'' => Raised e st''
            | Raised e' st'' => Raised e' st''
            | Undefined st'' => Undefined st''
            end
        | Undefined st' => Undefined st'
        end.

End BaseModel.

(** ** Nodes and models in the style of the test-suite *)

Module Examples.
Import Extractor Feature BaseModel.
Local Open Scope monad_scope.

(** [chunked(flo, chunksize)]: [k] is the room left in the chunk [acc]. *)
Fixpoint chunked_go (size k : nat) (acc s : string) : list string :=
  match s with
  | EmptyString => match acc with EmptyString => [] | _ => [acc] end
  | String c s' =>
      let acc' := acc +:+ String c EmptyString in
      match k with
      | 0 | 1 => acc' :: chunked_go size size EmptyString s'
      | S k' => chunked_go size k' acc' s'
      end
  end.

Definition chunked (size : nat) (s : string) : list string :=
  chunked_go size size EmptyString s.

Definition subclass (name : string)
    (process : string → list (option string) * option exn) : NodeClass :=
  {| version := name;
     content_type := "";
     generator := true;
     aggregator := false;
     _enqueue := Node_enqueue;
     _dequeue := Node_dequeue;
     _first_chunk := λ data, Ok data;
     _process := process;
     _last_chunk := λ _, ([], None);
     _finalize := λ _ c, Ok c |}.

(** [TextStream]: the text in chunks of three characters. *)
Definition TextStream : NodeClass :=
  subclass "TextStream" (λ data, (Some <$> chunked 3 data, None)).

(** [Echo]: [Node._process] as it is. *)
Definition Echo : NodeClass := BaseNode "Echo".

(** [Broken]: [_process] raises before it yields. *)
Definition Broken : NodeClass :=
  subclass "Broken" (λ _, ([], Some (UserError "broken"))).

(** A node whose [_process] raises a [TypeError]. *)
Definition Mistyped : NodeClass :=
  subclass "Mistyped" (λ _, ([], Some TypeError)).

(** A node whose [_process] yields nothing. *)
Definition Silent : NodeClass := subclass "Silent" (λ _, ([], None)).

(** Modelled from the spec: [IdentityEncoder] ([encoder.py] is not part
    of the sources), the encoder that passes the chunks on unchanged. *)
Definition IdentityEncoder : NodeClass :=
  {| version := "IdentityEncoder";
     content_type := "application/octet-stream";
     generator := true;
     aggregator := false;
     _enqueue := Node_enqueue;
     _dequeue := Node_dequeue;
     _first_chunk := λ data, Ok data;
     _process := λ data, ([Some data], None);
     _last_chunk := λ _, ([], None);
     _finalize := λ _ c, Ok c |}.

(** [Feature(extractor, needs=..., store=...)] with the default encoder
    and decoder. *)
Definition feature (key : string) (extractor : NodeClass)
    (needs : list Feature) (store : bool) : Feature :=
  mkFeature key extractor needs store IdentityEncoder (λ raw, Ok raw) None.

(** The settings of the test-suite, with a fixed document id; the model
    database is database 0. *)
Definition Settings : PersistenceSettings :=
  {| id_provider := StaticIdProvider "doc1";
     key_builder := KeyBuilder.default;
     database := 0 |}.

(** Settings that point at another database. *)
Definition OtherSettings : PersistenceSettings :=
  {| id_provider := StaticIdProvider "doc1";
     key_builder := KeyBuilder.default;
     database := 1 |}.

(** Two empty databases, no node, an empty trace. *)
Definition initial : State :=
  {| heap := ∅; next_node := 0; graph := []; queue := [];
     world := {[0 := InMemoryDatabase.empty; 1 := InMemoryDatabase.empty]};
     trace := [] |}.

Definition stream : Feature := feature "stream" TextStream [] true.

(** A stored stream and a stored copy of it. *)
Definition Document : Model :=
  {| features := [stream; feature "copy" Echo [stream] true];
     settings := Some Settings |}.

(** A node in the middle of the graph raises an exception. *)
Definition BrokenDocument : Model :=
  let upper := feature "upper" Echo [stream] false in
  {| features := [stream; upper; feature "broken" Broken [upper] true];
     settings := Some Settings |}.

(** A node in the middle of the graph raises a [TypeError]. *)
Definition MistypedDocument : Model :=
  {| features := [stream; feature "typed" Mistyped [stream] true];
     settings := Some Settings |}.

(** A stored feature whose extractor never yields. *)
Definition SilentDocument : Model :=
  {| features := [stream; feature "quiet" Silent [stream] true];
     settings := Some Settings |}.

(** The stream is stored in a database of its own; a node further down
    raises. *)
Definition SplitDocument : Model :=
  let stream' :=
    mkFeature "stream" TextStream [] true IdentityEncoder (λ raw, Ok raw)
              (Some OtherSettings) in
  let upper := feature "upper" Echo [stream'] false in
  {| features := [stream'; upper; feature "broken" Broken [upper] true];
     settings := Some Settings |}.

(** An unstored leaf next to a stored one. *)
Definition CountedDocument : Model :=
  {| features := [stream; feature "copy" Echo [stream] false;
                  feature "upper" Echo [stream] true];
     settings := Some Settings |}.

(** The state in which [BaseModel.process] calls [Graph.process]: the
    graph is built and pruned. *)
Definition prepared (fuel : nat) (cls : Model) (_id : string) : State :=
  out_state
    ((BaseModel._build_extractor cls _id Settings ;;
      remove_dead_nodes fuel (map (λ f, (key f, store f)) (features cls)))
       initial).

(** The keys stored in a database of a state. *)
Definition stored_keys (d : nat) (st : State) : list string :=
  match world st !! d with
  | Some db => (map_to_list (InMemoryDatabase._dict db)).*1
  | None => []
  end.

End Examples.

(** * Properties *)

(** ** Strings *)

Lemma append_empty_l (s : string) : "" +:+ s = s.
Proof. reflexivity. Qed.

Lemma append_String (c : ascii) (s t : string) :
  String c s +:+ t = String c (s +:+ t).
Proof. reflexivity. Qed.

Lemma append_empty_r (s : string) : s +:+ "" = s.
Proof.
  induction s as [|c s IH]; [done|]. by rewrite append_String, IH.
Qed.

Lemma append_assoc (s t u : string) : (s +:+ t) +:+ u = s +:+ (t +:+ u).
Proof.
  induction s as [|c s IH]; [done|]. by rewrite !append_String, IH.
Qed.

(** ** Reasoning about runs (extractor.py)

    Most properties of a run are of the form: a relation between the
    state before and the state after holds whatever the outcome.  Such a
    relation is established for the few operations that write to the
    state and then carried through every method. *)

Section Transitions.
Import Extractor.
Local Open Scope monad_scope.

Context (R : relation State) `{!PreOrder R}.

Lemma bind_transits {A B} (m : M A) (k : A → M B) (st : State) :
  R st (out_state (m st)) →
  (∀ a st', m st = Done a st' → R st' (out_state (k a st'))) →
  R st (out_state (bind m k st)).
Proof.
  intros Hm Hk. unfold bind. destruct (m st) as [a st'|e st'|st'] eqn:E;
    cbn [out_state] in *; [|done|done].
  etrans; [exact Hm|]. by apply Hk.
Qed.

Lemma try_except_transits {A} (m h : M A) (exc : exn) (st : State) :
  R st (out_state (m st)) →
  (∀ st', m st = Raised exc st' → R st' (out_state (h st'))) →
  R st (out_state (try_except m exc h st)).
Proof.
  intros Hm Hh. unfold try_except.
  destruct (m st) as [a st'|e st'|st'] eqn:E; cbn [out_state] in *;
    [done| |done].
  destruct (decide (e = exc)) as [->|]; [|done].
  etrans; [exact Hm|]. by apply Hh.
Qed.

Lemma ret_transits {A} (a : A) (st : State) : R st (out_state (ret a st)).
Proof. reflexivity. Qed.

Lemma raise_transits {A} (e : exn) (st : State) :
  R st (out_state (raise (A:=A) e st)).
Proof. reflexivity. Qed.

Lemma undefined_transits {A} (st : State) :
  R st (out_state (undefined (A:=A) st)).
Proof. reflexivity. Qed.

Lemma lift_transits {A} (r : result A) (st : State) :
  R st (out_state (lift r st)).
Proof. destruct r; reflexivity. Qed.

Lemma get_transits (st : State) : R st (out_state (get st)).
Proof. reflexivity. Qed.

Lemma get_node_transits (n : node_id) (st : State) :
  R st (out_state (get_node n st)).
Proof. unfold get_node, bind, get. destruct (heap st !! n); reflexivity. Qed.

Lemma get_database_transits (d : nat) (st : State) :
  R st (out_state (get_database d st)).
Proof.
  unfold get_database, bind, get. destruct (world st !! d); reflexivity.
Qed.

End Transitions.

Section Inversions.
Import Extractor.

Lemma get_node_Done (n : node_id) (st st' : State) (node : Node) :
  get_node n st = Done node st' → st' = st ∧ heap st !! n = Some node.
Proof.
  unfold get_node, bind, get. destruct (heap st !! n); [|done].
  by intros [= <- <-].
Qed.

Lemma get_database_Done (d : nat) (st st' : State) (db : InMemoryDatabase.t) :
  get_database d st = Done db st' → st' = st ∧ world st !! d = Some db.
Proof.
  unfold get_database, bind, get. destruct (world st !! d); [|done].
  by intros [= <- <-].
Qed.

Lemma get_Done (st st' s : State) : get st = Done s st' → s = st ∧ st' = st.
Proof. by intros [= <- <-]. Qed.

Lemma lift_Done {A} (r : result A) (a : A) (st st' : State) :
  lift r st = Done a st' → r = Ok a ∧ st' = st.
Proof. destruct r; [|done]. by intros [= <- <-]. Qed.

Lemma ret_Done {A} (a b : A) (st st' : State) :
  ret a st = Done b st' → b = a ∧ st' = st.
Proof. by intros [= <- <-]. Qed.

Lemma bind_Done {A B} (m : M A) (k : A → M B) (b : B) (st st' : State) :
  bind m k st = Done b st' →
  ∃ a st1, m st = Done a st1 ∧ k a st1 = Done b st'.
Proof.
  unfold bind. destruct (m st) as [a st1|e st1|st1]; [|done|done]. eauto.
Qed.

Lemma modify_Done (f : State → State) (u : unit) (st st' : State) :
  modify f st = Done u st' → st' = f st.
Proof. by intros [= <-]. Qed.

End Inversions.

(** *** Relations carried through the node methods *)

Section Frames.
Import Extractor.
Local Open Scope monad_scope.

(** A relation that every write of a node method respects, except the
    recording of an enqueued dependency. *)
Class NodeFrame (R : relation State) : Prop := {
  nf_preorder :: PreOrder R;
  nf_set_cache n c st :
    R st (out_state (update_node n (set_cache c) st));
  nf_replace_first_chunk n st :
    R st (out_state (update_node n replace_first_chunk st));
  nf_add_finalized n p st node :
    heap st !! n = Some node → in_needs p node = true →
    R st (out_state (update_node n (add_finalized p) st));
  nf_push n d st : R st (out_state (_push n d st));
  nf_push_finish n st : R st (out_state (push_finish n st));
  nf_writer_open n w st node :
    heap st !! n = Some node → kind node = WriterNode w →
    w_stream w = None →
    R st (out_state (writer_open n w st));
  nf_writer_write w r data st :
    R st (out_state (writer_write w r data st));
  nf_writer_close n w r st node :
    heap st !! n = Some node → kind node = WriterNode w →
    w_stream w = Some r → w_closed w = false →
    R st (out_state (writer_close n w r st));
}.

(** ... and the recording of an enqueued dependency. *)
Class EnqueueFrame (R : relation State) : Prop := {
  ef_add_enqueued n p st :
    R st (out_state (update_node n (add_enqueued p) st));
}.

(** ... and the writes of the scheduler: the trace and the queue. *)
Class SchedulerFrame (R : relation State) : Prop := {
  sf_record ev st : R st (out_state (record ev st));
  sf_observe {A} ev (m : M A) st :
    R st (out_state (m st)) → R st (out_state (observe ev m st));
  sf_set_queue q st : R st (out_state (modify (set_queue q) st));
}.

Context (R : relation State) `{!NodeFrame R}.

Ltac frame_step :=
  first
    [ apply ret_transits; tc_solve
    | apply raise_transits; tc_solve
    | apply undefined_transits; tc_solve
    | apply lift_transits; tc_solve
    | apply get_transits; tc_solve
    | apply get_node_transits; tc_solve
    | apply get_database_transits; tc_solve
    | apply nf_set_cache
    | apply nf_replace_first_chunk
    | apply nf_push
    | apply nf_push_finish
    | apply nf_writer_write
    | apply bind_transits; [tc_solve| |intros ? ? ?]
    | apply try_except_transits; [tc_solve| |intros ? ?] ].

Lemma do_enqueue_frame self data p st :
  R st (out_state (do_enqueue self data p st)).
Proof. unfold do_enqueue. repeat frame_step. Qed.

Lemma do_dequeue_frame self st : R st (out_state (do_dequeue self st)).
Proof. unfold do_dequeue. repeat frame_step. Qed.

Lemma do_first_chunk_frame self inp st :
  R st (out_state (do_first_chunk self inp st)).
Proof.
  unfold do_first_chunk. repeat frame_step.
  destruct (first_chunk_replaced _); [frame_step|].
  destruct (kind _); frame_step.
Qed.

Lemma do_process_frame self inp st :
  R st (out_state (do_process self inp st)).
Proof.
  unfold do_process. frame_step; [frame_step|].
  apply get_node_Done in H as [-> Hnode].
  destruct (kind a) as [cls|w] eqn:Hk; [frame_step|].
  frame_step; [|repeat frame_step].
  destruct (w_stream w) eqn:Hs; [frame_step|].
  by eapply nf_writer_open.
Qed.

Lemma do_last_chunk_frame self st :
  R st (out_state (do_last_chunk self st)).
Proof.
  unfold do_last_chunk. frame_step; [frame_step|].
  destruct (kind a); frame_step.
Qed.

Lemma do_finalize_frame self p st :
  R st (out_state (do_finalize self p st)).
Proof.
  unfold do_finalize. frame_step; [frame_step|].
  apply get_node_Done in H as [-> Hnode].
  destruct (kind a) as [cls|w] eqn:Hk; [repeat frame_step|].
  destruct (w_stream w) eqn:Hs; [|frame_step].
  destruct (w_closed w) eqn:Hc; [frame_step|].
  by eapply nf_writer_close.
Qed.

Lemma _finish_frame self p st : R st (out_state (_finish self p st)).
Proof.
  unfold _finish. frame_step; [apply do_finalize_frame|].
  frame_step; [frame_step|].
  apply get_node_Done in H0 as [-> Hnode].
  frame_step.
  - destruct (in_needs p a0) eqn:Hin; [|frame_step].
    by eapply nf_add_finalized.
  - destruct p; frame_step.
Qed.

Lemma conclude_frame self st : R st (out_state (conclude self st)).
Proof.
  unfold conclude. frame_step; [apply _finish_frame|frame_step].
Qed.

Lemma root_or_finalized_frame self st :
  R st (out_state (root_or_finalized self st)).
Proof. unfold root_or_finalized. repeat frame_step. Qed.

(** The body of [process] when no data is passed. *)
Lemma begin_None_frame self p st :
  R st (out_state (begin self None p st)).
Proof.
  unfold begin. frame_step; [frame_step|]. frame_step; [|frame_step].
  frame_step; [apply do_dequeue_frame|].
  frame_step; [apply do_first_chunk_frame|].
  frame_step; [frame_step|].
  frame_step; [apply do_process_frame|frame_step].
Qed.

Lemma run_last_frame self rest err st :
  R st (out_state (run_last self rest err st)).
Proof.
  revert st. induction rest as [|chunk rest IH]; intros st; cbn [run_last].
  - destruct err; [frame_step|apply conclude_frame].
  - frame_step; [frame_step|apply IH].
Qed.

Lemma run_tail_frame self st : R st (out_state (run_tail self st)).
Proof.
  unfold run_tail. frame_step; [apply root_or_finalized_frame|].
  destruct a; [|frame_step].
  frame_step; [apply do_last_chunk_frame|apply run_last_frame].
Qed.

Lemma run_emit_frame self rest err st :
  R st (out_state (run_emit self rest err st)).
Proof.
  revert st. induction rest as [|d rest IH]; intros st; cbn [run_emit].
  - destruct err as [[]|]; first [apply run_tail_frame|frame_step].
  - frame_step; [frame_step|apply IH].
Qed.

Lemma process_None_frame self p st :
  R st (out_state (process self None p st)).
Proof.
  unfold process. frame_step; [apply begin_None_frame|].
  destruct a as [[ds err]|]; [apply run_emit_frame|apply run_tail_frame].
Qed.

Lemma step_last_frame self rest err st :
  R st (out_state (step_last self rest err st)).
Proof.
  unfold step_last. destruct rest; [destruct err|]; repeat frame_step.
  apply conclude_frame.
Qed.

Lemma step_tail_frame self st : R st (out_state (step_tail self st)).
Proof.
  unfold step_tail. frame_step; [apply root_or_finalized_frame|].
  destruct a; [|frame_step].
  frame_step; [apply do_last_chunk_frame|apply step_last_frame].
Qed.

Lemma step_emit_frame self rest err st :
  R st (out_state (step_emit self rest err st)).
Proof.
  unfold step_emit. destruct rest; [|repeat frame_step].
  destruct err as [[]|]; first [apply step_tail_frame|frame_step].
Qed.

Context `{!EnqueueFrame R}.

Lemma begin_frame self data p st :
  R st (out_state (begin self data p st)).
Proof.
  destruct data as [d|]; [|apply begin_None_frame].
  unfold begin. frame_step.
  { frame_step; [apply ef_add_enqueued|apply do_enqueue_frame]. }
  frame_step; [|frame_step].
  frame_step; [apply do_dequeue_frame|].
  frame_step; [apply do_first_chunk_frame|].
  frame_step; [frame_step|].
  frame_step; [apply do_process_frame|frame_step].
Qed.

Lemma process_frame self data p st :
  R st (out_state (process self data p st)).
Proof.
  unfold process. frame_step; [apply begin_frame|].
  destruct a as [[ds err]|]; [apply run_emit_frame|apply run_tail_frame].
Qed.

Lemma next_frame self g st : R st (out_state (next self g st)).
Proof.
  destruct g; cbn [next]; try frame_step;
    try first [apply step_emit_frame|apply step_tail_frame
              |apply step_last_frame].
  - apply begin_frame.
  - destruct a as [[ds err]|]; [apply step_emit_frame|frame_step].
Qed.

End Frames.

(** *** Relations carried through the scheduler *)

Section SchedulerFrames.
Import Extractor.
Local Open Scope monad_scope.

Context (R : relation State)
        `{!NodeFrame R, !EnqueueFrame R, !SchedulerFrame R}.

Lemma deliver_frame subscriber env st :
  R st (out_state (deliver subscriber env st)).
Proof.
  unfold deliver.
  apply bind_transits; [apply _|apply sf_record|intros [] st1 _].
  apply try_except_transits; [apply _| |intros; apply ret_transits, _].
  destruct (env_fname env).
  - apply sf_observe. by apply process_frame.
  - apply bind_transits; [apply _| |intros; apply raise_transits, _].
    apply sf_observe. by apply _finish_frame.
Qed.

Lemma deliver_all_frame subscribers env st :
  R st (out_state (deliver_all subscribers env st)).
Proof.
  revert st. induction subscribers as [|s subscribers IH]; intros st.
  - cbn [deliver_all]. apply ret_transits, _.
  - cbn [deliver_all].
    apply bind_transits; [apply _|apply deliver_frame|intros [] ? _; apply IH].
Qed.

Lemma drain_frame fuel subs st : R st (out_state (drain fuel subs st)).
Proof.
  revert st. induction fuel as [|fuel IH]; intros st.
  - cbn [drain]. apply undefined_transits, _.
  - cbn [drain]. apply bind_transits; [apply _|apply get_transits, _|].
    intros s st' [-> ->]%get_Done.
    destruct (pop (queue st)) as [[env rest]|]; [|apply ret_transits, _].
    apply bind_transits; [apply _|apply sf_set_queue|intros [] st1 _].
    apply bind_transits; [apply _|apply deliver_all_frame|intros [] st2 _].
    apply IH.
Qed.

Lemma advance_frame gens st : R st (out_state (advance gens st)).
Proof.
  revert st. induction gens as [|[n g] gens IH]; intros st.
  - cbn [advance]. apply ret_transits, _.
  - assert (Hstep :
      R st (out_state
        ((s <- observe (RootRaised n) (next n g) ;;
          r <- advance gens ;;
          match s with
          | Yield g' => ret ((n, g') :: r.1, true)
          | StopIteration => ret ((n, GExhausted) :: r.1, r.2)
          end) st))).
    { apply bind_transits; [apply _| |intros s st1 _].
      { apply sf_observe. by apply next_frame. }
      apply bind_transits; [apply _|apply IH|intros r st2 _].
      destruct s; apply ret_transits, _. }
    destruct g; exact Hstep.
Qed.

Lemma rounds_frame fuel subs gens st :
  R st (out_state (rounds fuel subs gens st)).
Proof.
  revert gens st. induction fuel as [|fuel IH]; intros gens st.
  - cbn [rounds]. apply undefined_transits, _.
  - cbn [rounds].
    apply bind_transits; [apply _|apply advance_frame|intros r st1 _].
    destruct r.2; [|apply ret_transits, _].
    apply bind_transits; [apply _|apply drain_frame|intros [] st2 _].
    apply IH.
Qed.

Lemma start_generators_frame kwargs rs st :
  R st (out_state (start_generators kwargs rs st)).
Proof.
  revert st. induction rs as [|[k n] rs IH]; intros st.
  - cbn [start_generators]. apply ret_transits, _.
  - cbn [start_generators]. destruct (kwargs !! k) as [v|]; [|apply IH].
    apply bind_transits; [apply _|apply sf_record|intros [] st1 _].
    apply bind_transits; [apply _|apply IH|intros gens st2 _].
    apply ret_transits, _.
Qed.

Lemma Graph_process_frame fuel kwargs st :
  R st (out_state (Graph_process fuel kwargs st)).
Proof.
  unfold Graph_process.
  apply bind_transits; [apply _|apply get_transits, _|].
  intros s st' [-> ->]%get_Done.
  destruct (decide _) as [Hlt|Hge]; [apply raise_transits, _|].
  apply bind_transits; [apply _|apply sf_set_queue|intros [] st1 _].
  apply bind_transits; [apply _|apply start_generators_frame|].
  intros gens st2 _. apply rounds_frame.
Qed.

End SchedulerFrames.

(** ** The work queue (extractor.py) *)

Section QueueFacts.
Import Extractor.
Context {A : Type}.
Implicit Types (q : list A) (x e : A).

(** [pop] takes the rightmost element. *)
Lemma pop_app_singleton q e : pop (q ++ [e]) = Some (e, q).
Proof.
  induction q as [|y q IH]; [done|].
  change ((y :: q) ++ [e]) with (y :: (q ++ [e])).
  destruct (q ++ [e]) as [|z r] eqn:E; [by destruct q|].
  change (pop (y :: z :: r))
    with (match pop (z :: r) with
          | Some (x, rest) => Some (x, y :: rest)
          | None => None
          end).
  by rewrite IH.
Qed.

Lemma pop_Some q e rest : pop q = Some (e, rest) → q = rest ++ [e].
Proof.
  revert e rest. induction q as [|y q IH]; intros e rest; [done|].
  destruct q as [|z q].
  - intros [= <- <-]. done.
  - change (pop (y :: z :: q))
      with (match pop (z :: q) with
            | Some (x, rest) => Some (x, y :: rest)
            | None => None
            end).
    destruct (pop (z :: q)) as [[x r]|] eqn:E; [|done].
    intros [= <- <-]. by rewrite (IH _ _ eq_refl).
Qed.

Lemma pop_None q : pop q = None → q = [].
Proof.
  induction q as [|y q IH]; [done|]. destruct q as [|z q]; [done|].
  change (pop (y :: z :: q))
    with (match pop (z :: q) with
          | Some (x, rest) => Some (x, y :: rest)
          | None => None
          end).
  destruct (pop (z :: q)) as [[x r]|]; [done|]. intros _. by specialize (IH eq_refl).
Qed.

Lemma pop_cons x q :
  pop (appendleft x q)
  = match pop q with
    | Some (e, rest) => Some (e, appendleft x rest)
    | None => Some (x, [])
    end.
Proof.
  unfold appendleft. destruct q as [|y q]; [done|].
  change (pop (x :: y :: q))
    with (match pop (y :: q) with
          | Some (e, rest) => Some (e, x :: rest)
          | None => None
          end).
  destruct (pop (y :: q)) as [[e rest]|] eqn:E; [done|].
  by apply pop_None in E.
Qed.

(** Left to right, a queue lists its envelopes from the newest to the
    oldest. *)
Lemma extendleft_rev xs q : extendleft xs q = rev xs ++ q.
Proof.
  revert q. induction xs as [|x xs IH]; intros q; [done|].
  cbn [extendleft foldl]. fold (extendleft xs (appendleft x q)).
  rewrite IH. unfold appendleft. cbn [rev]. by rewrite <- app_assoc.
Qed.

End QueueFacts.

Section QueueOrder.
Import Extractor.



End QueueOrder.

(** *** What the node methods leave alone *)

Section HeapRelations.
Import Extractor.
Local Open Scope monad_scope.

(** Every node of the heap is still there and related to what it was. *)
Definition heap_rel (P : relation Node) : relation State :=
  λ st st', ∀ n node, heap st !! n = Some node →
    ∃ node', heap st' !! n = Some node' ∧ P node node'.

#[global] Instance heap_rel_preorder (P : relation Node) `{!PreOrder P} :
  PreOrder (heap_rel P).
Proof.
  split.
  - intros st n node Hn. by exists node.
  - intros st1 st2 st3 H12 H23 n node Hn.
    destruct (H12 n node Hn) as (node2 & Hn2 & HP2).
    destruct (H23 n node2 Hn2) as (node3 & Hn3 & HP3).
    exists node3. split; [done|]. by etrans.
Qed.

Lemma heap_rel_same_heap (P : relation Node) `{!PreOrder P} st st' :
  heap st' = heap st → heap_rel P st st'.
Proof. intros Hh n node Hn. exists node. by rewrite Hh. Qed.

Lemma heap_rel_alter (P : relation Node) `{!PreOrder P} st st' n f :
  heap st' = alter f n (heap st) →
  (∀ node, heap st !! n = Some node → P node (f node)) →
  heap_rel P st st'.
Proof.
  intros Hh Hf m node Hm. rewrite Hh. destruct (decide (n = m)) as [->|Hne].
  - exists (f node). rewrite lookup_alter_eq, Hm. split; [done|]. by apply Hf.
  - exists node. by rewrite lookup_alter_ne.
Qed.

Lemma writer_open_heap n w st :
  heap (out_state (writer_open n w st)) = heap st ∨
  ∃ r, heap (out_state (writer_open n w st))
       = alter (set_stream (Some r) false) n (heap st).
Proof.
  unfold writer_open, bind, get_database, bind, get.
  destruct (world st !! w_database w); [|by left].
  right. by eexists.
Qed.

Lemma writer_write_heap w r data st :
  heap (out_state (writer_write w r data st)) = heap st.
Proof.
  unfold writer_write, bind, get_database, bind, get.
  destruct (world st !! w_database w) as [db|]; [|done].
  cbn. by destruct (InMemoryDatabase.write r data db).
Qed.

Lemma writer_close_heap n w r st :
  heap (out_state (writer_close n w r st)) = heap st ∨
  heap (out_state (writer_close n w r st))
    = alter (set_stream (Some r) true) n (heap st).
Proof.
  unfold writer_close, bind, get_database, bind, get.
  destruct (world st !! w_database w) as [db|]; [|by left].
  cbn. destruct (InMemoryDatabase.close r db); [by right|by left].
Qed.

(** A relation on nodes that the writes to single nodes respect is
    carried through the node methods. *)
Lemma heap_rel_NodeFrame (P : relation Node) `{!PreOrder P} :
  (∀ c node, P node (set_cache c node)) →
  (∀ node, P node (replace_first_chunk node)) →
  (∀ p node, in_needs p node = true → P node (add_finalized p node)) →
  (∀ r c node, P node (set_stream r c node)) →
  NodeFrame (heap_rel P).
Proof.
  intros Hcache Hfirst Hfin Hstream. split.
  - apply _.
  - intros n c st.
    apply (heap_rel_alter P st _ n (set_cache c)); [done|]. intros; apply Hcache.
  - intros n st.
    apply (heap_rel_alter P st _ n replace_first_chunk); [done|].
    intros; apply Hfirst.
  - intros n p st node Hn Hin.
    apply (heap_rel_alter P st _ n (add_finalized p)); [done|].
    intros node' Hn'. assert (node' = node) as -> by congruence. by apply Hfin.
  - intros n d st. by apply heap_rel_same_heap.
  - intros n st. by apply heap_rel_same_heap.
  - intros n w st node _ _ _.
    destruct (writer_open_heap n w st) as [Hh|[r Hh]].
    + by apply heap_rel_same_heap.
    + apply (heap_rel_alter P st _ n (set_stream (Some r) false)); [done|].
      intros; apply Hstream.
  - intros w r data st.
    apply heap_rel_same_heap; [apply _|apply writer_write_heap].
  - intros n w r st node _ _ _ _.
    destruct (writer_close_heap n w r st) as [Hh|Hh].
    + by apply heap_rel_same_heap.
    + apply (heap_rel_alter P st _ n (set_stream (Some r) true)); [done|].
      intros; apply Hstream.
Qed.

(** The enqueued dependencies of a node are what they were. *)
Definition same_enqueued : relation Node :=
  λ node node',
    _enqueued_dependencies node' = _enqueued_dependencies node.

#[global] Instance same_enqueued_preorder : PreOrder same_enqueued.
Proof.
  split; [done|]. intros a b c Hab Hbc. unfold same_enqueued in *. congruence.
Qed.

#[global] Instance same_enqueued_frame : NodeFrame (heap_rel same_enqueued).
Proof.
  apply heap_rel_NodeFrame; [apply _|..]; try done.
  intros r c node. unfold same_enqueued, set_stream. by destruct (kind node).
Qed.


End HeapRelations.

(** ** Fetching a feature (feature.py) *)

Section FeatureFacts.
Import Extractor Feature.
Local Open Scope monad_scope.

Lemma can_compute_unfold (f : Feature) :
  _can_compute f
  = store f || (negb (is_root f) && forallb _can_compute (needs f)).
Proof.
  destruct f as [k e ns s enc d p]. unfold is_root.
  cbn [_can_compute store needs].
  destruct s; [done|]. cbn [orb]. by destruct (bool_decide (ns = [])).
Qed.

(** On a miss the reader raises the key error without touching the state. *)
Lemma reader_miss (f : Feature) (_id : string) (p : PersistenceSettings)
    (st : State) (db : InMemoryDatabase.t) :
  world st !! feature_database f p = Some db →
  InMemoryDatabase.contains (feature_key f _id p) db = false →
  reader f _id (key f) p st = Raised KeyError st.
Proof.
  intros Hdb Hmiss.
  unfold reader, KeyBuilder.build, lift, bind, get_database, bind, get, ret.
  rewrite Hdb. unfold InMemoryDatabase.read_stream.
  unfold InMemoryDatabase.contains, feature_key in Hmiss.
  destruct (InMemoryDatabase._dict db !! _) eqn:E; [|done].
  rewrite bool_decide_eq_true_2 in Hmiss by eauto. done.
Qed.



End FeatureFacts.

(** *** Parts of the state the node methods never write *)

Section Fields.
Import Extractor.
Local Open Scope monad_scope.

Context {X : Type} (f : State → X).

Definition same_on : relation State := λ st st', f st' = f st.

#[global] Instance same_on_preorder : PreOrder same_on.
Proof.
  split; [done|]. intros a b c Hab Hbc. unfold same_on in *. congruence.
Qed.

Hypothesis f_heap : ∀ h st, f (set_heap h st) = f st.
Hypothesis f_queue : ∀ q st, f (set_queue q st) = f st.
Hypothesis f_world : ∀ w st, f (set_world w st) = f st.

Lemma same_on_update_node n g st :
  same_on st (out_state (update_node n g st)).
Proof. apply f_heap. Qed.

Lemma same_on_put_database d db st :
  same_on st (out_state (put_database d db st)).
Proof. apply f_world. Qed.

Lemma same_on_NodeFrame : NodeFrame same_on.
Proof.
  split.
  - apply _.
  - intros. apply same_on_update_node.
  - intros. apply same_on_update_node.
  - intros. apply same_on_update_node.
  - intros. apply f_queue.
  - intros. apply f_queue.
  - intros n w st node _ _ _. unfold writer_open.
    apply bind_transits; [apply _|apply get_database_transits, _|].
    intros db st' _. destruct (InMemoryDatabase.write_stream _ _ db) as [r db'].
    apply bind_transits; [apply _|apply same_on_put_database|intros [] ? _].
    apply bind_transits; [apply _|apply same_on_update_node|intros [] ? _].
    apply ret_transits, _.
  - intros w r data st. unfold writer_write.
    apply bind_transits; [apply _|apply get_database_transits, _|].
    intros db st' _.
    apply bind_transits; [apply _|apply lift_transits, _|intros db' ? _].
    apply same_on_put_database.
  - intros n w r st node _ _ _ _. unfold writer_close.
    apply bind_transits; [apply _|apply get_database_transits, _|].
    intros db st' _.
    apply bind_transits; [apply _|apply lift_transits, _|intros db' ? _].
    apply bind_transits; [apply _|apply same_on_put_database|intros [] ? _].
    apply same_on_update_node.
Qed.

Lemma same_on_EnqueueFrame : EnqueueFrame same_on.
Proof. split. intros. apply same_on_update_node. Qed.

End Fields.

Section TraceSilence.
Import Extractor.

#[global] Instance same_trace_NodeFrame : NodeFrame (same_on trace).
Proof. by apply same_on_NodeFrame. Qed.

#[global] Instance same_trace_EnqueueFrame : EnqueueFrame (same_on trace).
Proof. by apply same_on_EnqueueFrame. Qed.

#[global] Instance same_graph_NodeFrame : NodeFrame (same_on graph).
Proof. by apply same_on_NodeFrame. Qed.

#[global] Instance same_graph_EnqueueFrame : EnqueueFrame (same_on graph).
Proof. by apply same_on_EnqueueFrame. Qed.

End TraceSilence.

(** ** The finalized predicate (extractor.py) *)

Section FinalizedFacts.
Import Extractor.

Lemma receive_all_needs node sigs :
  _needs (receive_all node sigs) = _needs node.
Proof.
  revert node. induction sigs as [|s sigs IH]; intros node; [done|].
  cbn [receive_all foldl]. fold (receive_all (receive node s) sigs).
  rewrite IH. destruct s as [p|p]; cbn [receive]; [done|].
  by destruct (in_needs p node).
Qed.

Lemma receive_all_finalized node sigs x :
  x ∈ _finalized_dependencies (receive_all node sigs) ↔
  x ∈ _finalized_dependencies node ∨
  (Finished x ∈ sigs ∧ in_needs x node = true).
Proof.
  revert node. induction sigs as [|s sigs IH]; intros node.
  { cbn. set_solver. }
  cbn [receive_all foldl]. fold (receive_all (receive node s) sigs).
  rewrite IH, elem_of_cons.
  assert (Hin : in_needs x (receive node s) = in_needs x node).
  { destruct s as [p|p]; cbn [receive]; [done|].
    by destruct (in_needs p node). }
  rewrite Hin. destruct s as [p|p]; cbn [receive].
  - cbn [add_enqueued _finalized_dependencies]. split.
    + intros [H|[H1 H2]]; [by left|right; split; [by right|done]].
    + intros [H|[[[=]|H1] H2]]; [by left|by right].
  - destruct (in_needs p node) eqn:Hp.
    + cbn [add_finalized _finalized_dependencies].
      rewrite elem_of_union, elem_of_singleton. split.
      * intros [[->|H]|[H1 H2]];
          [right; split; [by left|done]|by left
          |right; split; [by right|done]].
      * intros [H|[[[= ->]|H1] H2]];
          [left; by right|left; by left|by right].
    + split.
      * intros [H|[H1 H2]]; [by left|right; split; [by right|done]].
      * intros [H|[[[= ->]|H1] H2]]; [by left|congruence|by right].
Qed.

Lemma receive_all_enqueued node sigs x :
  x ∈ _enqueued_dependencies (receive_all node sigs) ↔
  x ∈ _enqueued_dependencies node ∨ Chunk x ∈ sigs.
Proof.
  revert node. induction sigs as [|s sigs IH]; intros node.
  { cbn. set_solver. }
  cbn [receive_all foldl]. fold (receive_all (receive node s) sigs).
  rewrite IH, elem_of_cons. destruct s as [p|p]; cbn [receive].
  - cbn [add_enqueued _enqueued_dependencies].
    rewrite elem_of_union, elem_of_singleton. split.
    + intros [[->|H]|H]; [right; by left|by left|right; by right].
    + intros [H|[[= ->]|H]]; [left; by right|left; by left|by right].
  - assert (_enqueued_dependencies
              (if in_needs p node then add_finalized p node else node)
            = _enqueued_dependencies node) as ->
      by (by destruct (in_needs p node)).
    split.
    + intros [H|H]; [by left|right; by right].
    + intros [H|[[=]|H]]; [by left|by right].
Qed.

Lemma count_pos (s : Signal) (sigs : list Signal) :
  (1 ≤ length (filter (λ s', s' = s) sigs))%nat ↔ s ∈ sigs.
Proof.
  induction sigs as [|s' sigs IH].
  { cbn. split; [lia|by intros ?%elem_of_nil]. }
  rewrite filter_cons, elem_of_cons. destruct (decide (s' = s)) as [->|Hne].
  - cbn [length]. split; [auto|lia].
  - rewrite IH. naive_solver.
Qed.

Lemma in_needs_Some (u : node_id) (node : Node) :
  in_needs (Some u) node = true ↔ u ∈ _needs node.
Proof. cbn. apply bool_decide_eq_true. Qed.

(** With pairwise distinct upstreams, a set of pushers drawn from the
    upstreams has at least [len(needs)] elements iff it has them all. *)
Lemma size_covers (needs : list node_id) (X : gset pusher) :
  NoDup needs →
  (∀ x, x ∈ X → ∃ u, x = Some u ∧ u ∈ needs) →
  (length needs ≤ size X)%nat ↔ ∀ u, u ∈ needs → Some u ∈ X.
Proof.
  intros Hnd Hsub.
  set (Y := list_to_set (Some <$> needs) : gset pusher).
  assert (HY : size Y = length needs).
  { unfold Y. rewrite size_list_to_set, length_fmap; [done|].
    apply NoDup_fmap; [apply _|done]. }
  assert (HXY : X ⊆ Y).
  { intros x Hx. destruct (Hsub x Hx) as (u & -> & Hu).
    unfold Y. rewrite elem_of_list_to_set, list_elem_of_fmap. eauto. }
  split.
  - intros Hsize u Hu.
    assert (X = Y) as -> by (apply set_subseteq_size_eq; [done|lia]).
    unfold Y. rewrite elem_of_list_to_set, list_elem_of_fmap. eauto.
  - intros Hall. rewrite <- HY. apply subseteq_size.
    intros y. unfold Y. rewrite elem_of_list_to_set, list_elem_of_fmap.
    intros (u & -> & Hu). by apply Hall.
Qed.

Lemma remove_dups_length_le (l : list node_id) :
  (length (remove_dups l) ≤ length l)%nat.
Proof.
  induction l as [|u l IH]; [done|]. cbn [remove_dups].
  destruct (decide_rel elem_of u l); cbn [length]; lia.
Qed.

Lemma remove_dups_length_lt (l : list node_id) :
  ¬ NoDup l → (length (remove_dups l) < length l)%nat.
Proof.
  induction l as [|u l IH]; intros Hdup; [by destruct Hdup; constructor|].
  cbn [remove_dups]. destruct (decide_rel elem_of u l) as [Hin|Hnin].
  - pose proof (remove_dups_length_le l). cbn [length]. lia.
  - cbn [length]. apply -> Nat.succ_lt_mono. apply IH.
    intros Hnd. apply Hdup. by constructor.
Qed.

(** With an upstream listed twice, the dependency sets never reach
    [len(needs)]. *)
Lemma duplicate_upstream_never_finalized (k : Kind) (needs : list node_id)
    (sigs : list Signal) :
  ¬ NoDup needs →
  _finalized (receive_all (fresh_node k needs) sigs) = false.
Proof.
  intros Hdup. unfold _finalized, dependency_count.
  rewrite receive_all_needs. cbn [fresh_node _needs].
  apply andb_false_iff. left. apply bool_decide_eq_false_2.
  set (F := _finalized_dependencies _).
  assert (HF : F ⊆ list_to_set (Some <$> remove_dups needs)).
  { intros x Hx. apply receive_all_finalized in Hx.
    destruct Hx as [Hx|[_ Hx]]; [set_solver|].
    destruct x as [u|]; [|done]. apply in_needs_Some in Hx.
    cbn [fresh_node _needs] in Hx.
    rewrite elem_of_list_to_set, list_elem_of_fmap.
    exists u. by rewrite elem_of_remove_dups. }
  apply subseteq_size in HF.
  rewrite size_list_to_set, length_fmap in HF
    by (apply NoDup_fmap; [apply _|apply NoDup_remove_dups]).
  pose proof (remove_dups_length_lt needs Hdup). lia.
Qed.

Lemma in_needs_true (p : pusher) (node : Node) :
  in_needs p node = true → ∃ u, p = Some u ∧ u ∈ _needs node.
Proof.
  destruct p as [u|]; [|done]. intros Hu%in_needs_Some. eauto.
Qed.

(** With pairwise distinct upstreams (and chunks coming from upstreams
    only), the predicate says that every upstream was heard of in both
    ways, at least once. *)
Lemma finalized_iff_at_least_once (k : Kind) (needs : list node_id)
    (sigs : list Signal) :
  NoDup needs →
  (needs ≠ [] →
   ∀ p, Chunk p ∈ sigs → in_needs p (fresh_node k needs) = true) →
  _finalized (receive_all (fresh_node k needs) sigs) = true ↔
  ∀ u, u ∈ needs →
    (1 ≤ chunks_from u sigs)%nat ∧ (1 ≤ finishes_from u sigs)%nat.
Proof.
  intros Hnd Hchunks. unfold _finalized, dependency_count.
  rewrite receive_all_needs. cbn [fresh_node _needs].
  rewrite andb_true_iff, !bool_decide_eq_true.
  destruct (decide (needs = [])) as [->|Hne].
  { cbn [length]. split; [|intros _; split; lia].
    intros _ u Hu. by apply elem_of_nil in Hu. }
  specialize (Hchunks Hne).
  rewrite (size_covers needs (_finalized_dependencies _) Hnd).
  2:{ intros x [Hx|[_ Hx]]%receive_all_finalized; [set_solver|].
      by apply in_needs_true in Hx. }
  rewrite (size_covers needs (_enqueued_dependencies _) Hnd).
  2:{ intros x [Hx|Hx]%receive_all_enqueued; [set_solver|].
      by apply Hchunks, in_needs_true in Hx. }
  unfold chunks_from, finishes_from.
  split.
  - intros [HF HE] u Hu. rewrite !count_pos. split.
    + specialize (HE u Hu). apply receive_all_enqueued in HE as [HE|HE];
        [set_solver|done].
    + specialize (HF u Hu). apply receive_all_finalized in HF as [HF|[HF _]];
        [set_solver|done].
  - intros Hall. split; intros u Hu; destruct (Hall u Hu) as [Hc Hf];
      rewrite count_pos in Hc, Hf.
    + apply receive_all_finalized. right. split; [done|].
      by apply in_needs_Some.
    + apply receive_all_enqueued. by right.
Qed.




End FinalizedFacts.

(** ** Key builder (data.py) *)

Section KeyBuilderFacts.
Import KeyBuilder.

Lemma prefix_colon c s :
  String.prefix ":" (String c s) = bool_decide (":"%char = c).
Proof.
  change (String.prefix ":" (String c s))
    with (match ascii_dec ":" c with
          | left _ => String.prefix "" s
          | right _ => false
          end).
  destruct (ascii_dec ":" c) as [Heq|Hne].
  - rewrite bool_decide_eq_true_2 by done. by destruct s.
  - by rewrite bool_decide_eq_false_2.
Qed.

Lemma split_go_nonempty sep k s : split_go sep k s ≠ [].
Proof.
  revert k. induction s as [|c s IH]; intros k; [done|].
  cbn [split_go]. destruct k as [|k]; [|apply IH].
  destruct (String.prefix sep (String c s)); [done|].
  destruct (split_go sep 0 s); done.
Qed.

(** A field without a colon, followed by a colon: the field is split off. *)
Lemma split_go_field a rest :
  contains ":" a = false →
  split_go ":" 0 (a +:+ String ":" rest) = a :: split_go ":" 0 rest.
Proof.
  induction a as [|c a IH]; intros Ha.
  - rewrite append_empty_l. cbn [split_go]. rewrite prefix_colon.
    by rewrite bool_decide_eq_true_2.
  - cbn [contains] in Ha. apply orb_false_iff in Ha as [Hc Ha].
    rewrite append_String. cbn [split_go]. rewrite prefix_colon in Hc |- *.
    rewrite Hc. by rewrite IH.
Qed.

Lemma split_go_last a :
  contains ":" a = false → split_go ":" 0 a = [a].
Proof.
  induction a as [|c a IH]; intros Ha; [done|].
  cbn [contains] in Ha. apply orb_false_iff in Ha as [Hc Ha].
  cbn [split_go]. rewrite Hc. by rewrite IH.
Qed.

(** Every colon of the key starts a new field. *)
Lemma split_go_length s :
  length (split_go ":" 0 s) = S (occurrences ":" s).
Proof.
  induction s as [|c s IH]; [done|].
  cbn [split_go occurrences]. rewrite prefix_colon.
  destruct (ascii_dec ":" c) as [<-|Hne].
  - rewrite bool_decide_eq_true_2 by done. rewrite Ascii.eqb_refl.
    change (String.length ":" - 1) with 0. cbn [length]. rewrite IH. lia.
  - rewrite bool_decide_eq_false_2 by done.
    replace (Ascii.eqb ":" c) with false
      by (symmetry; by apply Ascii.eqb_neq).
    destruct (split_go ":" 0 s) eqn:E; [by apply split_go_nonempty in E|].
    cbn [length] in *. lia.
Qed.

Lemma occurrences_app c s t :
  occurrences c (s +:+ t) = occurrences c s + occurrences c t.
Proof.
  induction s as [|d s IH]; [done|].
  rewrite append_String. cbn [occurrences]. rewrite IH. lia.
Qed.

Lemma contains_colon_occurrences s :
  contains ":" s = true ↔ 0 < occurrences ":" s.
Proof.
  induction s as [|c s IH]; [cbn; split; [done|lia]|].
  cbn [contains occurrences]. rewrite prefix_colon, orb_true_iff, IH.
  destruct (ascii_dec ":" c) as [<-|Hne].
  - rewrite Ascii.eqb_refl, bool_decide_eq_true_2 by done. split; [lia|auto].
  - replace (Ascii.eqb ":" c) with false
      by (symmetry; by apply Ascii.eqb_neq).
    rewrite bool_decide_eq_false_2 by done. cbn [Nat.add].
    split; [intros [|]; done|auto].
Qed.

(** C8 (amended).  With the default builder, [build] never rejects its
    parts: it always returns the parts joined by colons.  [decompose] of
    that key has one field more than the key has colons, so it returns
    the three parts when none of them contains a colon, and more than
    three fields as soon as one of them does. *)
Theorem C8_roundtrip_legal_parts_no_rejection (a b c : string) :
  ∃ key fields,
    build default [a; b; c] = Ok key ∧
    decompose default key = Ok fields ∧
    length fields
      = 3 + occurrences ":" a + occurrences ":" b + occurrences ":" c ∧
    (contains ":" a = false → contains ":" b = false →
     contains ":" c = false → fields = [a; b; c]) ∧
    (contains ":" a = true ∨ contains ":" b = true ∨ contains ":" c = true →
     fields ≠ [a; b; c]).
Proof.
  eexists _, _. split; [reflexivity|]. split; [reflexivity|].
  assert (Hlen : length (split_go ":" 0 (join ":" [a; b; c]))
            = 3 + occurrences ":" a + occurrences ":" b + occurrences ":" c).
  { rewrite split_go_length. cbn [join String.concat].
    rewrite !occurrences_app. simpl. lia. }
  split; [exact Hlen|]. split.
  - intros Ha Hb Hc. cbn [join String.concat default _seperator].
    change (a +:+ ":" +:+ b +:+ ":" +:+ c)
      with (a +:+ String ":" (b +:+ String ":" c)).
    rewrite split_go_field by done. rewrite split_go_field by done.
    by rewrite split_go_last.
  - intros H Heq. cbn [default _seperator] in Heq. rewrite Heq in Hlen.
    assert (0 < occurrences ":" a + occurrences ":" b + occurrences ":" c).
    { destruct H as [H|[H|H]]; apply contains_colon_occurrences in H; lia. }
    simpl in Hlen. lia.
Qed.

Lemma C8_roundtrip_witness :
  ∃ key fields,
    build default ["doc1"; "stream"; "TextStream"] = Ok key ∧
    decompose default key = Ok fields ∧
    fields = ["doc1"; "stream"; "TextStream"].
Proof.
  destruct (C8_roundtrip_legal_parts_no_rejection
              "doc1" "stream" "TextStream")
    as (key & fields & Hb & Hd & _ & Hlegal & _).
  exists key, fields. split; [exact Hb|]. split; [exact Hd|].
  apply Hlegal; reflexivity.
Defined.

(** C8 as stated fails: a part containing the separator is accepted, and
    the key decomposes into four fields instead of the three parts. *)
Lemma C8_separator_in_part_not_rejected :
  build default ["a:b"; "c"; "d"] = Ok "a:b:c:d" ∧
  roundtrip default ["a:b"; "c"; "d"] = Ok ["a"; "b"; "c"; "d"] ∧
  roundtrip default ["a:b"; "c"; "d"] ≠ Ok ["a:b"; "c"; "d"].
Proof. split; [reflexivity|]. split; [reflexivity|]. discriminate. Qed.

End KeyBuilderFacts.

(** ** Visibility of written bytes (data.py, lmdbstore.py) *)

Section DatabaseFacts.

Lemma foldl_append_assoc (s : string) (chunks : list string) :
  foldl append s chunks = s +:+ foldl append "" chunks.
Proof.
  revert s. induction chunks as [|d chunks IH]; intros s; cbn [foldl].
  - by rewrite append_empty_r.
  - rewrite IH, (IH ("" +:+ d)). by rewrite append_empty_l, append_assoc.
Qed.

Lemma lmdb_writes_buf ws chunks :
  LmdbDatabase.ws_key (foldl (λ w d, LmdbDatabase.write d w) ws chunks)
    = LmdbDatabase.ws_key ws ∧
  LmdbDatabase.ws_buf (foldl (λ w d, LmdbDatabase.write d w) ws chunks)
    = foldl append (LmdbDatabase.ws_buf ws) chunks.
Proof.
  revert ws. induction chunks as [|d chunks IH]; intros ws; [done|].
  cbn [foldl]. destruct (IH (LmdbDatabase.write d ws)) as [-> ->]. done.
Qed.

Lemma lmdb_versioned_raises db key e :
  LmdbDatabase.versioned db key = Raise e → e = ValueError.
Proof.
  unfold LmdbDatabase.versioned, KeyBuilder.decompose, KeyBuilder.split,
    KeyBuilder.build.
  destruct (KeyBuilder._seperator (LmdbDatabase.key_builder db));
    [congruence|].
  destruct (KeyBuilder.split_go _ _ _) as [|? [|? [|? [|? ?]]]]; congruence.
Qed.

(** For LMDB the claim holds: nothing is stored before [close]. *)
Lemma lmdb_not_visible_before_close key ct chunks db :
  LmdbDatabase.contains key db = Ok false →
  let '(ws0, db1) := LmdbDatabase.write_stream key ct db in
  let ws := foldl (λ w d, LmdbDatabase.write d w) ws0 chunks in
  LmdbDatabase.contains key db1 = Ok false ∧
  LmdbDatabase.read_stream key db1 = Raise KeyError ∧
  ∃ db2, LmdbDatabase.close ws db1 = Ok db2 ∧
         LmdbDatabase.contains key db2 = Ok true ∧
         LmdbDatabase.read_stream key db2 = Ok (written chunks).
Proof.
  intros Hc. cbn [LmdbDatabase.write_stream].
  split; [exact Hc|].
  unfold LmdbDatabase.contains, LmdbDatabase.read_stream,
    LmdbDatabase.close, LmdbDatabase._get_read_db, LmdbDatabase._get_db
    in *.
  destruct (lmdb_writes_buf {| LmdbDatabase.ws_key := key;
                               LmdbDatabase.ws_buf := "" |} chunks)
    as [-> ->]. cbn [LmdbDatabase.ws_key LmdbDatabase.ws_buf].
  destruct (LmdbDatabase.versioned db key) as [[vk feature]|e] eqn:Hv.
  - assert (Hv' : ∀ d e, LmdbDatabase.versioned
                {| LmdbDatabase.key_builder := LmdbDatabase.key_builder db;
                   LmdbDatabase.dbs := d; LmdbDatabase.env := e |} key
              = Ok (vk, feature)) by (intros; exact Hv).
    split.
    + destruct (decide (feature ∈ LmdbDatabase.dbs db)); [|done].
      destruct (LmdbDatabase.txn_get vk feature db); [|done].
      rewrite bool_decide_eq_true_2 in Hc by eauto. discriminate.
    + destruct (decide (feature ∈ LmdbDatabase.dbs db)) as [Hin|Hnin].
      * eexists. split; [reflexivity|].
        unfold LmdbDatabase.txn_put. rewrite !Hv'.
        cbn [LmdbDatabase.dbs].
        rewrite !decide_True by done.
        unfold LmdbDatabase.txn_get. cbn [LmdbDatabase.env].
        rewrite lookup_insert_eq. cbn. rewrite lookup_insert_eq.
        rewrite bool_decide_eq_true_2 by eauto. done.
      * eexists. split; [reflexivity|].
        unfold LmdbDatabase.txn_put. cbn [LmdbDatabase.key_builder
          LmdbDatabase.dbs LmdbDatabase.env]. rewrite !Hv'.
        cbn [LmdbDatabase.dbs].
        rewrite !decide_True by set_solver.
        unfold LmdbDatabase.txn_get. cbn [LmdbDatabase.env].
        rewrite lookup_insert_eq. cbn. rewrite lookup_insert_eq.
        rewrite bool_decide_eq_true_2 by eauto. done.
  - apply lmdb_versioned_raises in Hv as ->. discriminate.
Qed.

Lemma in_memory_writes r key b chunks db :
  InMemoryDatabase.sios db !! r
    = Some {| InMemoryDatabase.buf := b; InMemoryDatabase.closed := false;
              InMemoryDatabase.hijacked_key := key |} →
  ∃ db', InMemoryDatabase.writes r chunks db = Ok db' ∧
         InMemoryDatabase._dict db' = InMemoryDatabase._dict db ∧
         InMemoryDatabase.sios db' !! r
           = Some {| InMemoryDatabase.buf := foldl append b chunks;
                     InMemoryDatabase.closed := false;
                     InMemoryDatabase.hijacked_key := key |}.
Proof.
  revert b db. induction chunks as [|d chunks IH]; intros b db Hr.
  - exists db. done.
  - cbn [InMemoryDatabase.writes]. unfold InMemoryDatabase.write.
    rewrite Hr. cbn [InMemoryDatabase.closed InMemoryDatabase.buf
      InMemoryDatabase.hijacked_key].
    edestruct (IH (b +:+ d)) as (db' & Hw & Hd & Hs);
      [|exists db'; split; [exact Hw|split; [exact Hd|exact Hs]]].
    cbn [InMemoryDatabase.sios]. by rewrite lookup_insert_eq.
Qed.

(** The in-memory database registers the key when the stream is opened;
    the written bytes replace the open stream on [close]. *)
Lemma in_memory_key_visible_at_open key ct chunks db :
  let '(r, db1) := InMemoryDatabase.write_stream key ct db in
  InMemoryDatabase.contains key db1 = true ∧
  ∃ db2, InMemoryDatabase.writes r chunks db1 = Ok db2 ∧
         InMemoryDatabase.contains key db2 = true ∧
         InMemoryDatabase.read_stream key db2 = Raise AttributeError ∧
  ∃ db3, InMemoryDatabase.close r db2 = Ok db3 ∧
         InMemoryDatabase.contains key db3 = true ∧
         InMemoryDatabase.read_stream key db3 = Ok (written chunks).
Proof.
  cbn [InMemoryDatabase.write_stream].
  set (db1 := {| InMemoryDatabase.sios := _ |}).
  assert (Hd1 : InMemoryDatabase._dict db1 !! key
                = Some (InMemoryDatabase.Sio (InMemoryDatabase.next_ref db)))
    by apply lookup_insert_eq.
  split.
  { unfold InMemoryDatabase.contains. rewrite Hd1.
    by apply bool_decide_eq_true_2. }
  destruct (in_memory_writes (InMemoryDatabase.next_ref db) key "" chunks db1)
    as (db2 & Hw & Hd & Hs); [apply lookup_insert_eq|].
  exists db2. split; [exact Hw|].
  unfold InMemoryDatabase.contains, InMemoryDatabase.read_stream,
    InMemoryDatabase.close.
  rewrite Hd, Hd1, Hs. split; [by apply bool_decide_eq_true_2|].
  split; [done|]. eexists. split; [reflexivity|].
  cbn [InMemoryDatabase._dict InMemoryDatabase.closed
    InMemoryDatabase.hijacked_key InMemoryDatabase.buf].
  rewrite lookup_insert_eq. split; [by apply bool_decide_eq_true_2|done].
Qed.

(** So does the file-system database: the file exists once opened. *)
Lemma file_system_key_visible_at_open key ct chunks db :
  let '(h0, db1) := FileSystemDatabase.write_stream key ct db in
  let h := foldl (λ h d, FileSystemDatabase.write d h) h0 chunks in
  FileSystemDatabase.contains key db1 = true ∧
  FileSystemDatabase.contains key (FileSystemDatabase.close h db1) = true ∧
  FileSystemDatabase.read_stream key (FileSystemDatabase.close h db1)
    = Ok (written chunks).
Proof.
  cbn [FileSystemDatabase.write_stream].
  assert (Hh : ∀ h,
    FileSystemDatabase.h_path
      (foldl (λ h d, FileSystemDatabase.write d h) h chunks)
      = FileSystemDatabase.h_path h ∧
    FileSystemDatabase.h_pending
      (foldl (λ h d, FileSystemDatabase.write d h) h chunks)
      = foldl append (FileSystemDatabase.h_pending h) chunks).
  { induction chunks as [|d chunks IH]; intros h; [done|].
    cbn [foldl]. destruct (IH (FileSystemDatabase.write d h)) as [-> ->].
    done. }
  destruct (Hh {| FileSystemDatabase.h_path := key;
                  FileSystemDatabase.h_pending := "" |}) as [Hp Hb].
  unfold FileSystemDatabase.contains, FileSystemDatabase.read_stream,
    FileSystemDatabase.close.
  rewrite Hp, Hb. cbn [FileSystemDatabase.files FileSystemDatabase.h_path
    FileSystemDatabase.h_pending].
  rewrite !lookup_insert_eq.
  split; [by apply bool_decide_eq_true_2|].
  split; [by apply bool_decide_eq_true_2|done].
Qed.




End DatabaseFacts.

(** ** Exceptions in the scheduler (extractor.py) *)

Section SchedulerExceptions.
Import Extractor.
Local Open Scope monad_scope.

(** No event of the list reports an exception that escapes. *)
Definition quiet (l : list Event) : Prop :=
  ∀ ev e, ev ∈ l → ¬ escapes ev e.

(** What a piece of the scheduler adds to the trace is quiet, or it is
    quiet up to a last event reporting the exception that the piece
    raises. *)
Definition aborts_on {A} (st : State) (r : outcome A) : Prop :=
  ∃ l, trace (out_state r) = trace st ++ l ∧
       (quiet l ∨
        ∃ l0 ev e, l = l0 ++ [ev] ∧ quiet l0 ∧ escapes ev e ∧
                   r = Raised e (out_state r)).

Lemma quiet_nil : quiet [].
Proof. intros ev e Hin. by apply elem_of_nil in Hin. Qed.

Lemma quiet_app l1 l2 : quiet l1 → quiet l2 → quiet (l1 ++ l2).
Proof.
  intros H1 H2 ev e [Hin|Hin]%elem_of_app; [by apply H1|by apply H2].
Qed.

Lemma quiet_Invoked n f d p : quiet [Invoked n f d p].
Proof.
  intros ev e Hin. apply list_elem_of_singleton in Hin as ->. by intros [].
Qed.

Lemma quiet_TypeError n : quiet [SubscriberRaised n TypeError].
Proof.
  intros ev e Hin. apply list_elem_of_singleton in Hin as ->.
  cbn. intros [<- H]. done.
Qed.

Lemma aborts_silent {A} (st : State) (r : outcome A) :
  trace (out_state r) = trace st → aborts_on st r.
Proof.
  intros Ht. exists []. rewrite app_nil_r. split; [done|]. left.
  apply quiet_nil.
Qed.

Lemma aborts_Done_quiet {A} (st st' : State) (a : A) :
  aborts_on st (Done a st') →
  ∃ l, trace st' = trace st ++ l ∧ quiet l.
Proof.
  intros (l & Ht & [Hq|(l0 & ev & e & _ & _ & _ & [=])]). by exists l.
Qed.

Lemma aborts_bind {A B} (m : M A) (k : A → M B) (st : State) :
  aborts_on st (m st) →
  (∀ a st', m st = Done a st' → aborts_on st' (k a st')) →
  aborts_on st (bind m k st).
Proof.
  intros Hm Hk. unfold bind.
  destruct (m st) as [a st1|e st1|st1] eqn:E.
  - apply aborts_Done_quiet in Hm as (l1 & Ht1 & Hq1).
    destruct (Hk a st1 eq_refl) as (l2 & Ht2 & H2).
    exists (l1 ++ l2). rewrite Ht2, Ht1, app_assoc. split; [done|].
    destruct H2 as [Hq2|(l0 & ev & e & -> & Hq0 & Hesc & Hr)].
    + left. by apply quiet_app.
    + right. exists (l1 ++ l0), ev, e. rewrite app_assoc.
      split; [done|]. split; [by apply quiet_app|done].
  - destruct Hm as (l & Ht & H). exists l. split; [done|].
    destruct H as [Hq|(l0 & ev & e' & -> & Hq0 & Hesc & [= ->])];
      [by left|].
    right. by exists l0, ev, e'.
  - destruct Hm as (l & Ht & H). exists l. split; [done|].
    destruct H as [Hq|(l0 & ev & e' & -> & Hq0 & Hesc & [=])]. by left.
Qed.

(** The node methods write nothing to the trace. *)
Lemma process_silent self data p st :
  trace (out_state (process self data p st)) = trace st.
Proof. apply (process_frame (same_on trace)). Qed.

Lemma _finish_silent self p st :
  trace (out_state (_finish self p st)) = trace st.
Proof. apply (_finish_frame (same_on trace)). Qed.

Lemma next_silent self g st :
  trace (out_state (next self g st)) = trace st.
Proof. apply (next_frame (same_on trace)). Qed.

(** A method called on a subscriber: a [TypeError] is caught, any other
    exception is reported and raised. *)
Lemma deliver_aborts subscriber env st :
  aborts_on st (deliver subscriber env st).
Proof.
  unfold deliver. apply aborts_bind.
  { exists [Invoked subscriber (env_fname env) (env_data env)
                    (Some (env_key env))].
    split; [done|]. left. apply quiet_Invoked. }
  intros [] st1 _. unfold try_except.
  destruct (env_fname env).
  - unfold observe.
    pose proof (process_silent subscriber (env_data env)
                  (Some (env_key env)) st1) as Ht.
    destruct (process subscriber (env_data env) (Some (env_key env)) st1)
      as [[] st2|e st2|st2]; cbn [out_state] in Ht.
    + by apply aborts_silent.
    + destruct (decide (e = TypeError)) as [->|Hne].
      * exists [SubscriberRaised subscriber TypeError].
        cbn [out_state ret trace]. rewrite Ht. split; [done|]. left.
        apply quiet_TypeError.
      * exists [SubscriberRaised subscriber e].
        cbn [out_state trace]. rewrite Ht. split; [done|]. right.
        exists [], (SubscriberRaised subscriber e), e.
        split; [done|]. split; [apply quiet_nil|]. by split.
    + by apply aborts_silent.
  - unfold bind at 1, observe.
    pose proof (_finish_silent subscriber (Some (env_key env)) st1) as Ht.
    destruct (_finish subscriber (Some (env_key env)) st1)
      as [[] st2|e st2|st2]; cbn [out_state] in Ht.
    + unfold raise. rewrite decide_True by done. by apply aborts_silent.
    + destruct (decide (e = TypeError)) as [->|Hne].
      * exists [SubscriberRaised subscriber TypeError].
        cbn [out_state ret trace]. rewrite Ht. split; [done|]. left.
        apply quiet_TypeError.
      * exists [SubscriberRaised subscriber e].
        cbn [out_state trace]. rewrite Ht. split; [done|]. right.
        exists [], (SubscriberRaised subscriber e), e.
        split; [done|]. split; [apply quiet_nil|]. by split.
    + by apply aborts_silent.
Qed.

Lemma try_except_catches {A} (m h : M A) (exc : exn) (st st' : State) :
  (∀ s s', h s ≠ Raised exc s') →
  try_except m exc h st ≠ Raised exc st'.
Proof.
  intros Hh. unfold try_except. destruct (m st) as [a s|e s|s]; [done| |done].
  destruct (decide (e = exc)) as [->|Hne]; [apply Hh|congruence].
Qed.

Lemma deliver_never_raises_TypeError subscriber env st st' :
  deliver subscriber env st ≠ Raised TypeError st'.
Proof.
  unfold deliver, bind at 1, record, modify.
  by apply try_except_catches.
Qed.

Lemma deliver_all_aborts subscribers env st :
  aborts_on st (deliver_all subscribers env st).
Proof.
  revert st. induction subscribers as [|s subscribers IH]; intros st.
  - by apply aborts_silent.
  - cbn [deliver_all]. apply aborts_bind; [apply deliver_aborts|].
    intros [] st' _. apply IH.
Qed.

Lemma drain_aborts fuel subs st : aborts_on st (drain fuel subs st).
Proof.
  revert st. induction fuel as [|fuel IH]; intros st.
  - by apply aborts_silent.
  - cbn [drain]. apply aborts_bind; [by apply aborts_silent|].
    intros s st' [-> ->]%get_Done.
    destruct (pop (queue st)) as [[env rest]|]; [|by apply aborts_silent].
    apply aborts_bind; [by apply aborts_silent|]. intros [] st1 _.
    apply aborts_bind; [apply deliver_all_aborts|]. intros [] st2 _.
    apply IH.
Qed.

(** The generator of a root node: whatever it raises is reported and
    raised. *)
Lemma observe_root_aborts n g st :
  aborts_on st (observe (RootRaised n) (next n g) st).
Proof.
  unfold observe. pose proof (next_silent n g st) as Ht.
  destruct (next n g st) as [s st1|e st1|st1]; cbn [out_state] in Ht.
  - by apply aborts_silent.
  - exists [RootRaised n e]. cbn [out_state trace]. rewrite Ht.
    split; [done|]. right. exists [], (RootRaised n e), e.
    split; [done|]. split; [apply quiet_nil|]. by split.
  - by apply aborts_silent.
Qed.

Lemma advance_aborts gens st : aborts_on st (advance gens st).
Proof.
  revert st. induction gens as [|[n g] gens IH]; intros st.
  - by apply aborts_silent.
  - assert (Hstep :
      aborts_on st
        ((s <- observe (RootRaised n) (next n g) ;;
          r <- advance gens ;;
          match s with
          | Yield g' => ret ((n, g') :: r.1, true)
          | StopIteration => ret ((n, GExhausted) :: r.1, r.2)
          end) st)).
    { apply aborts_bind; [apply observe_root_aborts|]. intros s st1 _.
      apply aborts_bind; [apply IH|]. intros r st2 _.
      destruct s; by apply aborts_silent. }
    destruct g; exact Hstep.
Qed.

Lemma rounds_aborts fuel subs gens st :
  aborts_on st (rounds fuel subs gens st).
Proof.
  revert gens st. induction fuel as [|fuel IH]; intros gens st.
  - by apply aborts_silent.
  - cbn [rounds]. apply aborts_bind; [apply advance_aborts|].
    intros r st1 _. destruct r.2; [|by apply aborts_silent].
    apply aborts_bind; [apply drain_aborts|]. intros [] st2 _. apply IH.
Qed.

Lemma start_generators_aborts kwargs rs st :
  aborts_on st (start_generators kwargs rs st).
Proof.
  revert st. induction rs as [|[k n] rs IH]; intros st.
  - by apply aborts_silent.
  - cbn [start_generators]. destruct (kwargs !! k) as [v|]; [|apply IH].
    apply aborts_bind.
    { exists [Invoked n f_process (Some v) None]. split; [done|]. left.
      apply quiet_Invoked. }
    intros [] st1 _. apply aborts_bind; [apply IH|]. intros gens st2 _.
    by apply aborts_silent.
Qed.

Lemma Graph_process_aborts fuel kwargs st :
  aborts_on st (Graph_process fuel kwargs st).
Proof.
  unfold Graph_process. apply aborts_bind; [by apply aborts_silent|].
  intros s st' [-> ->]%get_Done.
  destruct (decide _); [by apply aborts_silent|].
  apply aborts_bind; [by apply aborts_silent|]. intros [] st1 _.
  apply aborts_bind; [apply start_generators_aborts|]. intros gens st2 _.
  apply rounds_aborts.
Qed.




End SchedulerExceptions.

(** ** Dead-node pruning (extractor.py) *)

Section Pruning.
Import Extractor.
Local Open Scope monad_scope.

Implicit Types (m : gmap node_id (string * bool)) (st : State).

Lemma graph_get_elem_of k n (g : list (string * node_id)) :
  graph_get k g = Some n → (k, n) ∈ g.
Proof.
  induction g as [|[k' n'] g IH]; [done|]. cbn [graph_get].
  destruct (decide (k' = k)) as [->|Hne].
  - intros [= ->]. by left.
  - intros H. right. by apply IH.
Qed.

Lemma graph_remove_elem_of k k' n (g : list (string * node_id)) :
  (k', n) ∈ graph_remove k g ↔ (k', n) ∈ g ∧ k' ≠ k.
Proof. unfold graph_remove. rewrite list_elem_of_filter. naive_solver. Qed.

Lemma build_mapping_spec g features acc m n f :
  build_mapping g features acc = Ok m →
  m !! n = Some f →
  acc !! n = Some f ∨ graph_get f.1 g = Some n.
Proof.
  revert acc. induction features as [|f' features IH]; intros acc.
  - intros [= ->]. by left.
  - cbn [build_mapping]. destruct (graph_get f'.1 g) as [n'|] eqn:E; [|done].
    intros Hm Hn. destruct (IH _ Hm Hn) as [Hacc|Hg]; [|by right].
    destruct (decide (n' = n)) as [->|Hne].
    + rewrite lookup_insert_eq in Hacc. injection Hacc as <-. by right.
    + rewrite lookup_insert_ne in Hacc by done. by left.
Qed.

(** What [remove_listener], [disconnect] and [del] do to the graph and
    to the nodes they do not name. *)
Lemma remove_listener_Done self e st st' :
  remove_listener self e st = Done tt st' →
  graph st' = graph st ∧ trace st' = trace st ∧
  ∃ up l, heap st !! e = Some up ∧
          list_remove self (_listeners up) = Some l ∧
          heap st' = <[e := set_listeners l up]> (heap st).
Proof.
  unfold remove_listener. intros (up & st1 & Hget & H)%bind_Done.
  apply get_node_Done in Hget as [-> Hup].
  destruct (list_remove self (_listeners up)) as [l|] eqn:El; [|done].
  apply modify_Done in H as ->. split; [done|]. split; [done|].
  exists up, l. split; [done|]. split; [done|].
  cbn [set_heap heap]. apply map_eq. intros i.
  destruct (decide (e = i)) as [->|Hne].
  - by rewrite lookup_alter_eq, lookup_insert_eq, Hup.
  - by rewrite lookup_alter_ne, lookup_insert_ne.
Qed.

Lemma disconnect_from_Done self needs st st' :
  disconnect_from self needs st = Done tt st' →
  graph st' = graph st ∧ trace st' = trace st ∧
  ∀ n, n ∉ needs → heap st' !! n = heap st !! n.
Proof.
  revert st. induction needs as [|e needs IH]; intros st.
  - intros [= <-]. done.
  - cbn [disconnect_from]. intros ([] & st1 & Hrem & Hrest)%bind_Done.
    apply remove_listener_Done in Hrem as (Hg & Ht & up & l & Hup & Hl & Hh).
    apply IH in Hrest as (Hg' & Ht' & Hh').
    split; [congruence|]. split; [congruence|].
    intros n Hn. apply not_elem_of_cons in Hn as [Hne Hn].
    rewrite Hh' by done. rewrite Hh. by rewrite lookup_insert_ne.
Qed.

Lemma graph_del_Done k st st' :
  graph_del k st = Done tt st' →
  heap st' = heap st ∧ trace st' = trace st ∧
  graph st' = graph_remove k (graph st).
Proof.
  unfold graph_del. intros (s & st1 & [-> ->]%get_Done & H)%bind_Done.
  destruct (graph_get k (graph st)); [|done].
  by apply modify_Done in H as ->.
Qed.

(** The invariant of the loop: every node of the graph that is a leaf
    and backs an unstored feature waits in the deque, and a node that
    backs a feature is registered under the key of that feature. *)
Definition pending m (nodes : list node_id) st : Prop :=
  (∀ n k, n ∈ (graph st).*2 → m !! n = Some (k, false) →
          node_has is_leaf st n = true → n ∈ nodes) ∧
  (∀ k n f, (k, n) ∈ graph st → m !! n = Some f → k = f.1).

Lemma extendleft_elem_of {A} (x : A) (xs q : list A) :
  x ∈ extendleft xs q ↔ x ∈ xs ∨ x ∈ q.
Proof.
  rewrite extendleft_rev, elem_of_app, !list_elem_of_In, <- in_rev. done.
Qed.

Lemma elem_of_graph_values n (g : list (string * node_id)) :
  n ∈ g.*2 ↔ ∃ k, (k, n) ∈ g.
Proof.
  rewrite list_elem_of_fmap. split.
  - intros ([k n'] & -> & H). by exists k.
  - intros (k & H). by exists (k, n).
Qed.

Lemma pending_step_keep m nodes nodes' x node st :
  heap st !! x = Some node →
  nodes = nodes' ++ [x] →
  (∀ k, m !! x = Some (k, false) → is_leaf node = false) →
  pending m nodes st →
  pending m (extendleft (_needs node) nodes') st.
Proof.
  intros Hx -> Hkeep [Hp HJ]. split; [|done].
  intros n k Hn Hm Hleaf. apply extendleft_elem_of. right.
  specialize (Hp n k Hn Hm Hleaf).
  apply elem_of_app in Hp as [Hp|Hp]; [done|].
  apply list_elem_of_singleton in Hp as ->.
  unfold node_has in Hleaf. rewrite Hx in Hleaf.
  by rewrite (Hkeep k Hm) in Hleaf.
Qed.

Lemma pending_step_remove m nodes nodes' x node key st st1 st2 :
  heap st !! x = Some node →
  nodes = nodes' ++ [x] →
  m !! x = Some (key, false) →
  disconnect_from x (_needs node) st = Done tt st1 →
  graph_del key st1 = Done tt st2 →
  pending m nodes st →
  pending m (extendleft (_needs node) nodes') st2.
Proof.
  intros Hx -> Hmx Hdis Hdel [Hp HJ].
  apply disconnect_from_Done in Hdis as (Hg1 & _ & Hh1).
  apply graph_del_Done in Hdel as (Hh2 & _ & Hg2).
  rewrite Hg1 in Hg2.
  split.
  - intros n k Hn Hm Hleaf. apply extendleft_elem_of.
    destruct (decide (n ∈ _needs node)) as [Hin|Hnin]; [by left|right].
    apply elem_of_graph_values in Hn as [k' Hn].
    rewrite Hg2 in Hn. apply graph_remove_elem_of in Hn as [Hn Hk'].
    assert (n ≠ x) as Hne.
    { intros ->. apply Hk'. by apply (HJ k' x (key, false)). }
    assert (Hleaf' : node_has is_leaf st n = true).
    { unfold node_has in *. by rewrite Hh2, Hh1 in Hleaf. }
    assert (Hn' : n ∈ (graph st).*2)
      by (apply elem_of_graph_values; eauto).
    specialize (Hp n k Hn' Hm Hleaf').
    apply elem_of_app in Hp as [Hp|Hp]; [done|].
    by apply list_elem_of_singleton in Hp.
  - intros k n f Hn Hm. rewrite Hg2 in Hn.
    apply graph_remove_elem_of in Hn as [Hn _]. by apply (HJ k n f).
Qed.

Lemma disconnect_Done x node st st' :
  heap st !! x = Some node →
  disconnect x st = Done tt st' →
  disconnect_from x (_needs node) st = Done tt st'.
Proof.
  intros Hx. unfold disconnect. intros (n & st1 & Hget & H)%bind_Done.
  apply get_node_Done in Hget as [-> Hn]. congruence.
Qed.

Lemma remove_dead_loop_pending fuel m nodes st st' :
  pending m nodes st →
  remove_dead_loop fuel m nodes st = Done tt st' →
  pending m [] st'.
Proof.
  revert nodes st. induction fuel as [|fuel IH]; intros nodes st Hp; [done|].
  cbn [remove_dead_loop].
  destruct (pop nodes) as [[x nodes']|] eqn:Epop.
  2:{ intros [= <-]. apply pop_None in Epop. by subst. }
  apply pop_Some in Epop.
  intros (node & st1 & Hget & Hrest)%bind_Done.
  apply get_node_Done in Hget as [-> Hx].
  destruct (m !! x) as [[key stored]|] eqn:Hm.
  2:{ eapply IH; [|exact Hrest].
      eapply pending_step_keep; [done..| |done]. intros k Hk. congruence. }
  cbn [fst snd] in Hrest.
  apply bind_Done in Hrest as ([] & st2 & Hcond & Hrest).
  destruct (is_leaf node && negb stored) eqn:Hc.
  - apply andb_true_iff in Hc as [Hleaf Hs].
    apply negb_true_iff in Hs as ->.
    apply bind_Done in Hcond as ([] & st1 & Hdis & Hdel).
    apply (disconnect_Done x node) in Hdis; [|done].
    eapply IH; [|exact Hrest].
    by eapply pending_step_remove.
  - injection Hcond as <-. eapply IH; [|exact Hrest].
    eapply pending_step_keep; [done..| |done].
    intros k Hk. assert (stored = false) as -> by congruence.
    by rewrite andb_true_r in Hc.
Qed.

Lemma leaves_pending m st :
  NoDup (graph st).*2 →
  (∀ n f, m !! n = Some f → graph_get f.1 (graph st) = Some n) →
  pending m (leaves st).*2 st.
Proof.
  intros Hnd Hm. split.
  - intros n k Hn _ Hleaf. apply elem_of_graph_values in Hn as [k' Hn].
    apply elem_of_graph_values. exists k'. unfold leaves.
    apply list_elem_of_filter. done.
  - intros k n f Hn Hf. apply Hm, graph_get_elem_of in Hf.
    apply list_elem_of_lookup in Hn as [i Hi], Hf as [j Hj].
    assert (i = j) as ->.
    { eapply NoDup_lookup; [exact Hnd|..];
        rewrite list_lookup_fmap; [by rewrite Hi|by rewrite Hj]. }
    congruence.
Qed.

End Pruning.

(** *** Listeners under pruning *)

Section Listeners.
Import Extractor.
Local Open Scope monad_scope.

Lemma occ_cons x y l :
  occ x (y :: l) = ((if decide (y = x) then 1 else 0) + occ x l)%nat.
Proof. unfold occ. rewrite filter_cons. by destruct (decide (y = x)). Qed.

Lemma occ_pos x l : (0 < occ x l)%nat ↔ x ∈ l.
Proof.
  induction l as [|y l IH].
  - cbn. split; [lia|by intros ?%elem_of_nil].
  - rewrite occ_cons, elem_of_cons. destruct (decide (y = x)) as [->|Hne].
    + split; [auto|lia].
    + rewrite <- IH. cbn. split; [auto|]. intros [?|?]; [congruence|done].
Qed.

Lemma occ_zero x l : occ x l = 0%nat ↔ x ∉ l.
Proof. rewrite <- occ_pos. lia. Qed.

Lemma list_remove_occ x l l' :
  list_remove x l = Some l' →
  occ x l = S (occ x l') ∧ ∀ y, y ≠ x → occ y l' = occ y l.
Proof.
  revert l'. induction l as [|z l IH]; intros l'; [done|].
  cbn [list_remove]. destruct (decide (z = x)) as [->|Hne].
  - intros [= <-]. rewrite occ_cons, decide_True by done. split; [done|].
    intros y Hy. by rewrite occ_cons, decide_False.
  - destruct (list_remove x l) as [r|]; [|done]. intros [= <-].
    destruct (IH r eq_refl) as [Hx Hy]. rewrite !occ_cons.
    rewrite decide_False by done. split; [cbn; lia|].
    intros y Hne'. by rewrite !occ_cons, Hy.
Qed.

(** What [disconnect] does to every node: the disconnected node is taken
    off the listeners once per occurrence in the needs, and nothing else
    changes. *)
Definition unlistened (x : node_id) (needs : list node_id) (st st' : State)
  : Prop :=
  graph st' = graph st ∧ trace st' = trace st ∧
  next_node st' = next_node st ∧
  ∀ e,
    match heap st !! e with
    | None => heap st' !! e = None
    | Some up =>
        ∃ up', heap st' !! e = Some up' ∧
               _needs up' = _needs up ∧
               (∀ y, y ≠ x → occ y (_listeners up') = occ y (_listeners up)) ∧
               (occ x (_listeners up') + occ e needs)%nat
                 = occ x (_listeners up)
    end.

Lemma disconnect_from_unlistened x needs st st' :
  disconnect_from x needs st = Done tt st' → unlistened x needs st st'.
Proof.
  revert st. induction needs as [|e0 needs IH]; intros st.
  - intros [= <-]. repeat split; try done. intros e.
    destruct (heap st !! e) as [up|]; [|done].
    exists up. split; [done|]. split; [done|]. split; [done|]. cbn. lia.
  - cbn [disconnect_from]. intros ([] & st1 & Hrem & Hrest)%bind_Done.
    unfold remove_listener in Hrem.
    apply bind_Done in Hrem as (up0 & st0 & Hget & Hrem).
    apply get_node_Done in Hget as [-> Hup0].
    destruct (list_remove x (_listeners up0)) as [l|] eqn:El; [|done].
    apply modify_Done in Hrem as ->.
    apply list_remove_occ in El as [Hx Hy].
    apply IH in Hrest as (Hg & Ht & Hn & Hh).
    split; [done|]. split; [done|]. split; [done|].
    intros e. specialize (Hh e). cbn [set_heap heap] in Hh.
    destruct (decide (e0 = e)) as [->|Hne].
    + rewrite lookup_alter_eq, Hup0 in Hh.
      cbn [fmap option_fmap option_map set_listeners _listeners _needs]
        in Hh.
      rewrite Hup0.
      destruct Hh as (up' & Hup' & Hneeds & Hoth & Hocc).
      exists up'. split; [done|]. split; [done|]. split.
      * intros y Hne. rewrite Hoth by done. by apply Hy.
      * rewrite occ_cons, decide_True by done. lia.
    + rewrite lookup_alter_ne in Hh by done.
      destruct (heap st !! e) as [up|]; [|done].
      destruct Hh as (up' & Hup' & Hneeds & Hoth & Hocc).
      exists up'. split; [done|]. split; [done|]. split; [done|].
      by rewrite occ_cons, decide_False.
Qed.

End Listeners.

(** *** Nodes without a stored dependent are pruned *)

Section Doomed.
Import Extractor.
Local Open Scope monad_scope.

Implicit Types (m : gmap node_id (string * bool)) (st : State).

(** What [well_formed] checks. *)
Lemma well_formed_spec st :
  well_formed st = true →
  NoDup (graph st).*1 ∧ NoDup (graph st).*2 ∧
  (∀ n, n ∈ (graph st).*2 →
        (n < next_node st)%nat ∧ is_Some (heap st !! n)) ∧
  (∀ e up y, heap st !! e = Some up → y ∈ _listeners up →
     (e < y)%nat ∧ y ∈ (graph st).*2 ∧
     ∃ ny, heap st !! y = Some ny ∧
           (occ y (_listeners up) ≤ occ e (_needs ny))%nat).
Proof.
  unfold well_formed. rewrite !andb_true_iff, !bool_decide_eq_true.
  intros [[[Hk Hv] Hg] Hl]. split; [done|]. split; [done|]. split.
  - intros n Hn. rewrite forallb_forall in Hg.
    apply list_elem_of_In, Hg in Hn.
    by rewrite andb_true_iff, !bool_decide_eq_true in Hn.
  - intros e up y He Hy. rewrite forallb_forall in Hl.
    specialize (Hl (e, up)). cbn [fst snd] in Hl.
    rewrite forallb_forall in Hl.
    assert (Hok : listener_ok st e up y = true).
    { apply Hl; [|by apply list_elem_of_In].
      by apply list_elem_of_In, elem_of_map_to_list. }
    unfold listener_ok in Hok.
    rewrite !andb_true_iff, !bool_decide_eq_true in Hok.
    destruct Hok as [[Hlt Hin] Hocc]. split; [exact Hlt|].
    split; [exact Hin|].
    destruct (heap st !! y) as [ny|]; [|done].
    exists ny. split; [done|]. by apply bool_decide_eq_true in Hocc.
Qed.

Lemma NoDup_fst_inj (g : list (string * node_id)) k n n' :
  NoDup g.*1 → (k, n) ∈ g → (k, n') ∈ g → n = n'.
Proof.
  intros Hnd [i Hi]%list_elem_of_lookup [j Hj]%list_elem_of_lookup.
  assert (i = j) as ->; [|congruence].
  eapply NoDup_lookup; [exact Hnd|..];
    rewrite list_lookup_fmap; [by rewrite Hi|by rewrite Hj].
Qed.

(** The part of well-formedness that pruning keeps, relative to the
    graph [st0] it started from. *)
Definition sound (st0 st : State) : Prop :=
  (∀ kn, kn ∈ graph st → kn ∈ graph st0) ∧
  (∀ e up y, heap st !! e = Some up → y ∈ _listeners up →
     y ∈ (graph st).*2 ∧
     ∃ ny, heap st !! y = Some ny ∧
           (occ y (_listeners up) ≤ occ e (_needs ny))%nat) ∧
  (∀ e up0, heap st0 !! e = Some up0 →
     ∃ up, heap st !! e = Some up ∧ _needs up = _needs up0 ∧
           ∀ y, y ∈ _listeners up → y ∈ _listeners up0).

Lemma sound_refl st : well_formed st = true → sound st st.
Proof.
  intros (_ & _ & _ & Hl)%well_formed_spec. split; [done|]. split.
  - intros e up y He Hy. by destruct (Hl e up y He Hy) as (_ & ? & ?).
  - intros e up0 He. by exists up0.
Qed.

Lemma sound_remove st0 st st1 st2 x node key :
  NoDup (graph st0).*1 →
  (key, x) ∈ graph st0 →
  heap st !! x = Some node →
  disconnect_from x (_needs node) st = Done tt st1 →
  graph_del key st1 = Done tt st2 →
  sound st0 st → sound st0 st2.
Proof.
  intros Hnd Hkx Hx Hdis Hdel (HG & HK & HS).
  apply disconnect_from_unlistened in Hdis as (Hg1 & _ & _ & Hh1).
  apply graph_del_Done in Hdel as (Hh2 & _ & Hg2). rewrite Hg1 in Hg2.
  assert (Hgone : ∀ e up up1, heap st !! e = Some up →
            heap st1 !! e = Some up1 → x ∉ _listeners up1).
  { intros e up up1 He He1. specialize (Hh1 e). rewrite He in Hh1.
    destruct Hh1 as (up' & Hup' & _ & _ & Hocc).
    assert (up' = up1) as -> by congruence.
    apply occ_zero. destruct (decide (x ∈ _listeners up)) as [Hin|Hnin].
    - destruct (HK e up x He Hin) as (_ & ny & Hny & Hle).
      assert (ny = node) as -> by congruence. lia.
    - apply occ_zero in Hnin. lia. }
  split; [|split].
  - intros kn Hkn. rewrite Hg2 in Hkn. destruct kn as [k n].
    apply graph_remove_elem_of in Hkn as [Hkn _]. by apply HG.
  - intros e up1 y He1 Hy. rewrite Hh2 in He1.
    pose proof (Hh1 e) as He.
    destruct (heap st !! e) as [up|] eqn:Hup; [|congruence].
    destruct He as (up' & Hup' & Hneeds & Hoth & Hocc).
    assert (up' = up1) as -> by congruence.
    assert (y ≠ x) as Hne.
    { intros ->. by apply (Hgone e up up1). }
    assert (Hyup : y ∈ _listeners up).
    { apply occ_pos. rewrite <- Hoth by done. by apply occ_pos. }
    destruct (HK e up y Hup Hyup) as (Hyg & ny & Hny & Hle).
    split.
    + apply elem_of_graph_values in Hyg as [k Hk].
      apply elem_of_graph_values. exists k. rewrite Hg2.
      apply graph_remove_elem_of. split; [done|]. intros ->.
      apply Hne. eapply NoDup_fst_inj; [exact Hnd|by apply HG|done].
    + pose proof (Hh1 y) as Hy1. rewrite Hny in Hy1.
      destruct Hy1 as (ny' & Hny' & Hneeds' & _).
      exists ny'. rewrite Hh2. split; [done|].
      rewrite Hneeds', Hoth by done. done.
  - intros e up0 He0. destruct (HS e up0 He0) as (up & Hup & Hneeds & Hsub).
    pose proof (Hh1 e) as He. rewrite Hup in He.
    destruct He as (up' & Hup' & Hneeds' & Hoth & Hocc).
    exists up'. rewrite Hh2. split; [done|]. split; [congruence|].
    intros y Hy. apply Hsub. apply occ_pos.
    destruct (decide (y = x)) as [->|Hne].
    + apply occ_pos in Hy. lia.
    + rewrite <- Hoth by done. by apply occ_pos.
Qed.

Lemma remove_dead_loop_sound fuel m nodes st0 st st' :
  NoDup (graph st0).*1 →
  (∀ n f, m !! n = Some f → (f.1, n) ∈ graph st0) →
  sound st0 st →
  remove_dead_loop fuel m nodes st = Done tt st' →
  sound st0 st'.
Proof.
  intros Hnd Hm. revert nodes st.
  induction fuel as [|fuel IH]; intros nodes st Hs; [done|].
  cbn [remove_dead_loop].
  destruct (pop nodes) as [[x nodes']|] eqn:Epop; [|by intros [= <-]].
  intros (node & st1 & Hget & Hrest)%bind_Done.
  apply get_node_Done in Hget as [-> Hx].
  destruct (m !! x) as [[key stored]|] eqn:Hmx; [|by eapply IH].
  cbn [fst snd] in Hrest.
  apply bind_Done in Hrest as ([] & st2 & Hcond & Hrest).
  destruct (is_leaf node && negb stored) eqn:Hc.
  - apply bind_Done in Hcond as ([] & st1 & Hdis & Hdel).
    apply (disconnect_Done x node) in Hdis; [|done].
    eapply IH; [|exact Hrest].
    eapply sound_remove; [exact Hnd| |exact Hx|exact Hdis|exact Hdel|done].
    by apply (Hm x (key, stored)).
  - injection Hcond as <-. by eapply IH.
Qed.

(** A node without a stored dependent does not survive: otherwise it
    would have a surviving listener, which has no stored dependent
    either, and so on along nodes that were created later and later. *)
Lemma doomed_pruned m st0 st' :
  well_formed st0 = true →
  pending m [] st' →
  sound st0 st' →
  ∀ n, doomed st0 m n → n ∉ (graph st').*2.
Proof.
  intros Hwf [Hpend _] (HG & HK & HS).
  pose proof (well_formed_spec st0 Hwf) as (_ & _ & Hheap & Hlist).
  assert (Hind : ∀ d n, (next_node st0 - n ≤ d)%nat →
            doomed st0 m n → n ∉ (graph st').*2).
  { induction d as [|d IH]; intros n Hd Hdoom Hn.
    - apply elem_of_graph_values in Hn as [k Hn].
      assert (n ∈ (graph st0).*2) as Hn0
        by (apply elem_of_graph_values; exists k; by apply HG).
      apply Hheap in Hn0 as [Hlt _]. lia.
    - assert (n ∈ (graph st0).*2) as Hn0.
      { apply elem_of_graph_values in Hn as [k Hn].
        apply elem_of_graph_values. exists k. by apply HG. }
      destruct (Hheap n Hn0) as [Hlt [up0 Hup0]].
      destruct (HS n up0 Hup0) as (up & Hup & _ & Hsub).
      destruct (Hdoom n (rtc_refl _ _)) as [k Hk].
      destruct (_listeners up) as [|y l] eqn:El.
      { apply (elem_of_nil n). apply (Hpend n k Hn Hk).
        unfold node_has, is_leaf. rewrite Hup, El.
        by apply bool_decide_eq_true. }
      assert (Hy : y ∈ _listeners up) by (rewrite El; by left).
      destruct (HK n up y Hup Hy) as (Hyg & _).
      assert (Hy0 : y ∈ _listeners up0) by (apply Hsub; by left).
      destruct (Hlist n up0 y Hup0 Hy0) as (Hny & _).
      apply (IH y); [lia| |done].
      intros z Hz. apply Hdoom. eapply rtc_l; [|exact Hz]. by exists up0. }
  intros n. by apply (Hind (next_node st0 - n)%nat).
Qed.

End Doomed.

(** *** Only nodes of the graph are invoked *)

Section InvokedNodes.
Import Extractor.
Local Open Scope monad_scope.

Context (S : node_id → Prop).

(** The calls of a piece of trace are calls of nodes in [S]. *)
Definition calls_within (l : list Event) : Prop :=
  ∀ n, invoked n l → S n.

Definition adds_calls_within {A} (st : State) (r : outcome A) : Prop :=
  ∃ l, trace (out_state r) = trace st ++ l ∧ calls_within l.

Lemma calls_within_nil : calls_within [].
Proof. intros n (f & d & p & H). by apply elem_of_nil in H. Qed.

Lemma calls_within_app l1 l2 :
  calls_within l1 → calls_within l2 → calls_within (l1 ++ l2).
Proof.
  intros H1 H2 n (f & d & p & [H|H]%elem_of_app);
    [apply H1|apply H2]; by exists f, d, p.
Qed.

Lemma calls_within_Invoked n f d p : S n → calls_within [Invoked n f d p].
Proof.
  intros Hn n' (f' & d' & p' & H). apply list_elem_of_singleton in H.
  by injection H as -> _ _ _.
Qed.

Lemma calls_within_raised ev :
  (∀ n f d p, ev ≠ Invoked n f d p) → calls_within [ev].
Proof.
  intros Hev n (f & d & p & H). apply list_elem_of_singleton in H.
  by destruct (Hev n f d p).
Qed.

Lemma adds_silent {A} (st : State) (r : outcome A) :
  trace (out_state r) = trace st → adds_calls_within st r.
Proof.
  intros Ht. exists []. rewrite app_nil_r. split; [done|].
  apply calls_within_nil.
Qed.

Lemma adds_bind {A B} (m : M A) (k : A → M B) (st : State) :
  adds_calls_within st (m st) →
  (∀ a st', m st = Done a st' → adds_calls_within st' (k a st')) →
  adds_calls_within st (bind m k st).
Proof.
  intros (l1 & Ht1 & H1) Hk. unfold bind.
  destruct (m st) as [a st1|e st1|st1] eqn:E; cbn [out_state] in Ht1;
    [|by exists l1..].
  destruct (Hk a st1 eq_refl) as (l2 & Ht2 & H2).
  exists (l1 ++ l2). rewrite Ht2, Ht1, app_assoc. split; [done|].
  by apply calls_within_app.
Qed.

Lemma observed_adds {A} (ev : exn → Event) (m : M A) (st : State) :
  (∀ e n f d p, ev e ≠ Invoked n f d p) →
  trace (out_state (m st)) = trace st →
  adds_calls_within st (observe ev m st).
Proof.
  intros Hev Ht. unfold observe.
  destruct (m st) as [a st1|e st1|st1]; cbn [out_state] in Ht;
    [by apply adds_silent| |by apply adds_silent].
  exists [ev e]. cbn [out_state trace]. rewrite Ht. split; [done|].
  apply calls_within_raised. apply Hev.
Qed.

Lemma try_except_adds {A} (m h : M A) (exc : exn) (st : State) :
  adds_calls_within st (m st) →
  (∀ st', adds_calls_within st' (h st')) →
  adds_calls_within st (try_except m exc h st).
Proof.
  intros (l1 & Ht1 & H1) Hh. unfold try_except.
  destruct (m st) as [a st1|e st1|st1] eqn:E; cbn [out_state] in Ht1;
    [by exists l1| |by exists l1].
  destruct (decide (e = exc)); [|by exists l1].
  destruct (Hh st1) as (l2 & Ht2 & H2).
  exists (l1 ++ l2). rewrite Ht2, Ht1, app_assoc. split; [done|].
  by apply calls_within_app.
Qed.

Lemma deliver_adds subscriber env st :
  S subscriber → adds_calls_within st (deliver subscriber env st).
Proof.
  intros HS. unfold deliver. apply adds_bind.
  { eexists. split; [done|]. by apply calls_within_Invoked. }
  intros [] st1 _.
  apply try_except_adds; [|intros; by apply adds_silent].
  destruct (env_fname env).
  - apply observed_adds; [done|apply process_silent].
  - apply adds_bind; [|intros; by apply adds_silent].
    apply observed_adds; [done|apply _finish_silent].
Qed.

Lemma deliver_all_adds subscribers env st :
  Forall S subscribers →
  adds_calls_within st (deliver_all subscribers env st).
Proof.
  intros HS. revert st.
  induction HS as [|s subscribers Hs HS IH]; intros st.
  - by apply adds_silent.
  - cbn [deliver_all]. apply adds_bind; [by apply deliver_adds|].
    intros [] st' _. apply IH.
Qed.

Lemma drain_adds fuel subs st :
  (∀ key, Forall S (subs key)) →
  adds_calls_within st (drain fuel subs st).
Proof.
  intros Hsubs. revert st. induction fuel as [|fuel IH]; intros st.
  - by apply adds_silent.
  - cbn [drain]. apply adds_bind; [by apply adds_silent|].
    intros s st' [-> ->]%get_Done.
    destruct (pop (queue st)) as [[env rest]|]; [|by apply adds_silent].
    apply adds_bind; [by apply adds_silent|]. intros [] st1 _.
    apply adds_bind; [by apply deliver_all_adds|]. intros [] st2 _.
    apply IH.
Qed.

Lemma advance_adds gens st : adds_calls_within st (advance gens st).
Proof.
  revert st. induction gens as [|[n g] gens IH]; intros st.
  - by apply adds_silent.
  - assert (Hstep :
      adds_calls_within st
        ((s <- observe (RootRaised n) (next n g) ;;
          r <- advance gens ;;
          match s with
          | Yield g' => ret ((n, g') :: r.1, true)
          | StopIteration => ret ((n, GExhausted) :: r.1, r.2)
          end) st)).
    { apply adds_bind; [apply observed_adds; [done|apply next_silent]|].
      intros s st1 _. apply adds_bind; [apply IH|]. intros r st2 _.
      destruct s; by apply adds_silent. }
    destruct g; exact Hstep.
Qed.

Lemma rounds_adds fuel subs gens st :
  (∀ key, Forall S (subs key)) →
  adds_calls_within st (rounds fuel subs gens st).
Proof.
  intros Hsubs. revert gens st. induction fuel as [|fuel IH]; intros gens st.
  - by apply adds_silent.
  - cbn [rounds]. apply adds_bind; [apply advance_adds|].
    intros r st1 _. destruct r.2; [|by apply adds_silent].
    apply adds_bind; [by apply drain_adds|]. intros [] st2 _. apply IH.
Qed.

Lemma start_generators_adds kwargs rs st :
  Forall S rs.*2 →
  adds_calls_within st (start_generators kwargs rs st).
Proof.
  revert st. induction rs as [|[k n] rs IH]; intros st Hrs.
  - by apply adds_silent.
  - apply Forall_cons in Hrs as [Hn Hrs]. cbn [start_generators].
    destruct (kwargs !! k) as [v|]; [|by apply IH].
    apply adds_bind.
    { eexists. split; [done|]. by apply calls_within_Invoked. }
    intros [] st1 _. apply adds_bind; [by apply IH|]. intros gens st2 _.
    by apply adds_silent.
Qed.

Lemma subscriptions_in_graph st key :
  Forall (λ n, n ∈ (graph st).*2) (subscriptions st key).
Proof.
  apply Forall_forall. intros n Hn. unfold subscriptions in Hn.
  apply list_elem_of_In, in_flat_map in Hn as ([k s] & Hks & Hn).
  cbn [snd] in Hn. apply elem_of_graph_values.
  destruct (heap st !! s) as [node|]; [|done].
  apply in_flat_map in Hn as (u & _ & Hn).
  destruct (decide (u = key)); [|done].
  destruct Hn as [<-|[]]. exists k. by apply list_elem_of_In.
Qed.

Lemma Graph_process_adds fuel kwargs st :
  (∀ n, n ∈ (graph st).*2 → S n) →
  adds_calls_within st (Graph_process fuel kwargs st).
Proof.
  intros HS. unfold Graph_process. apply adds_bind; [by apply adds_silent|].
  intros s st' [-> ->]%get_Done.
  destruct (decide _) as [Hlt|Hge]; [by apply adds_silent|].
  apply adds_bind; [by apply adds_silent|]. intros [] st1 ->%modify_Done.
  apply adds_bind.
  { apply start_generators_adds. apply Forall_forall. intros n Hn. apply HS.
    apply elem_of_graph_values in Hn as [k Hn].
    apply elem_of_graph_values. exists k.
    apply list_elem_of_filter in Hn as [_ Hn].
    unfold roots in Hn. by apply list_elem_of_filter in Hn as [_ Hn]. }
  intros gens st2 _. apply rounds_adds. intros key.
  eapply Forall_impl; [apply subscriptions_in_graph|]. intros n. apply HS.
Qed.

End InvokedNodes.

(** *** The fixed point of pruning *)

Section PruningFixedPoint.
Import Extractor.
Local Open Scope monad_scope.

Lemma remove_dead_nodes_Done fuel features st st1 m :
  build_mapping (graph st) features ∅ = Ok m →
  remove_dead_nodes fuel features st = Done tt st1 →
  remove_dead_loop fuel m (leaves st).*2 st = Done tt st1.
Proof.
  intros Hm. unfold remove_dead_nodes.
  intros (s & st' & [-> ->]%get_Done & H)%bind_Done.
  apply bind_Done in H as (m' & st' & [Hm' ->]%lift_Done & H).
  congruence.
Qed.



End PruningFixedPoint.

(** ** Stored features (model.py, feature.py) *)

Section Writers.
Import Extractor.
Local Open Scope monad_scope.

(** [Q] describes the keys and databases the writers of the run may be
    bound to. *)
Context (Q : string → nat → Prop).

(** Every writer is bound as [Q] says, and the key of a writer whose
    stream has been opened is in its database. *)
Definition writers_ok (st : State) : Prop :=
  ∀ n node w, heap st !! n = Some node → kind node = WriterNode w →
    Q (w_key w) (w_database w) ∧
    (w_stream w ≠ None →
     ∃ db, world st !! w_database w = Some db ∧
           InMemoryDatabase.contains (w_key w) db = true).

Definition keeps_writers : relation State :=
  λ st st', writers_ok st → writers_ok st'.

#[global] Instance keeps_writers_preorder : PreOrder keeps_writers.
Proof.
  split.
  - intros st H. exact H.
  - intros a b c Hab Hbc H. apply Hbc, Hab, H.
Qed.

Lemma keeps_same st st' :
  heap st' = heap st → world st' = world st → keeps_writers st st'.
Proof.
  intros Hh Hw Hok n node w. rewrite Hh, Hw. exact (Hok n node w).
Qed.

Lemma keeps_alter st st' n f :
  heap st' = alter f n (heap st) → world st' = world st →
  (∀ node, kind (f node) = kind node) →
  keeps_writers st st'.
Proof.
  intros Hh Hw Hf Hok m node w. rewrite Hh, Hw.
  destruct (decide (n = m)) as [->|Hne].
  - rewrite lookup_alter_eq.
    destruct (heap st !! m) as [node0|] eqn:E; [|done].
    intros [= <-]. rewrite Hf. exact (Hok m node0 w E).
  - rewrite lookup_alter_ne by done. exact (Hok m node w).
Qed.

(** The three database operations never remove a key. *)
Lemma contains_write_stream key ct db k :
  InMemoryDatabase.contains k
    (InMemoryDatabase.write_stream key ct db).2 = true ↔
  k = key ∨ InMemoryDatabase.contains k db = true.
Proof.
  unfold InMemoryDatabase.contains, InMemoryDatabase.write_stream.
  cbn [snd InMemoryDatabase._dict].
  rewrite !bool_decide_eq_true. destruct (decide (key = k)) as [->|Hne].
  - rewrite lookup_insert_eq. naive_solver.
  - rewrite lookup_insert_ne by done. naive_solver.
Qed.

Lemma contains_write r data db db' k :
  InMemoryDatabase.write r data db = Ok db' →
  InMemoryDatabase.contains k db' = InMemoryDatabase.contains k db.
Proof.
  unfold InMemoryDatabase.write.
  destruct (InMemoryDatabase.sios db !! r) as [s|]; [|done].
  destruct (InMemoryDatabase.closed s); [done|]. by intros [= <-].
Qed.

Lemma contains_close r db db' k :
  InMemoryDatabase.close r db = Ok db' →
  InMemoryDatabase.contains k db = true →
  InMemoryDatabase.contains k db' = true.
Proof.
  unfold InMemoryDatabase.close.
  destruct (InMemoryDatabase.sios db !! r) as [s|]; [|done].
  destruct (InMemoryDatabase.closed s); [done|]. intros [= <-].
  unfold InMemoryDatabase.contains. cbn [InMemoryDatabase._dict].
  rewrite !bool_decide_eq_true.
  destruct (decide (InMemoryDatabase.hijacked_key s = k)) as [->|Hne].
  - by rewrite lookup_insert_eq.
  - by rewrite lookup_insert_ne.
Qed.

(** Replacing a database by one with at least its keys, and changing
    the stream fields of one writer whose key is in its database. *)
Lemma keeps_database st st' d db db' n f :
  world st !! d = Some db →
  world st' = <[d := db']> (world st) →
  (∀ k, InMemoryDatabase.contains k db = true →
        InMemoryDatabase.contains k db' = true) →
  heap st' = alter f n (heap st) →
  (∀ node w, heap st !! n = Some node → kind node = WriterNode w →
     ∃ w', kind (f node) = WriterNode w' ∧
           w_key w' = w_key w ∧ w_database w' = w_database w ∧
           (w_stream w' ≠ None →
            w_stream w ≠ None ∨
            (w_database w = d ∧
             InMemoryDatabase.contains (w_key w) db' = true))) →
  (∀ node cls, kind node = UserNode cls → kind (f node) = UserNode cls) →
  keeps_writers st st'.
Proof.
  intros Hd Hw Hgrow Hh Hf Hu Hok m node' w' Hm Hk.
  assert (Hother : ∀ w, Q (w_key w) (w_database w) ∧
             (w_stream w ≠ None →
              ∃ db0, world st !! w_database w = Some db0 ∧
                     InMemoryDatabase.contains (w_key w) db0 = true) →
             w_stream w ≠ None →
             ∃ db0, world st' !! w_database w = Some db0 ∧
                    InMemoryDatabase.contains (w_key w) db0 = true).
  { intros w [_ Hw0] Hs. destruct (Hw0 Hs) as (db0 & Hdb0 & Hc).
    rewrite Hw. destruct (decide (d = w_database w)) as [Heq|Hne].
    - rewrite <- Heq in *. rewrite lookup_insert_eq. exists db'.
      split; [done|]. apply Hgrow. congruence.
    - rewrite lookup_insert_ne by done. eauto. }
  rewrite Hh in Hm. destruct (decide (n = m)) as [->|Hne].
  - rewrite lookup_alter_eq in Hm.
    destruct (heap st !! m) as [node|] eqn:E; [|done].
    injection Hm as <-.
    destruct (kind node) as [cls|w] eqn:Hkn.
    { rewrite (Hu node cls Hkn) in Hk. done. }
    destruct (Hf node w eq_refl Hkn) as (w2 & Hk2 & Hkey & Hdb & Hs).
    assert (w2 = w') as -> by congruence.
    destruct (Hok m node w E Hkn) as [HQ Hst].
    rewrite Hkey, Hdb. split; [done|]. intros Hs'.
    destruct (Hs Hs') as [Hopen|[Heq Hc]].
    + rewrite <- Hkey, <- Hdb. apply (Hother w'); [|done].
      rewrite Hkey, Hdb. split; [done|]. intros _. by apply Hst.
    + rewrite Hw, Heq, lookup_insert_eq. eauto.
  - rewrite lookup_alter_ne in Hm by done.
    destruct (Hok m node' w' Hm Hk) as [HQ Hst]. split; [done|].
    intros Hs. apply (Hother w'); [by split|done].
Qed.

Lemma keeps_world st st' d db db' :
  world st !! d = Some db →
  world st' = <[d := db']> (world st) →
  (∀ k, InMemoryDatabase.contains k db = true →
        InMemoryDatabase.contains k db' = true) →
  heap st' = heap st →
  keeps_writers st st'.
Proof.
  intros Hd Hw Hgrow Hh.
  apply (keeps_database st st' d db db' 0 id); try done.
  - rewrite Hh. symmetry. by apply alter_id.
  - intros node w _ Hk. exists w. split; [done|]. split; [done|].
    split; [done|]. by left.
Qed.

#[global] Instance keeps_writers_NodeFrame : NodeFrame keeps_writers.
Proof.
  split.
  - apply _.
  - intros n c st. by apply (keeps_alter st _ n (set_cache c)).
  - intros n st. by apply (keeps_alter st _ n replace_first_chunk).
  - intros n p st node _ _. by apply (keeps_alter st _ n (add_finalized p)).
  - intros n d st. by apply keeps_same.
  - intros n st. by apply keeps_same.
  - intros n w st node Hn Hk Hs. unfold writer_open, bind, get_database,
      bind, get.
    destruct (world st !! w_database w) as [db|] eqn:Hdb; [|done].
    cbn [ret].
    pose proof (contains_write_stream (w_key w) (w_content_type w) db) as Hc.
    destruct (InMemoryDatabase.write_stream (w_key w) (w_content_type w) db)
      as [r db'] eqn:Ews. cbn [snd] in Hc.
    apply (keeps_database st _ (w_database w) db db' n
             (set_stream (Some r) false)); try done.
    + intros k Hk'. apply Hc. by right.
    + intros node0 w0 Hn0 Hk0.
      assert (node0 = node) as -> by congruence.
      assert (w0 = w) as -> by congruence.
      unfold set_stream. rewrite Hk. eexists. split; [done|].
      cbn [w_key w_database w_stream]. split; [done|]. split; [done|].
      intros _. right. split; [done|]. apply Hc. by left.
    + intros node0 cls Hk0. unfold set_stream. by rewrite Hk0.
  - intros w r data st. unfold writer_write, bind, get_database, bind, get.
    destruct (world st !! w_database w) as [db|] eqn:Hdb; [|done].
    cbn [ret lift].
    destruct (InMemoryDatabase.write r data db) as [db'|e] eqn:Ew; [|done].
    cbn [ret]. apply (keeps_world st _ (w_database w) db db'); try done.
    intros k Hk. by rewrite (contains_write _ _ _ _ _ Ew).
  - intros n w r st node Hn Hk Hs Hc. unfold writer_close, bind,
      get_database, bind, get.
    destruct (world st !! w_database w) as [db|] eqn:Hdb; [|done].
    cbn [ret lift].
    destruct (InMemoryDatabase.close r db) as [db'|e] eqn:Ec; [|done].
    cbn [ret].
    apply (keeps_database st _ (w_database w) db db' n
             (set_stream (Some r) true)); try done.
    + intros k Hk'. by apply (contains_close _ _ _ _ Ec).
    + intros node0 w0 Hn0 Hk0.
      assert (node0 = node) as -> by congruence.
      assert (w0 = w) as -> by congruence.
      unfold set_stream. rewrite Hk. eexists. split; [done|].
      cbn [w_key w_database w_stream]. split; [done|]. split; [done|].
      intros _. left. by rewrite Hs.
    + intros node0 cls Hk0. unfold set_stream. by rewrite Hk0.
Qed.

#[global] Instance keeps_writers_EnqueueFrame : EnqueueFrame keeps_writers.
Proof.
  split. intros n p st. by apply (keeps_alter st _ n (add_enqueued p)).
Qed.

#[global] Instance keeps_writers_SchedulerFrame :
  SchedulerFrame keeps_writers.
Proof.
  split.
  - intros ev st. by apply keeps_same.
  - intros A ev m st H. unfold observe.
    by destruct (m st) as [a st1|e st1|st1]; cbn [out_state] in *.
  - intros q st. by apply keeps_same.
Qed.

End Writers.

(** *** Building and pruning keep the writers *)

Section BuildKeepsWriters.
Import Extractor Feature BaseModel.
Local Open Scope monad_scope.

Lemma Feature_nested_ind (P : Feature → Prop) :
  (∀ k e ns s enc d pr,
     Forall P ns → P (mkFeature k e ns s enc d pr)) →
  ∀ f, P f.
Proof.
  intros H. fix IH 1. intros [k e ns s enc d pr]. apply H.
  induction ns as [|f ns IHns]; constructor; [apply IH|exact IHns].
Qed.

Context (_id : string) (p : PersistenceSettings).

(** The stored features the writers of the run may belong to. *)
Context (member : Feature → Prop).

Definition bound_to_member (key : string) (d : nat) : Prop :=
  ∃ g, member g ∧ store g = true ∧
       key = feature_key g _id p ∧ d = feature_database g p.

Abbreviation keeps := (keeps_writers bound_to_member).

Lemma add_listeners_keeps self needs st :
  keeps st (out_state (add_listeners self needs st)).
Proof.
  revert st. induction needs as [|n needs IH]; intros st.
  - cbn [add_listeners]. apply ret_transits, _.
  - cbn [add_listeners]. apply bind_transits; [apply _| |intros [] ? _; apply IH].
    by apply (keeps_alter _ st _ n
                (λ up, set_listeners (_listeners up ++ [self]) up)).
Qed.

Lemma new_node_keeps k needs st :
  (∀ w, k = WriterNode w →
        bound_to_member (w_key w) (w_database w) ∧ w_stream w = None) →
  keeps st (out_state (new_node k needs st)).
Proof.
  intros Hk. unfold new_node.
  apply bind_transits; [apply _| |intros [] st1 _].
  { destruct k as [cls|w]; [destruct (generator cls)|];
      first [apply ret_transits, _|apply raise_transits, _]. }
  apply bind_transits; [apply _|apply get_transits, _|].
  intros s st2 [-> ->]%get_Done.
  apply bind_transits; [apply _| |intros [] st3 _].
  2:{ apply bind_transits; [apply _|apply add_listeners_keeps|].
      intros [] ? _. apply ret_transits, _. }
  intros Hok n node w. cbn [modify out_state heap world].
  destruct (decide (next_node st1 = n)) as [->|Hne].
  - rewrite lookup_insert_eq. intros [= <-]. cbn [fresh_node kind].
    intros ->. destruct (Hk w eq_refl) as [HQ Hs]. split; [done|].
    by rewrite Hs.
  - rewrite lookup_insert_ne by done. exact (Hok n node w).
Qed.

Lemma register_keeps k n st : keeps st (out_state (register k n st)).
Proof. by apply keeps_same. Qed.

Lemma build_writer_keeps f e st :
  member f → store f = true →
  keeps st (out_state (build_writer f _id p e st)).
Proof.
  intros Hf Hs. unfold build_writer.
  apply bind_transits; [apply _| |intros enc st1 _].
  { apply new_node_keeps. intros w [=]. }
  apply bind_transits; [apply _|apply register_keeps|intros [] st2 _].
  apply bind_transits; [apply _| |intros dw st3 _; apply register_keeps].
  apply new_node_keeps. intros w [= <-]. cbn [w_key w_database w_stream].
  split; [|done]. by exists f.
Qed.

Lemma _build_extractor_keeps f :
  (∀ g, g ∈ closure f → store g = true → member g) →
  ∀ st, keeps st (out_state (Feature._build_extractor f _id p st)).
Proof.
  induction f as [k e ns s enc d pr IH] using Feature_nested_ind.
  intros Hmem st. cbn [Feature._build_extractor].
  apply bind_transits; [apply _|apply get_transits, _|].
  intros s0 st1 [-> ->]%get_Done. cbn [key].
  destruct (graph_get k (graph st)) as [n|]; [apply ret_transits, _|].
  apply bind_transits; [apply _| |intros needs st2 _].
  { assert (Hns : ∀ g f', f' ∈ ns → g ∈ closure f' →
              store g = true → member g).
    { intros g f' Hf' Hg. apply Hmem. cbn [closure]. right.
      apply list_elem_of_In, in_flat_map. exists f'.
      split; by apply list_elem_of_In. }
    clear Hmem. revert st.
    induction IH as [|f' ns IHf' _ IHns]; intros st.
    - apply ret_transits, _.
    - apply bind_transits; [apply _|apply get_transits, _|].
      intros s1 st3 [-> ->]%get_Done.
      apply bind_transits; [apply _| |intros e' st4 _].
      { destruct (graph_get (key f') (graph st)); [apply ret_transits, _|].
        apply IHf'. intros g. apply Hns. by left. }
      apply bind_transits; [apply _| |intros rest st5 _; apply ret_transits, _].
      apply IHns. intros g f'' Hf''. apply Hns. by right. }
  apply bind_transits; [apply _| |intros e' st3 _].
  { apply new_node_keeps. intros w [=]. }
  apply bind_transits; [apply _|apply register_keeps|intros [] st4 _].
  apply bind_transits; [apply _| |intros [] st5 _; apply ret_transits, _].
  cbn [store]. destruct s eqn:Hs; [|apply ret_transits, _].
  apply build_writer_keeps; [|done]. apply Hmem; [|done]. cbn [closure].
  by left.
Qed.

Lemma build_features_keeps fs st :
  (∀ f g, f ∈ fs → g ∈ closure f → store g = true → member g) →
  keeps st (out_state (build_features fs _id p st)).
Proof.
  revert st. induction fs as [|f fs IH]; intros st Hmem.
  - cbn [build_features]. apply ret_transits, _.
  - cbn [build_features]. apply bind_transits; [apply _| |intros n st1 _].
    + apply _build_extractor_keeps. intros g. apply Hmem. by left.
    + apply IH. intros f' g Hf'. apply Hmem. by right.
Qed.

Lemma disconnect_from_keeps self needs st :
  keeps st (out_state (disconnect_from self needs st)).
Proof.
  revert st. induction needs as [|e needs IH]; intros st.
  - cbn [disconnect_from]. apply ret_transits, _.
  - cbn [disconnect_from].
    apply bind_transits; [apply _| |intros [] ? _; apply IH].
    unfold remove_listener.
    apply bind_transits; [apply _|apply get_node_transits, _|].
    intros up st1 _. destruct (list_remove self (_listeners up)) as [l|];
      [|apply raise_transits, _].
    by apply (keeps_alter _ st1 _ e (set_listeners l)).
Qed.

Lemma remove_dead_loop_keeps fuel m nodes st :
  keeps st (out_state (remove_dead_loop fuel m nodes st)).
Proof.
  revert nodes st. induction fuel as [|fuel IH]; intros nodes st.
  - cbn [remove_dead_loop]. apply undefined_transits, _.
  - cbn [remove_dead_loop].
    destruct (pop nodes) as [[x nodes']|]; [|apply ret_transits, _].
    apply bind_transits; [apply _|apply get_node_transits, _|].
    intros node st1 _. destruct (m !! x) as [feature|]; [|apply IH].
    apply bind_transits; [apply _| |intros [] st2 _; apply IH].
    destruct (is_leaf node && negb feature.2); [|apply ret_transits, _].
    apply bind_transits; [apply _| |intros [] st2 _].
    + unfold disconnect.
      apply bind_transits; [apply _|apply get_node_transits, _|].
      intros node' st2 _. apply disconnect_from_keeps.
    + unfold graph_del.
      apply bind_transits; [apply _|apply get_transits, _|].
      intros s st3 [-> ->]%get_Done.
      destruct (graph_get feature.1 (graph st2));
        [by apply keeps_same|apply raise_transits, _].
Qed.

Lemma remove_dead_nodes_keeps fuel features st :
  keeps st (out_state (remove_dead_nodes fuel features st)).
Proof.
  unfold remove_dead_nodes.
  apply bind_transits; [apply _|apply get_transits, _|].
  intros s st1 [-> ->]%get_Done.
  apply bind_transits; [apply _|apply lift_transits, _|].
  intros m st2 _. apply remove_dead_loop_keeps.
Qed.

End BuildKeepsWriters.

(** *** Keys after a successful run *)

Section StoredAfterProcess.
Import Extractor Feature BaseModel.
Local Open Scope monad_scope.

Lemma process_keeps_writers fuel cls kwargs st _id st' p :
  settings cls = Some p →
  BaseModel.process fuel cls kwargs st = Done _id st' →
  keeps_writers (bound_to_member _id p (λ g, g ∈ all_features cls)) st st'.
Proof.
  intros Hp. unfold BaseModel.process, _ensure_persistence_settings.
  rewrite Hp. intros (p' & st1 & [-> ->]%ret_Done & H)%bind_Done.
  apply bind_Done in H as (i & st1 & [Hid ->]%lift_Done & H).
  apply bind_Done in H as ([] & st1 & Hbuild & H).
  apply bind_Done in H as ([] & st2 & Hprune & H).
  pose proof (Graph_process_frame
                (keeps_writers (bound_to_member i p
                                  (λ g, g ∈ all_features cls)))
                fuel kwargs st2) as Hrun.
  destruct (Graph_process fuel kwargs st2) as [[] st3|e st3|st3];
    cbn [out_state] in Hrun.
  2:{ by destruct (_rollback cls i p st3). }
  2:{ done. }
  injection H as <- <-.
  etrans; [|exact Hrun]. etrans.
  2:{ pose proof (remove_dead_nodes_keeps i p (λ g, g ∈ all_features cls)
                    fuel (map (λ f, (key f, store f)) (features cls)) st1)
        as Hk.
      by rewrite Hprune in Hk. }
  unfold BaseModel._build_extractor in Hbuild.
  apply bind_Done in Hbuild as ([] & st0 & ->%modify_Done & Hbuild).
  etrans; [by apply (keeps_same _ st (set_graph [] st))|].
  pose proof (build_features_keeps i p (λ g, g ∈ all_features cls)
                (features cls) (set_graph [] st)) as Hk.
  rewrite Hbuild in Hk. apply Hk.
  intros f g Hf Hg _. unfold all_features.
  apply list_elem_of_In, in_flat_map. exists f.
  split; by apply list_elem_of_In.
Qed.




End StoredAfterProcess.

(** ** Rollback (model.py) *)

Section Rollback.
Import Extractor Feature BaseModel.
Local Open Scope monad_scope.

(** [_rollback] swallows every failure of a deletion: it never raises. *)
Lemma rollback_never_raises fs _id p st e st' :
  rollback_features fs _id p st ≠ Raised e st'.
Proof.
  revert st. induction fs as [|f fs IH]; intros st; [done|].
  cbn [rollback_features]. unfold bind at 1.
  destruct (store f).
  - unfold bind at 1, KeyBuilder.build, lift, ret, delete_quietly, bind, get.
    destruct (world st !! database p) as [db|]; [|done].
    destruct (InMemoryDatabase.delitem _ db); apply IH.
  - apply IH.
Qed.

(** When the run of the graph raises, [process] raises the same
    exception after the rollback. *)
Lemma process_rethrows fuel cls kwargs st e st' :
  BaseModel.process fuel cls kwargs st = Raised e st' →
  ∀ p _id st1 st2,
    settings cls = Some p →
    new_id (id_provider p) kwargs = Ok _id →
    (BaseModel._build_extractor cls _id p ;;
     remove_dead_nodes fuel (map (λ f, (key f, store f)) (features cls)))
      st = Done tt st1 →
    ∀ e', Graph_process fuel kwargs st1 = Raised e' st2 → e = e'.
Proof.
  intros Hrun p _id st1 st2 Hp Hid Hprep e' Hgraph.
  unfold BaseModel.process, _ensure_persistence_settings in Hrun.
  rewrite Hp in Hrun. unfold bind at 1, ret in Hrun.
  rewrite Hid in Hrun. unfold bind at 1, lift, ret in Hrun.
  unfold bind in Hprep, Hrun.
  destruct (BaseModel._build_extractor cls _id p st) as [[] s|? s|s];
    [|done..].
  destruct (remove_dead_nodes fuel _ s) as [[] s'|? s'|s']; [|done..].
  injection Hprep as ->. rewrite Hgraph in Hrun.
  destruct (_rollback cls _id p st2) as [[] s''|e'' s''|s''] eqn:Hroll;
    [congruence| |done].
  by apply rollback_never_raises in Hroll.
Qed.


End Rollback.

(** ** Key builder: building what was decomposed (data.py) *)

Section KeyBuilderInverse.
Import KeyBuilder.

(** A string that starts with [sep] is [sep] followed by the rest. *)
Lemma prefix_split sep s :
  String.prefix sep s = true → ∃ rest, s = sep +:+ rest.
Proof.
  revert s. induction sep as [|a sep IH]; intros s H.
  - exists s. by rewrite append_empty_l.
  - destruct s as [|c s]; [done|]. cbn [String.prefix] in H.
    destruct (ascii_dec a c) as [->|]; [|done].
    destruct (IH s H) as [rest ->]. exists rest. by rewrite append_String.
Qed.

Lemma length_append s t :
  String.length (s +:+ t) = String.length s + String.length t.
Proof.
  induction s as [|c s IH]; [by rewrite append_empty_l|].
  rewrite append_String. cbn [String.length]. by rewrite IH.
Qed.

Lemma join_cons sep x l :
  l ≠ [] → join sep (x :: l) = x +:+ sep +:+ join sep l.
Proof. by destruct l. Qed.

(** The fields that [split_go] reads from [s] after skipping [pre],
    joined again, are the rest of [s]. *)
Lemma join_split_go sep s :
  sep ≠ "" →
  ∀ k pre rest, s = pre +:+ rest → String.length pre = k →
    join sep (split_go sep k s) = rest.
Proof.
  intros Hsep. induction s as [|c s IH]; intros k pre rest Hs Hk.
  - destruct pre; [|by rewrite append_String in Hs].
    rewrite append_empty_l in Hs. by subst.
  - destruct k as [|k].
    + destruct pre; [|done]. rewrite append_empty_l in Hs. subst rest.
      cbn [split_go].
      destruct (String.prefix sep (String c s)) eqn:Hp.
      * destruct sep as [|a sep']; [done|].
        pose proof Hp as Hp'. cbn [String.prefix] in Hp'.
        destruct (ascii_dec a c) as [->|]; [|done].
        destruct (prefix_split _ _ Hp') as [rest' ->].
        replace (String.length (String c sep') - 1)
          with (String.length sep') by (cbn [String.length]; lia).
        rewrite join_cons by apply split_go_nonempty.
        rewrite (IH _ sep' rest') by done.
        by rewrite append_empty_l, append_String.
      * pose proof (IH 0 "" s) as IH0. rewrite append_empty_l in IH0.
        specialize (IH0 eq_refl eq_refl).
        destruct (split_go sep 0 s) as [|h t] eqn:E;
          [by apply split_go_nonempty in E|].
        destruct t as [|h' t].
        -- cbn [join String.concat] in *. by subst.
        -- rewrite join_cons in IH0 |- * by done.
           by rewrite append_String, IH0.
    + destruct pre as [|c' pre]; [done|]. rewrite append_String in Hs.
      injection Hs as -> ->. cbn [split_go]. cbn [String.length] in Hk.
      apply (IH k pre rest); [done|lia].
Qed.

Lemma decompose_join (kb : StringDelimitedKeyBuilder)
    (key : string) (parts : list string) :
  decompose kb key = Ok parts → join (_seperator kb) parts = key.
Proof.
  unfold decompose, split. intros H.
  destruct (_seperator kb) as [|a sep] eqn:E; [done|].
  injection H as <-.
  apply (join_split_go (String a sep) key ltac:(done) 0 "" key);
    [by rewrite append_empty_l|done].
Qed.

(** [build] undoes [decompose]: for every key builder and every string,
    the fields that [decompose] returns are joined by [build] into the
    string itself.  ([decompose] raises on an empty separator.) *)
Theorem decompose_then_build (kb : StringDelimitedKeyBuilder)
    (key : string) (parts : list string) :
  decompose kb key = Ok parts → build kb parts = Ok key.
Proof.
  intros H. unfold build. f_equal. by apply decompose_join.
Qed.

Lemma decompose_then_build_witness :
  decompose default "doc1:stream:TextStream"
    = Ok ["doc1"; "stream"; "TextStream"] ∧
  build default ["doc1"; "stream"; "TextStream"]
    = Ok "doc1:stream:TextStream".
Proof.
  split; [reflexivity|].
  apply (decompose_then_build default "doc1:stream:TextStream").
  reflexivity.
Defined.
End KeyBuilderInverse.

(** *** Separators of one character *)

Section SingleCharacter.
Import KeyBuilder.
Context (c : ascii).

Lemma prefix_char d s :
  String.prefix (String c "") (String d s) = bool_decide (c = d).
Proof.
  change (String.prefix (String c "") (String d s))
    with (match ascii_dec c d with
          | left _ => String.prefix "" s
          | right _ => false
          end).
  destruct (ascii_dec c d) as [Heq|Hne].
  - rewrite bool_decide_eq_true_2 by done. by destruct s.
  - by rewrite bool_decide_eq_false_2.
Qed.

Lemma eqb_decide d : Ascii.eqb c d = bool_decide (c = d).
Proof.
  destruct (decide (c = d)) as [->|Hne].
  - by rewrite Ascii.eqb_refl, bool_decide_eq_true_2.
  - rewrite bool_decide_eq_false_2 by done. by apply Ascii.eqb_neq.
Qed.

Lemma split_go_char_fields s :
  Forall (λ p, occurrences c p = 0) (split_go (String c "") 0 s).
Proof.
  induction s as [|d s IH]; [by repeat constructor|].
  cbn [split_go]. rewrite prefix_char.
  destruct (decide (c = d)) as [<-|Hne].
  - rewrite bool_decide_eq_true_2 by done.
    change (String.length (String c "") - 1) with 0. by constructor.
  - rewrite bool_decide_eq_false_2 by done.
    destruct (split_go (String c "") 0 s) as [|h t] eqn:E;
      [by apply split_go_nonempty in E|].
    inversion IH as [|? ? Hh Ht]; subst. constructor; [|done].
    cbn [occurrences]. rewrite eqb_decide.
    by rewrite bool_decide_eq_false_2.
Qed.

Lemma split_go_char_length s :
  length (split_go (String c "") 0 s) = S (occurrences c s).
Proof.
  induction s as [|d s IH]; [done|].
  cbn [split_go occurrences]. rewrite prefix_char, eqb_decide.
  destruct (decide (c = d)) as [<-|Hne].
  - rewrite bool_decide_eq_true_2 by done.
    change (String.length (String c "") - 1) with 0. cbn [length].
    rewrite IH. lia.
  - rewrite bool_decide_eq_false_2 by done.
    destruct (split_go (String c "") 0 s) eqn:E;
      [by apply split_go_nonempty in E|].
    cbn [length] in *. lia.
Qed.

(** Two fields without the separator, joined by it, can be told apart. *)
Lemma join_char_inj a b a' b' :
  occurrences c a = 0 → occurrences c a' = 0 →
  a +:+ String c b = a' +:+ String c b' → a = a' ∧ b = b'.
Proof.
  revert a'. induction a as [|d a IH]; intros a' Ha Ha' H.
  - rewrite append_empty_l in H. destruct a' as [|d' a'].
    + rewrite append_empty_l in H. by injection H as ->.
    + rewrite append_String in H. injection H as <- _.
      cbn [occurrences] in Ha'. rewrite Ascii.eqb_refl in Ha'. lia.
  - rewrite append_String in H. destruct a' as [|d' a'].
    + rewrite append_empty_l in H. injection H as -> _.
      cbn [occurrences] in Ha. rewrite Ascii.eqb_refl in Ha. lia.
    + rewrite append_String in H. injection H as -> H.
      cbn [occurrences] in Ha, Ha'.
      destruct (IH a') as [-> ->]; [lia|lia|done|done].
Qed.

Lemma decompose_char (kb : StringDelimitedKeyBuilder) (key : string) :
  _seperator kb = String c "" →
  decompose kb key = Ok (split_go (String c "") 0 key).
Proof. intros Hsep. unfold decompose, split. by rewrite Hsep. Qed.

(** With a separator of one character, [decompose] returns one field
    more than the key has separators, and no field contains the
    separator. *)
Theorem decompose_fields_separator_free (kb : StringDelimitedKeyBuilder)
    (key : string) :
  _seperator kb = String c "" →
  ∃ fields,
    decompose kb key = Ok fields ∧
    length fields = S (occurrences c key) ∧
    Forall (λ p, occurrences c p = 0) fields.
Proof.
  intros Hsep. exists (split_go (String c "") 0 key).
  split; [by apply decompose_char|]. split; [apply split_go_char_length|].
  apply split_go_char_fields.
Qed.

End SingleCharacter.

Lemma decompose_fields_separator_free_witness :
  ∃ fields,
    KeyBuilder.decompose KeyBuilder.default "a:b:c:d" = Ok fields ∧
    length fields = 4 ∧
    Forall (λ p, KeyBuilder.occurrences ":" p = 0) fields.
Proof.
  apply (decompose_fields_separator_free ":" KeyBuilder.default "a:b:c:d").
  reflexivity.
Defined.


(** ** Listing the document ids of a database (data.py) *)

Section IterIds.
Import KeyBuilder.
Context (kb : StringDelimitedKeyBuilder).

(** The key has the three fields [iter_ids] unpacks. *)
Definition three_fields (key : string) : Prop :=
  ∃ i f v, decompose kb key = Ok [i; f; v].

(** [decompose] raises nothing but the [ValueError] of [str.split]. *)
Lemma decompose_raises key e : decompose kb key = Raise e → e = ValueError.
Proof.
  unfold decompose, split. destruct (_seperator kb); congruence.
Qed.

(** No id is yielded twice, and none that was seen before. *)
Lemma iter_ids_loop_fresh seen keys :
  NoDup (iter_ids_loop kb seen keys).1 ∧
  ∀ i, i ∈ (iter_ids_loop kb seen keys).1 → i ∉ seen.
Proof.
  revert seen. induction keys as [|key keys IH]; intros seen.
  - cbn. split; [constructor|]. intros i Hi. by apply elem_of_nil in Hi.
  - cbn [iter_ids_loop].
    destruct (decompose kb key) as [[|i [|f [|v [|? ?]]]]|e];
      try (cbn; split; [constructor|];
           intros ? Hi; by apply elem_of_nil in Hi).
    destruct (decide (i ∈ seen)) as [Hin|Hout]; [apply IH|].
    destruct (IH ({[i]} ∪ seen)) as [Hnd Hfresh]. cbn [fst]. split.
    + constructor; [|done]. intros Hi. apply Hfresh in Hi. set_solver.
    + intros j [->|Hj]%elem_of_cons; [done|].
      apply Hfresh in Hj. set_solver.
Qed.

(** Over keys of three fields the loop ends normally and yields the
    first fields not seen before. *)
Lemma iter_ids_loop_ok seen keys :
  Forall three_fields keys →
  (iter_ids_loop kb seen keys).2 = None ∧
  ∀ i, i ∈ (iter_ids_loop kb seen keys).1 ↔
       (i ∉ seen) ∧
       ∃ key f v, key ∈ keys ∧ decompose kb key = Ok [i; f; v].
Proof.
  intros Hall. revert seen.
  induction Hall as [|key keys (i0 & f0 & v0 & Hkey) Hall IH]; intros seen.
  - cbn. split; [done|]. intros i. split.
    + intros Hi. by apply elem_of_nil in Hi.
    + intros (_ & key & f & v & Hk & _). by apply elem_of_nil in Hk.
  - cbn [iter_ids_loop]. rewrite Hkey.
    destruct (decide (i0 ∈ seen)) as [Hin|Hout].
    + destruct (IH seen) as [Herr Hmem]. split; [done|].
      intros i. rewrite Hmem. split.
      * intros (Hi & key' & f & v & Hk & Hd).
        split; [done|]. exists key', f, v. split; [by right|done].
      * intros (Hi & key' & f & v & Hk & Hd). split; [done|].
        apply elem_of_cons in Hk as [->|Hk].
        -- rewrite Hkey in Hd. injection Hd as -> _ _. done.
        -- by exists key', f, v.
    + destruct (IH ({[i0]} ∪ seen)) as [Herr Hmem]. cbn [fst snd].
      split; [done|]. intros i. rewrite elem_of_cons, Hmem. split.
      * intros [->|(Hi & key' & f & v & Hk & Hd)].
        -- split; [done|]. exists key, f0, v0. split; [by left|done].
        -- split; [set_solver|]. exists key', f, v. split; [by right|done].
      * intros (Hi & key' & f & v & Hk & Hd).
        destruct (decide (i = i0)) as [->|Hne]; [by left|]. right.
        split; [set_solver|].
        apply elem_of_cons in Hk as [->|Hk].
        -- rewrite Hkey in Hd. by injection Hd as -> _ _.
        -- by exists key', f, v.
Qed.

(** One key that has not three fields ends the loop with a
    [ValueError], wherever the key stands. *)
Lemma iter_ids_loop_fails seen keys key :
  key ∈ keys → ¬ three_fields key →
  (iter_ids_loop kb seen keys).2 = Some ValueError.
Proof.
  intros Hin Hbad. revert seen.
  induction keys as [|key' keys IH]; intros seen;
    [by apply elem_of_nil in Hin|].
  cbn [iter_ids_loop].
  destruct (decompose kb key') as [fields|e] eqn:Hd;
    [|by apply decompose_raises in Hd as ->].
  destruct fields as [|i [|f [|v [|? ?]]]]; try done.
  apply elem_of_cons in Hin as [->|Hin];
    [exfalso; apply Hbad; by exists i, f, v|].
  destruct (decide (i ∈ seen)); [by apply IH|]. cbn [snd]. by apply IH.
Qed.

End IterIds.

Section DatabaseIds.
Import KeyBuilder.

Lemma in_memory_keys key db :
  key ∈ InMemoryDatabase.keys db ↔ InMemoryDatabase.contains key db = true.
Proof.
  unfold InMemoryDatabase.keys, InMemoryDatabase.contains.
  rewrite bool_decide_eq_true, list_elem_of_fmap. split.
  - intros ([k v] & -> & Hkv). apply elem_of_map_to_list in Hkv.
    by exists v.
  - intros [v Hv]. exists (key, v). split; [done|].
    by apply elem_of_map_to_list.
Qed.

(** In whatever order the dictionary is iterated: when every key of an
    in-memory database has three fields, [iter_ids] ends normally and
    yields every document id that has a key in the database, each
    exactly once. *)
Theorem iter_ids_lists_every_document (kb : StringDelimitedKeyBuilder)
    (db : InMemoryDatabase.t) (order : list string) :
  order ≡ₚ InMemoryDatabase.keys db →
  (∀ key, InMemoryDatabase.contains key db = true → three_fields kb key) →
  let r := iter_ids_loop kb ∅ order in
  r.2 = None ∧ NoDup r.1 ∧
  ∀ _id, _id ∈ r.1 ↔
    ∃ name version key,
      InMemoryDatabase.contains key db = true ∧
      decompose kb key = Ok [_id; name; version].
Proof.
  intros Hperm Hall r.
  assert (Hkeys : ∀ key, key ∈ order ↔
            InMemoryDatabase.contains key db = true).
  { intros key. by rewrite Hperm, in_memory_keys. }
  assert (Forall (three_fields kb) order) as Hthree.
  { apply Forall_forall. intros key Hk. by apply Hall, Hkeys. }
  destruct (iter_ids_loop_ok kb ∅ order Hthree) as [Herr Hmem].
  split; [done|]. split; [apply iter_ids_loop_fresh|].
  intros i. unfold r. rewrite Hmem. split.
  - intros (_ & key & f & v & Hk & Hd). exists f, v, key.
    split; [by apply Hkeys|done].
  - intros (f & v & key & Hk & Hd). split; [set_solver|].
    exists key, f, v. split; [by apply Hkeys|done].
Qed.

(** In whatever order the dictionary is iterated: one key that does
    not decompose into three fields (a document id containing the
    separator, say) makes [iter_ids] end with a [ValueError]. *)
Theorem iter_ids_fails_on_malformed_key (kb : StringDelimitedKeyBuilder)
    (db : InMemoryDatabase.t) (order : list string) (key : string) :
  order ≡ₚ InMemoryDatabase.keys db →
  InMemoryDatabase.contains key db = true →
  ¬ three_fields kb key →
  (iter_ids_loop kb ∅ order).2 = Some ValueError.
Proof.
  intros Hperm Hk Hbad. apply (iter_ids_loop_fails kb ∅ order key); [|done].
  by rewrite Hperm, in_memory_keys.
Qed.

(** Two documents, one of them with two features. *)
Definition two_documents : InMemoryDatabase.t :=
  {| InMemoryDatabase.sios := ∅;
     InMemoryDatabase.next_ref := 0;
     InMemoryDatabase._dict :=
       {[ "d1:stream:TextStream" := InMemoryDatabase.Str "mary";
          "d1:copy:Echo" := InMemoryDatabase.Str "mary";
          "d2:stream:TextStream" := InMemoryDatabase.Str "lamb" ]} |}.

Lemma iter_ids_lists_every_document_witness :
  (InMemoryDatabase.iter_ids default two_documents).2 = None ∧
  NoDup (InMemoryDatabase.iter_ids default two_documents).1 ∧
  "d2" ∈ (InMemoryDatabase.iter_ids default two_documents).1.
Proof.
  destruct (iter_ids_lists_every_document default two_documents
              (InMemoryDatabase.keys two_documents))
    as (Herr & Hnd & Hmem).
  - reflexivity.
  - intros key Hk. apply in_memory_keys in Hk. vm_compute in Hk.
    repeat (apply elem_of_cons in Hk as [->|Hk];
            [eexists _, _, _; vm_compute; reflexivity|]).
    by apply elem_of_nil in Hk.
  - split; [exact Herr|]. split; [exact Hnd|]. apply Hmem.
    exists "stream", "TextStream", "d2:stream:TextStream".
    split; vm_compute; reflexivity.
Defined.

(** A document whose id contains the separator. *)
Definition colon_in_id : InMemoryDatabase.t :=
  {| InMemoryDatabase.sios := ∅;
     InMemoryDatabase.next_ref := 0;
     InMemoryDatabase._dict :=
       {[ "d1:stream:TextStream" := InMemoryDatabase.Str "mary";
          "a:b:stream:TextStream" := InMemoryDatabase.Str "lamb" ]} |}.

Lemma iter_ids_fails_on_malformed_key_witness :
  (InMemoryDatabase.iter_ids default colon_in_id).2 = Some ValueError.
Proof.
  apply (iter_ids_fails_on_malformed_key default colon_in_id
           (InMemoryDatabase.keys colon_in_id) "a:b:stream:TextStream").
  - reflexivity.
  - vm_compute. reflexivity.
  - intros (i & f & v & H). vm_compute in H. discriminate H.
Defined.

End DatabaseIds.

(** ** The LMDB database: keys do not interfere (lmdbstore.py) *)

Section LmdbKeys.
Import KeyBuilder LmdbDatabase.

Lemma versioned_Ok db key vk f :
  versioned db key = Ok (vk, f) →
  ∃ i v, decompose (key_builder db) key = Ok [i; f; v] ∧
         vk = join (_seperator (key_builder db)) [i; v].
Proof.
  unfold versioned, build. intros H.
  destruct (decompose (key_builder db) key)
    as [[|i [|f' [|v [|? ?]]]]|e]; try done.
  injection H as <- <-. by exists i, v.
Qed.

(** With a separator of one character, a key is determined by its
    sub-database and its versioned key. *)
Lemma versioned_inj db c key key' vk f :
  _seperator (key_builder db) = String c "" →
  versioned db key = Ok (vk, f) → versioned db key' = Ok (vk, f) →
  key = key'.
Proof.
  intros Hsep (i & v & Hd & Hvk)%versioned_Ok (i' & v' & Hd' & Hvk')%versioned_Ok.
  pose proof Hd as Hb. pose proof Hd' as Hb'.
  rewrite (decompose_char c _ _ Hsep) in Hd.
  rewrite (decompose_char c _ _ Hsep) in Hd'.
  injection Hd as Hd. injection Hd' as Hd'.
  pose proof (split_go_char_fields c key) as Hf.
  pose proof (split_go_char_fields c key') as Hf'.
  rewrite Hd in Hf. rewrite Hd' in Hf'.
  apply Forall_cons in Hf as [Hi _]. apply Forall_cons in Hf' as [Hi' _].
  rewrite Hsep in Hvk, Hvk'. cbn [join String.concat] in Hvk, Hvk'.
  change (String c "" +:+ v) with (String c v) in Hvk.
  change (String c "" +:+ v') with (String c v') in Hvk'.
  destruct (join_char_inj c i v i' v' Hi Hi') as [-> ->]; [congruence|].
  apply decompose_join in Hb, Hb'. congruence.
Qed.

End LmdbKeys.

Section LmdbIsolation.
Import LmdbDatabase.

(** Every sub-database of the environment has its handle in the table,
    as [LmdbDatabase.__init__] leaves it. *)
Definition handles_opened (db : t) : Prop := dom (env db) ⊆ dbs db.

Lemma versioned_ext db db' key :
  key_builder db' = key_builder db → versioned db' key = versioned db key.
Proof. intros H. unfold versioned. by rewrite H. Qed.

Lemma _get_db_Ok key db vk f db1 :
  _get_db key db = Ok (vk, f, db1) →
  versioned db key = Ok (vk, f) ∧
  key_builder db1 = key_builder db ∧
  dbs db1 = {[f]} ∪ dbs db ∧
  (∀ f', f' ≠ f → env db1 !! f' = env db !! f') ∧
  default ∅ (env db1 !! f) = default ∅ (env db !! f) ∧
  (handles_opened db → handles_opened db1).
Proof.
  unfold _get_db, handles_opened.
  destruct (versioned db key) as [[vk0 f0]|e]; [|done].
  destruct (decide (f0 ∈ dbs db)) as [Hin|Hout]; intros H;
    injection H as <- <- <-.
  - repeat split; try done. set_solver.
  - cbn. repeat split; try done.
    + intros f' Hne. destruct (env db !! f0); [done|].
      by rewrite lookup_insert_ne.
    + destruct (env db !! f0) eqn:E; [by rewrite E|].
      by rewrite lookup_insert_eq.
    + intros Hdom. destruct (env db !! f0); [set_solver|].
      rewrite dom_insert. set_solver.
Qed.

Lemma read_stream_unfold key db :
  read_stream key db =
    match versioned db key with
    | Ok (vk, f) =>
        if decide (f ∈ dbs db) then
          match txn_get vk f db with
          | None => Raise KeyError
          | Some buf => Ok buf
          end
        else Raise KeyError
    | Raise e => Raise e
    end.
Proof.
  unfold read_stream, _get_read_db.
  destruct (versioned db key) as [[vk f]|e]; [|done].
  by destruct (decide (f ∈ dbs db)).
Qed.

Lemma txn_get_None vk f db :
  handles_opened db → f ∉ dbs db → txn_get vk f db = None.
Proof.
  unfold handles_opened, txn_get. intros Hdom Hf.
  destruct (env db !! f) eqn:E; [|done].
  exfalso. apply Hf, Hdom. apply elem_of_dom. by rewrite E.
Qed.

Lemma close_handles_opened ws db db' :
  handles_opened db → close ws db = Ok db' → handles_opened db'.
Proof.
  intros Hdom Hclose. unfold close in Hclose.
  destruct (_get_db (ws_key ws) db) as [[[vk f] db1]|e] eqn:Hg; [|done].
  injection Hclose as <-.
  apply _get_db_Ok in Hg as (Hv & Hkb & Hdbs & Henv & Hsub & Hdom1).
  specialize (Hdom1 Hdom).
  unfold handles_opened in *. cbn [txn_put env dbs].
  rewrite dom_insert. rewrite Hdbs in *. set_solver.
Qed.

Lemma empty_handles_opened kb : handles_opened (empty kb).
Proof. unfold handles_opened, empty. cbn. by rewrite dom_empty. Qed.

(** Closing a write stream changes what is read under its own key
    only: with a separator of one character and every sub-database
    opened, [read_stream] of any other key returns or raises after the
    [close] what it did before. *)
Theorem close_leaves_other_keys (c : ascii) (ws : WriteStream)
    (db db' : t) (key' : string) :
  KeyBuilder._seperator (key_builder db) = String c "" →
  handles_opened db →
  close ws db = Ok db' →
  key' ≠ ws_key ws →
  read_stream key' db' = read_stream key' db ∧ handles_opened db'.
Proof.
  intros Hsep Hdom Hclose Hne.
  split; [|by apply (close_handles_opened ws db)].
  unfold close in Hclose.
  destruct (_get_db (ws_key ws) db) as [[[vk f] db1]|e] eqn:Hg; [|done].
  injection Hclose as <-.
  apply _get_db_Ok in Hg as (Hv & Hkb & Hdbs & Henv & Hsub & Hdom1).
  rewrite !read_stream_unfold.
    rewrite (versioned_ext db (txn_put vk f (ws_buf ws) db1)) by done.
    destruct (versioned db key') as [[vk' f']|e] eqn:Hv'; [|done].
    cbn [txn_put dbs]. rewrite Hdbs. unfold txn_get. cbn [txn_put env].
    destruct (decide (f' = f)) as [->|Hf].
    + assert (vk' ≠ vk) as Hvk.
      { intros ->. apply Hne. by apply (versioned_inj db c _ _ vk f). }
      rewrite lookup_insert_eq. cbn. rewrite lookup_insert_ne by done.
      rewrite Hsub. rewrite decide_True by set_solver.
      destruct (decide (f ∈ dbs db)) as [Hin|Hout].
      * by destruct (env db !! f).
      * pose proof (txn_get_None vk' f db Hdom Hout) as Hnone.
        unfold txn_get in Hnone.
        destruct (env db !! f) as [sub|]; cbn in *; by rewrite ?Hnone.
    + rewrite lookup_insert_ne by done. rewrite Henv by done.
      destruct (decide (f' ∈ dbs db)) as [Hin|Hout].
      * by rewrite decide_True by set_solver.
      * by rewrite decide_False by set_solver.
Qed.

End LmdbIsolation.

Section LmdbDelete.
Import LmdbDatabase.

Lemma _get_read_db_cases key db :
  (∃ vk f, versioned db key = Ok (vk, f) ∧ f ∈ dbs db ∧
           _get_read_db key db = Ok (vk, f)) ∨
  (∃ vk f, versioned db key = Ok (vk, f) ∧ (f ∉ dbs db) ∧
           _get_read_db key db = Raise KeyError) ∨
  (versioned db key = Raise ValueError ∧
   _get_read_db key db = Raise ValueError).
Proof.
  unfold _get_read_db.
  destruct (versioned db key) as [[vk f]|e] eqn:Hv.
  - destruct (decide (f ∈ dbs db)); [left|right; left]; by exists vk, f.
  - right. right. by apply lmdb_versioned_raises in Hv as ->.
Qed.

(** [del db[key]] on the LMDB database never raises a [KeyError], not
    even for a key that was never written; when it returns, reading the
    key raises [KeyError] and every other key reads as before. *)
Theorem delitem_removes_only_the_key (c : ascii) (key : string) (db : t) :
  KeyBuilder._seperator (key_builder db) = String c "" →
  delitem key db ≠ Raise KeyError ∧
  ∀ db', delitem key db = Ok db' →
    read_stream key db' = Raise KeyError ∧
    ∀ key', key' ≠ key → read_stream key' db' = read_stream key' db.
Proof.
  intros Hsep. unfold delitem.
  destruct (_get_read_db_cases key db)
    as [(vk & f & Hv & Hf & ->)|[(vk & f & Hv & Hf & ->)|[Hv ->]]].
  - split; [done|]. intros db' [= <-]. split.
    + rewrite read_stream_unfold.
      rewrite (versioned_ext db (txn_delete vk f db)) by done. rewrite Hv.
      cbn [txn_delete dbs]. rewrite decide_True by done.
      unfold txn_get. cbn [txn_delete env]. rewrite lookup_alter_eq.
      destruct (env db !! f) as [sub|]; cbn; [|done].
      by rewrite lookup_delete_eq.
    + intros key' Hne. rewrite !read_stream_unfold.
      rewrite (versioned_ext db (txn_delete vk f db)) by done.
      destruct (versioned db key') as [[vk' f']|e] eqn:Hv'; [|done].
      cbn [txn_delete dbs]. destruct (decide (f' ∈ dbs db)); [|done].
      unfold txn_get. cbn [txn_delete env].
      destruct (decide (f' = f)) as [->|Hne'].
      * assert (vk' ≠ vk) as Hvk.
        { intros ->. apply Hne. by apply (versioned_inj db c _ _ vk f). }
        rewrite lookup_alter_eq. destruct (env db !! f) as [sub|]; cbn; [|done].
        by rewrite lookup_delete_ne.
      * by rewrite lookup_alter_ne.
  - split; [done|]. intros db' [= <-]. split; [|done].
    rewrite read_stream_unfold, Hv. by rewrite decide_False.
  - split; [done|]. done.
Qed.

End LmdbDelete.

Section LmdbExamples.
Import LmdbDatabase.

(** The database after one stream was written and closed. *)
Definition one_stream : t :=
  match close {| ws_key := "doc1:stream:TextStream"; ws_buf := "mary" |}
              (empty KeyBuilder.default) with
  | Ok db => db
  | Raise _ => empty KeyBuilder.default
  end.

Lemma one_stream_handles : handles_opened one_stream.
Proof.
  apply (close_handles_opened
           {| ws_key := "doc1:stream:TextStream"; ws_buf := "mary" |}
           (empty KeyBuilder.default));
    [apply empty_handles_opened|reflexivity].
Qed.

Lemma close_leaves_other_keys_witness :
  ∃ db',
    close {| ws_key := "doc1:copy:Echo"; ws_buf := "lamb" |} one_stream
      = Ok db' ∧
    read_stream "doc1:stream:TextStream" db' = Ok "mary".
Proof.
  destruct (close {| ws_key := "doc1:copy:Echo"; ws_buf := "lamb" |}
                  one_stream) as [db'|e] eqn:Hclose;
    [|vm_compute in Hclose; discriminate Hclose].
  exists db'. split; [reflexivity|].
  destruct (close_leaves_other_keys ":"
              {| ws_key := "doc1:copy:Echo"; ws_buf := "lamb" |}
              one_stream db' "doc1:stream:TextStream"
              eq_refl one_stream_handles Hclose)
    as [-> _]; [discriminate|].
  vm_compute. reflexivity.
Defined.

Lemma delitem_removes_only_the_key_witness :
  ∃ db',
    delitem "doc1:stream:TextStream" one_stream = Ok db' ∧
    read_stream "doc1:stream:TextStream" db' = Raise KeyError.
Proof.
  destruct (delitem "doc1:stream:TextStream" one_stream)
    as [db'|e] eqn:Hdel; [|vm_compute in Hdel; discriminate Hdel].
  exists db'. split; [reflexivity|].
  destruct (delitem_removes_only_the_key ":" "doc1:stream:TextStream"
              one_stream eq_refl) as [_ H].
  by apply H.
Defined.

End LmdbExamples.

(** ** Reading a stream piece by piece (lmdbstore.py) *)

Section ReadStreamFacts.
Import ReadStream.

Lemma substring_nil p n : String.substring p n "" = "".
Proof. by destruct p, n. Qed.

Lemma substring_all s : String.substring 0 (String.length s) s = s.
Proof. induction s as [|c s IH]; [done|]. cbn. by rewrite IH. Qed.

Lemma substring_end s n : String.substring (String.length s) n s = "".
Proof. induction s as [|c s IH]; [by destruct n|done]. Qed.

(** Reading [a + b] characters is reading [a] characters and then [b]
    more from where the first piece ended. *)
Lemma substring_add s p a b :
  String.substring p (a + b) s =
    String.substring p a s +:+
    String.substring (p + String.length (String.substring p a s)) b s.
Proof.
  revert p a. induction s as [|c s IH]; intros p a.
  - by rewrite !substring_nil.
  - destruct p as [|p].
    + destruct a as [|a]; [done|].
      cbn [Nat.add String.substring String.length]. rewrite append_String.
      f_equal. apply (IH 0).
    + cbn [Nat.add String.substring]. apply IH.
Qed.

(** Two reads in a row return together what one read of the summed
    size returns, and leave the stream in the same position. *)
Theorem reads_compose (a b : nat) (self s1 s2 : t) (v1 v2 : string) :
  read (Some a) self = Ok (v1, s1) →
  read (Some b) s1 = Ok (v2, s2) →
  read (Some (a + b)) self = Ok (v1 +:+ v2, s2).
Proof.
  unfold read. cbn [from_option id].
  destruct (decide (pos self < 0)%Z) as [|Hpos]; [done|].
  intros [= <- <-]. cbn [buf pos].
  destruct (decide _) as [|_]; [done|]. intros [= <- <-].
  rewrite substring_add. rewrite length_append.
  replace (Z.to_nat (pos self +
             Z.of_nat (String.length
               (String.substring (Z.to_nat (pos self)) a (buf self)))))
    with (Z.to_nat (pos self) +
          String.length
            (String.substring (Z.to_nat (pos self)) a (buf self)))
    by lia.
  do 3 f_equal. lia.
Qed.

Lemma reads_compose_witness :
  read (Some (4 + 3)) (init "mary had a lamb")
    = Ok ("mary" +:+ " ha",
          {| buf := "mary had a lamb"; pos := 7 |}).
Proof.
  apply (reads_compose 4 3 (init "mary had a lamb")
           {| buf := "mary had a lamb"; pos := 4 |}); reflexivity.
Defined.

(** After [seek(0)], [read()] returns the whole buffer from whatever
    position the stream was in; at the end of the buffer every further
    read returns the empty string and does not move. *)
Theorem rewind_then_read_all (self s1 : t) :
  seek 0 SEEK_SET self = Ok s1 →
  read None s1
    = Ok (buf self,
          {| buf := buf self;
             pos := Z.of_nat (String.length (buf self)) |}) ∧
  ∀ nbytes,
    read nbytes {| buf := buf self;
                   pos := Z.of_nat (String.length (buf self)) |}
      = Ok ("", {| buf := buf self;
                   pos := Z.of_nat (String.length (buf self)) |}).
Proof.
  intros [= <-]. split.
  - unfold read. cbn. by rewrite substring_all.
  - intros nbytes. unfold read. cbn [buf pos].
    rewrite decide_False by lia. rewrite Nat2Z.id, substring_end.
    do 3 f_equal. cbn. lia.
Qed.

Lemma rewind_then_read_all_witness :
  read None {| buf := "mary"; pos := 0 |}
    = Ok ("mary", {| buf := "mary"; pos := 4 |}).
Proof.
  apply (rewind_then_read_all {| buf := "mary"; pos := 3 |}). reflexivity.
Defined.

End ReadStreamFacts.

(** ** Listeners and subscriptions (extractor.py) *)

Section FindListener.
Import Extractor.

(** The first listener of a node, if the node exists and has one. *)
Definition first_listener (st : State) (n : node_id)
  : option (option node_id) :=
  head ∘ _listeners <$> heap st !! n.

(** [find_listener] looks at nothing but the first listener of each node
    it visits: two heaps in which every node has the same first listener
    give the same answer, whatever the other listeners are. *)
Theorem find_listener_sees_first_listeners_only (fuel : nat)
    (st st' : State) (predicate : node_id → bool) (self : node_id) :
  (∀ n, first_listener st n = first_listener st' n) →
  find_listener fuel st predicate self
    = find_listener fuel st' predicate self.
Proof.
  intros Hsame. revert self. induction fuel as [|fuel IH]; intros self;
    [done|].
  cbn [find_listener]. specialize (Hsame self). unfold first_listener in Hsame.
  destruct (heap st !! self) as [node|], (heap st' !! self) as [node'|];
    cbn in Hsame; try done.
  injection Hsame as Hsame.
  destruct (_listeners node) as [|l rest], (_listeners node') as [|l' rest'];
    cbn in Hsame; try done.
  injection Hsame as <-. destruct (predicate l); [done|apply IH].
Qed.

(** A node with the listeners [1] and [2], and the same node with the
    listener [1] only: the listener [2] is never found. *)
Definition two_listeners (ls : list node_id) : State :=
  {| heap := {[ 0 := set_listeners ls (fresh_node (UserNode (BaseNode "a")) []);
                1 := fresh_node (UserNode (BaseNode "b")) [0];
                2 := fresh_node (UserNode (BaseNode "c")) [0] ]};
     next_node := 3; graph := []; queue := []; world := ∅; trace := [] |}.

Lemma find_listener_sees_first_listeners_only_witness :
  find_listener 5 (two_listeners [1; 2]) (λ n, bool_decide (n = 2)) 0
    = Some None.
Proof.
  rewrite (find_listener_sees_first_listeners_only 5
             (two_listeners [1; 2]) (two_listeners [1])).
  - vm_compute. reflexivity.
  - intros n. unfold first_listener, two_listeners. cbn [heap].
    destruct (decide (n = 0)) as [->|Hne]; [vm_compute; reflexivity|].
    assert (0 ≠ n) as Hne' by done.
    by rewrite !(lookup_insert_ne _ 0 n) by done.
Defined.

End FindListener.

Section Subscriptions.
Import Extractor.

Lemma occ_app x l1 l2 : occ x (l1 ++ l2) = occ x l1 + occ x l2.
Proof. unfold occ. by rewrite filter_app, length_app. Qed.

Lemma occ_flat_map_self (y key : node_id) (needs : list node_id) :
  occ y (flat_map (λ u, if decide (u = key) then [y] else []) needs)
    = occ key needs.
Proof.
  induction needs as [|u needs IH]; [done|].
  cbn [flat_map]. rewrite occ_app, IH, (occ_cons key u).
  destruct (decide (u = key)) as [->|Hne].
  - rewrite (occ_cons y y). cbn. by rewrite !decide_True.
  - done.
Qed.

Lemma occ_flat_map_other (y z key : node_id) (needs : list node_id) :
  z ≠ y →
  occ y (flat_map (λ u, if decide (u = key) then [z] else []) needs) = 0.
Proof.
  intros Hne. induction needs as [|u needs IH]; [done|].
  cbn [flat_map]. rewrite occ_app, IH.
  destruct (decide (u = key)); [|done].
  rewrite (occ_cons y z). cbn. by rewrite decide_False.
Qed.

End Subscriptions.
Section SubscriptionCount.
Import Extractor.

Definition subscribers_of (st : State) (key : node_id)
    (kn : string * node_id) : list node_id :=
  match heap st !! kn.2 with
  | Some node =>
      flat_map (λ u, if decide (u = key) then [kn.2] else []) (_needs node)
  | None => []
  end.

Lemma occ_subscribers_other st key y (g : list (string * node_id)) :
  y ∉ g.*2 → occ y (flat_map (subscribers_of st key) g) = 0.
Proof.
  induction g as [|[k n] g IH]; [done|]. cbn [fmap list_fmap snd].
  intros [Hne Hg]%not_elem_of_cons. cbn [flat_map].
  rewrite occ_app, IH by done. unfold subscribers_of. cbn [snd].
  destruct (heap st !! n); [|done]. by rewrite occ_flat_map_other.
Qed.

(** A node of the graph is called once for every occurrence of the
    pusher in its needs: when no node is registered under two keys, the
    subscribers of [key] contain the node [y] as often as the needs of
    [y] contain [key]. *)
Theorem subscribed_once_per_need (st : State) (key y : node_id)
    (ny : Node) :
  NoDup (graph st).*2 →
  y ∈ (graph st).*2 →
  heap st !! y = Some ny →
  occ y (subscriptions st key) = occ key (_needs ny).
Proof.
  unfold subscriptions. change (λ kn : string * node_id, _)
    with (subscribers_of st key).
  intros Hnd Hy Hny. induction (graph st) as [|[k n] g IH];
    [by apply elem_of_nil in Hy|].
  cbn [fmap list_fmap snd] in Hnd, Hy. apply NoDup_cons in Hnd as [Hn Hnd].
  cbn [flat_map]. rewrite occ_app.
  destruct (decide (n = y)) as [->|Hne].
  - rewrite occ_subscribers_other by done.
    unfold subscribers_of. cbn [snd]. rewrite Hny, occ_flat_map_self. lia.
  - apply elem_of_cons in Hy as [->|Hy]; [done|]. rewrite IH by done.
    unfold subscribers_of at 1. cbn [snd].
    destruct (heap st !! n); [|done]. by rewrite occ_flat_map_other.
Qed.

End SubscriptionCount.
Section SubscriptionExample.
Import Extractor.

(** A node that names the same upstream twice. *)
Definition doubled : State :=
  {| heap := {[ 0 := set_listeners [1; 1]
                       (fresh_node (UserNode (BaseNode "a")) []);
                1 := fresh_node (UserNode (BaseNode "b")) [0; 0] ]};
     next_node := 2; graph := [("a", 0); ("b", 1)]; queue := [];
     world := ∅; trace := [] |}.

Lemma subscribed_once_per_need_witness :
  occ 1 (subscriptions doubled 0) = 2.
Proof.
  rewrite (subscribed_once_per_need doubled 0 1
             (fresh_node (UserNode (BaseNode "b")) [0; 0])).
  - reflexivity.
  - apply (bool_decide_unpack _). vm_compute. exact I.
  - apply (bool_decide_unpack _). vm_compute. exact I.
  - reflexivity.
Defined.

End SubscriptionExample.

(** ** The arguments of a run (extractor.py) *)

Section RunArguments.
Import Extractor.
Local Open Scope monad_scope.

Lemma length_filter_lt {A} (P : A → Prop) `{!∀ x, Decision (P x)}
    (l : list A) (x : A) :
  x ∈ l → ¬ P x → length (filter P l) < length l.
Proof.
  intros Hx Hnot. induction l as [|y l IH]; [by apply elem_of_nil in Hx|].
  rewrite filter_cons. pose proof (length_filter P l) as Hle.
  apply elem_of_cons in Hx as [<-|Hx].
  - rewrite decide_False by done. cbn. lia.
  - specialize (IH Hx). destruct (decide (P y)); cbn; lia.
Qed.

(** A root of the graph without its keyword argument: the run raises
    [KeyError] before anything is called, and the state is what it
    was. *)
Theorem process_requires_every_root_argument (fuel : nat)
    (kwargs : gmap string string) (st : State) (k : string) (n : node_id) :
  (k, n) ∈ roots st →
  kwargs !! k = None →
  Graph_process fuel kwargs st = Raised KeyError st.
Proof.
  intros Hroot Hk. unfold Graph_process, bind, get.
  rewrite decide_True; [done|].
  apply (length_filter_lt _ _ (k, n)); [done|].
  cbn. rewrite Hk. by intros [? ?].
Qed.

Lemma filter_ext_elem_of {A} (P Q : A → Prop) `{!∀ x, Decision (P x)}
    `{!∀ x, Decision (Q x)} (l : list A) :
  (∀ x, x ∈ l → P x ↔ Q x) → filter P l = filter Q l.
Proof.
  induction l as [|y l IH]; intros Hext; [done|].
  rewrite !filter_cons. rewrite IH by (intros x Hx; apply Hext; by right).
  destruct (decide (P y)) as [HP|HP], (decide (Q y)) as [HQ|HQ]; try done.
  - exfalso. apply HQ, (Hext y); [by left|done].
  - exfalso. apply HP, (Hext y); [by left|done].
Qed.

Lemma start_generators_ext kwargs kwargs' rs st :
  Forall (λ kn : string * node_id, kwargs !! kn.1 = kwargs' !! kn.1) rs →
  start_generators kwargs rs st = start_generators kwargs' rs st.
Proof.
  intros Hall. revert st. induction Hall as [|[k n] rs Hk Hall IH]; intros st;
    [done|].
  cbn [start_generators]. cbn in Hk. rewrite <- Hk.
  destruct (kwargs !! k) as [v|]; [|apply IH].
  unfold bind. destruct (record _ st) as [[] st1|e st1|st1]; [|done..].
  by rewrite IH.
Qed.

(** Keyword arguments that no root is registered under are ignored: two
    runs whose arguments agree on the keys of the roots do the same. *)
Theorem process_ignores_other_arguments (fuel : nat)
    (kwargs kwargs' : gmap string string) (st : State) :
  (∀ k n, (k, n) ∈ roots st → kwargs !! k = kwargs' !! k) →
  Graph_process fuel kwargs st = Graph_process fuel kwargs' st.
Proof.
  intros Hagree. unfold Graph_process, bind, get.
  assert (Hfilter :
    filter (λ kn : string * node_id, is_Some (kwargs !! kn.1)) (roots st)
    = filter (λ kn : string * node_id, is_Some (kwargs' !! kn.1)) (roots st)).
  { apply filter_ext_elem_of. intros [k n] Hkn. cbn.
    by rewrite (Hagree k n Hkn). }
  rewrite Hfilter. destruct (decide _) as [Hlt|Hge]; [done|].
  destruct (modify (set_queue []) st) as [[] st1|e st1|st1]; [|done..].
  rewrite (start_generators_ext kwargs kwargs'); [done|].
  apply Forall_forall. intros [k n] Hkn. cbn.
  apply list_elem_of_filter in Hkn as [_ Hkn]. by apply (Hagree k n).
Qed.

End RunArguments.
Section RunArgumentExamples.
Import Extractor.

Lemma process_requires_every_root_argument_witness :
  Graph_process 50 {["text" := "mary"]}
    (Examples.prepared 50 Examples.Document "doc1")
  = Raised KeyError (Examples.prepared 50 Examples.Document "doc1").
Proof.
  apply (process_requires_every_root_argument 50 {["text" := "mary"]}
           (Examples.prepared 50 Examples.Document "doc1") "stream" 0).
  - apply (bool_decide_unpack _). vm_compute. exact I.
  - reflexivity.
Defined.

Lemma process_ignores_other_arguments_witness :
  Graph_process 50 {["stream" := "mary"]}
    (Examples.prepared 50 Examples.Document "doc1")
  = Graph_process 50 {["stream" := "mary"; "title" := "lamb"]}
      (Examples.prepared 50 Examples.Document "doc1").
Proof.
  apply process_ignores_other_arguments. intros k n Hkn.
  assert (Hroots : roots (Examples.prepared 50 Examples.Document "doc1")
                   = [("stream", 0)]) by (vm_compute; reflexivity).
  rewrite Hroots in Hkn. apply list_elem_of_singleton in Hkn.
  injection Hkn as -> ->. reflexivity.
Defined.

End RunArgumentExamples.

(** ** What a run leaves alone (extractor.py) *)

Section Wiring.
Import Extractor.
Local Open Scope monad_scope.

Lemma same_graph_SchedulerFrame : SchedulerFrame (same_on graph).
Proof.
  split.
  - done.
  - intros A ev m st H. unfold observe, same_on in *.
    by destruct (m st) as [a st1|e st1|st1].
  - done.
Qed.

Lemma heap_rel_EnqueueFrame (P : relation Node) `{!PreOrder P} :
  (∀ p node, P node (add_enqueued p node)) → EnqueueFrame (heap_rel P).
Proof.
  intros Hp. split. intros n p st.
  apply (heap_rel_alter P st _ n (add_enqueued p)); [done|].
  intros; apply Hp.
Qed.

Lemma heap_rel_SchedulerFrame (P : relation Node) `{!PreOrder P} :
  SchedulerFrame (heap_rel P).
Proof.
  split.
  - intros ev st. by apply heap_rel_same_heap.
  - intros A ev m st H. unfold observe.
    by destruct (m st) as [a st1|e st1|st1].
  - intros q st. by apply heap_rel_same_heap.
Qed.

(** The node has the needs and the listeners it had. *)
Definition same_wiring : relation Node :=
  λ node node',
    _needs node' = _needs node ∧ _listeners node' = _listeners node.

#[local] Instance same_wiring_preorder : PreOrder same_wiring.
Proof.
  split; [done|]. intros a b c [? ?] [? ?]. unfold same_wiring. split; congruence.
Qed.

Lemma same_wiring_NodeFrame : NodeFrame (heap_rel same_wiring).
Proof.
  apply heap_rel_NodeFrame; [apply _|..]; try done.
  intros r c node. unfold same_wiring, set_stream. by destruct (kind node).
Qed.

(** [Graph.process] never rewires the graph: whatever the outcome of the
    run, the graph dictionary is what it was and every node has the
    needs and the listeners it had, so the roots and the subscriptions
    computed at the start stay those of the graph. *)
Theorem run_keeps_the_wiring (fuel : nat) (kwargs : gmap string string)
    (st : State) :
  graph (out_state (Graph_process fuel kwargs st)) = graph st ∧
  ∀ n node, heap st !! n = Some node →
    ∃ node', heap (out_state (Graph_process fuel kwargs st)) !! n
               = Some node' ∧
             _needs node' = _needs node ∧
             _listeners node' = _listeners node.
Proof.
  split.
  - apply (Graph_process_frame (same_on graph)
             (NodeFrame0 := same_graph_NodeFrame)
             (EnqueueFrame0 := same_graph_EnqueueFrame)
             (SchedulerFrame0 := same_graph_SchedulerFrame)).
  - pose proof (Graph_process_frame (heap_rel same_wiring)
                  (NodeFrame0 := same_wiring_NodeFrame)
                  (EnqueueFrame0 := heap_rel_EnqueueFrame same_wiring
                                      ltac:(done))
                  (SchedulerFrame0 := heap_rel_SchedulerFrame same_wiring)
                  fuel kwargs st) as H.
    intros n node Hn. destruct (H n node Hn) as (node' & Hn' & Hw1 & Hw2).
    by exists node'.
Qed.

End Wiring.
